(** * Max Open microsite: the tournament computation engine

    A shallow embedding of the scheduling, seeding, standings and bracket
    code of the microsite, and the properties of it that the
    specification states.  The code around them (the ranking editor, the
    result store with the schedule view, the totals of a table and the
    stored state) follows in the modules [Ranking], [Results], [Totals]
    and [Storage], with the properties that the code itself shows.

    The repository holds three revisions of [App.jsx], told apart by the
    storage key they use:
    - the first (key [v1]): static groups, [roundRobin], [calcStandings],
      [onImport], the bracket;
    - the second (key [v2]): a ranking ordered by hand and split after the
      seventh place; [onImport] now tests the two group keys;
    - the third (key [v3]): the seeding algorithms [splitSnake] and
      [splitGroups]; [calcStandings] now guards against stale records;
      export and import are gone.
    [roundRobin] and the bracket are the same in the three.  Where the
    revisions differ the latest that has the function bears its name here
    and the earlier one a suffixed name.

    Conventions of the embedding.
    - A JavaScript array is a [list], read with stdpp's lookup [l !! i]
      ([None] is JavaScript's [undefined]).
    - A JavaScript exception (reading a property of [undefined] or of
      [null]) is the [None] of the option monad: a function that can throw
      returns [option].
    - Numbers are integers ([Z]): scores are game counts, ranks are list
      positions, and sums of them are exact.  The conversion [Number(text)]
      of the host is a parameter of the standings code; its result [None]
      stands for every value that [Number.isFinite] rejects.
    - An object used as a dictionary is a [gmap] over its own keys; a name
      is taken not to be that of a property which every object inherits
      ([constructor], [toString] and the like). *)

From stdpp Require Import gmap strings list sorting pretty.
From Stdlib Require Import ZArith Lia ZifyNat.

(** [lia] extended to division and remainder by a constant. *)
Ltac lia_div := zify; Z.to_euclidean_division_equations; lia.

(** ** Data model *)

(** A competitor: [{ name, rank }]. *)
Record player := Player { name : string; rank : Z }.

#[global] Instance player_eq_dec : EqDecision player.
Proof. solve_decision. Defined.

(** An entry of the working array [t] of [roundRobin]: a competitor, or the
    object [{ name: 'VOLNO', bye: true }]. *)
Inductive team :=
  | Real (p : player)
  | BYE.

Definition team_name (x : team) : string :=
  match x with
  | Real p => name p
  | BYE => "VOLNO"
  end.

(** [a?.bye]: [undefined] (falsy) when [a] is [undefined] or a competitor. *)
Definition team_bye (x : option team) : bool :=
  match x with
  | Some BYE => true
  | _ => false
  end.

(** A pairing [[a.name, b.name]] and a fixture round [{ round, matches }]. *)
Definition pairing : Type := string * string.

Record fixture := Fixture { round : nat; matches : list pairing }.

(** ** Scheduler: [roundRobin] *)

Module Scheduler.

(** The array that [t.pop()] leaves: [t] without its last element, which
    is what [pop] returns. *)
Definition pop (t : list team) : list team := take (length t - 1) t.

(** [t.splice(1, 0, t.pop())]: the last element moves to position 1.  The
    loop of [roundRobin] runs only on arrays of two or more entries, so
    the array is never empty here. *)
Definition rotate1 (t : list team) : list team :=
  match last t with
  | Some x => take 1 (pop t) ++ x :: drop 1 (pop t)
  | None => t
  end.

(** One turn of the inner loop: [a = t[i]], [b = t[n - 1 - i]], skipped when
    either is the bye, otherwise the pair of names is pushed. *)
Definition pair_at (t : list team) (n i : nat) : option (list pairing) :=
  let a := t !! i in
  let b := t !! (n - 1 - i) in
  if team_bye a || team_bye b then Some []
  else match a, b with
       | Some a, Some b => Some [(team_name a, team_name b)]
       | _, _ => None
       end.

(** The inner loop [for (i = 0; i < half; i++)] with [half = n / 2]; for an
    odd [n] the real-valued bound admits [(n + 1) / 2] turns. *)
Definition round_pairs (t : list team) : option (list pairing) :=
  let n := length t in
  pairs ← mapM (pair_at t n) (seq 0 ((n + 1) / 2)); Some (concat pairs).

(** The outer loop, [k] rounds left, [r] rounds done. *)
Fixpoint rounds_loop (k r : nat) (t : list team) : option (list fixture) :=
  match k with
  | 0 => Some []
  | S k' =>
      pairs ← round_pairs t;
      rest ← rounds_loop k' (S r) (rotate1 t);
      Some (Fixture (r + 1) pairs :: rest)
  end.

Definition working_list (teams : list player) : list team :=
  (Real <$> teams) ++ (if decide (length teams mod 2 = 1) then [BYE] else []).

Definition roundRobin (teams : list player) : option (list fixture) :=
  let t := working_list teams in
  rounds_loop (length t - 1) 0 t.

(** All pairings of a schedule, round after round. *)
Definition all_pairings (s : list fixture) : list pairing :=
  concat (matches <$> s).

(** The names that play in a round. *)
Definition round_names (f : fixture) : list string :=
  concat ((λ p : pairing, [p.1; p.2]) <$> matches f).

(** [a] and [b] meet in a round: one of its pairings opposes them. *)
Definition plays (a b : string) (f : fixture) : Prop :=
  (a, b) ∈ matches f ∨ (b, a) ∈ matches f.

(** How often [a] and [b] meet in a schedule. *)
Definition meetings (a b : string) (s : list fixture) : nat :=
  length (filter (λ p : pairing, p = (a, b) ∨ p = (b, a)) (all_pairings s)).

(** A round-robin schedule for a roster, in the sense of the contract:
    every round is a matching on the roster, and any two distinct
    competitors meet in some round. *)
Definition round_robin_schedule (names : list string) (s : list fixture) : Prop :=
  (∀ f, f ∈ s →
     NoDup (round_names f) ∧ ∀ c, c ∈ round_names f → c ∈ names) ∧
  (∀ a b, a ∈ names → b ∈ names → a ≠ b → ∃ f, f ∈ s ∧ plays a b f).

(** The ordered pairs of distinct names of a roster. *)
Definition ordered_pairs (names : list string) : list pairing :=
  names ≫= (λ a, (λ b, (a, b)) <$> filter (λ b, b ≠ a) names).

(** *** Closed form of the schedule

    The initial array has [n = m + 1] entries.  After [r] rotations
    position [p] holds the entry that started at position [src m r p]:
    position 0 never moves and the others turn in a circle of length [m]. *)
Definition src (m r p : nat) : nat :=
  if decide (p = 0) then 0
  else if decide (r < p) then p - r else p + m - r.

(** What [pair_at] pushes when both positions are inside the array. *)
Definition emit (t : list team) (u v : nat) : list pairing :=
  match t !! u, t !! v with
  | Some (Real p), Some (Real q) => [(name p, name q)]
  | _, _ => []
  end.

(** The pairings of round [r] (counted from 0), read off the initial array. *)
Definition round_closed (t : list team) (r : nat) : list pairing :=
  let m := length t - 1 in
  concat ((λ i, emit t (src m r i) (src m r (m - i))) <$> seq 0 ((m + 1) / 2)).

Definition schedule_closed (t : list team) : list fixture :=
  (λ r, Fixture (r + 1) (round_closed t r)) <$> seq 0 (length t - 1).

(** *** The schedule by positions

    The pairs of positions of the input list that round [r] (counted from
    0) opposes, for a list of [N] competitors: the pairs of the circle,
    but the one that holds the position of the bye. *)
Definition round_positions (N r : nat) : list (nat * nat) :=
  let m := N + N mod 2 - 1 in
  filter (λ uv : nat * nat, uv.1 < N ∧ uv.2 < N)
    ((λ i, (src m r i, src m r (m - i))) <$> seq 0 ((m + 1) / 2)).

(** The name of the competitor at a position, and the pairing of names
    that a pair of positions stands for. *)
Definition name_at (teams : list player) (u : nat) : string :=
  default "" (name <$> teams !! u).

Definition named (teams : list player) (uv : nat * nat) : pairing :=
  (name_at teams uv.1, name_at teams uv.2).

(** The competitor at position [u] sits out round [r]: no pairing of the
    round is made from that position. *)
Definition sits_out (N r u : nat) : Prop :=
  ∀ uv : nat * nat, uv ∈ round_positions N r → uv.1 ≠ u ∧ uv.2 ≠ u.

End Scheduler.


(** ** Seeder: [splitSnake] and [splitGroups] *)

Module Seeder.

(** The two arrays [A] and [B] under construction, returned as [{ A, B }]. *)
Record groups := Groups { A : list player; B : list player }.

(** [{ ...p, rank: r }]: the fields of [p], the rank overwritten. *)
Definition set_rank (p : player) (r : Z) : player := Player (name p) r.

(** [{ ...p, rank: idx + 1 }]. *)
Definition rerank (p : player) (idx : nat) : player :=
  set_rank p (Z.of_nat idx + 1).

Definition pushA (g : groups) (x : player) : groups := Groups (A g ++ [x]) (B g).
Definition pushB (g : groups) (x : player) : groups := Groups (A g) (B g ++ [x]).

(** [list.forEach((p, idx) => ...)], the callback threading the two arrays. *)
Fixpoint forEach_from (f : groups → player → nat → groups)
    (idx : nat) (l : list player) (g : groups) : groups :=
  match l with
  | [] => g
  | p :: l' => forEach_from f (S idx) l' (f g p idx)
  end.

Definition forEach (f : groups → player → nat → groups)
    (l : list player) (g : groups) : groups :=
  forEach_from f 0 l g.

(** The callback of [splitSnake]. *)
Definition snake_step (g : groups) (p : player) (idx : nat) : groups :=
  let pair := idx / 2 in
  let evenPair := bool_decide (pair mod 2 = 0) in
  if evenPair then
    if bool_decide (idx mod 2 = 0) then pushA g (rerank p idx)
    else pushB g (rerank p idx)
  else
    if bool_decide (idx mod 2 = 0) then pushB g (rerank p idx)
    else pushA g (rerank p idx).

Definition splitSnake (list : list player) : groups :=
  forEach snake_step list (Groups [] []).

(** The callback of the other branch of [splitGroups];
    [half = Math.ceil(list.length / 2)]. *)
Definition half_step (half : nat) (g : groups) (p : player) (idx : nat) : groups :=
  let newRank := (Z.of_nat idx + 1)%Z in
  if bool_decide (idx < half) then pushA g (set_rank p newRank)
  else pushB g (set_rank p newRank).

Definition splitGroups (list : list player) (algo : string) : groups :=
  if bool_decide (algo = "had") then splitSnake list
  else
    let half := (length list + 1) / 2 in
    forEach (half_step half) list (Groups [] []).

(** The master ranking with every [rank] set to the 1-based position. *)
Definition reranked_from (idx : nat) (l : list player) : list player :=
  imap (λ i p, rerank p (idx + i)) l.

(** The entries of [l] (the first of which has index [idx]) whose index
    satisfies [sel], re-ranked, in order. *)
Fixpoint pick_from (sel : nat → bool) (idx : nat) (l : list player) : list player :=
  match l with
  | [] => []
  | p :: l' =>
      (if sel idx then [rerank p idx] else []) ++ pick_from sel (S idx) l'
  end.

(** Which indices the two policies send to group A. *)
Definition snakeA (idx : nat) : bool :=
  bool_decide ((idx / 2) mod 2 = idx mod 2).

Definition halfA (half idx : nat) : bool := bool_decide (idx < half).

End Seeder.

(** ** Standings calculator: [calcStandings] *)

Module Standings.

(** A result record [{ a, b, round, ag, bg }]; the scores are texts. *)
Record result := Result {
  res_a : string;
  res_b : string;
  res_round : nat;
  res_ag : string;
  res_bg : string
}.

(** A standings row [{ name, rank, W, L, GF, GA, GD }]. *)
Record row := Row {
  row_name : string;
  row_rank : Z;
  W : Z;
  L : Z;
  GF : Z;
  GA : Z;
  GD : Z
}.

#[global] Instance row_eq_dec : EqDecision row.
Proof. solve_decision. Defined.

(** The result map of a group, as [Object.values] walks it: the entries in
    order, each a match identifier and a record ([None] for a falsy
    entry such as [null]). *)
Abbreviation results := (list (string * option result)).

(** [table[i].F += x] and [table[i].F++], on the row. *)
Definition add_GF (x : Z) (r : row) : row :=
  Row (row_name r) (row_rank r) (W r) (L r) (GF r + x) (GA r) (GD r).
Definition add_GA (x : Z) (r : row) : row :=
  Row (row_name r) (row_rank r) (W r) (L r) (GF r) (GA r + x) (GD r).
Definition incr_W (r : row) : row :=
  Row (row_name r) (row_rank r) (W r + 1) (L r) (GF r) (GA r) (GD r).
Definition incr_L (r : row) : row :=
  Row (row_name r) (row_rank r) (W r) (L r + 1) (GF r) (GA r) (GD r).

(** [r.GD = r.GF - r.GA]. *)
Definition set_GD (r : row) : row :=
  Row (row_name r) (row_rank r) (W r) (L r) (GF r) (GA r) (GF r - GA r).

(** An assignment to a field of [table[i]]: it throws when [i] is
    [undefined] or [table] has no row [i]. *)
Definition update (table : list row) (i : option nat) (f : row → row)
    : option (list row) :=
  j ← i; _ ← table !! j; Some (alter f j table).

Arguments update : simpl never.

(** [Object.fromEntries]: a later entry overwrites an earlier one of the
    same key. *)
Definition fromEntries (l : list (string * nat)) : gmap string nat :=
  foldl (λ m kv, <[kv.1 := kv.2]> m) ∅ l.

(** [x || y] on numbers. *)
Definition or_else (x y : Z) : Z := if bool_decide (x ≠ 0%Z) then x else y.

(** The comparator of the final sort:
    [y.W - x.W || y.GD - x.GD || y.GF - x.GF || x.rank - y.rank]. *)
Definition compareRows (x y : row) : Z :=
  or_else (W y - W x)
    (or_else (GD y - GD x)
       (or_else (GF y - GF x) (row_rank x - row_rank y))).

(** [Array.prototype.sort] is stable; for a comparator that is a total
    preorder it returns the one ordered permutation that keeps equivalent
    rows in their original order.  The model inserts each row, from the
    last to the first, in front of the first row that does not come
    before it. *)
Fixpoint insert_row (cmp : row → row → Z) (x : row) (l : list row) : list row :=
  match l with
  | [] => [x]
  | y :: l' =>
      if bool_decide (cmp x y ≤ 0)%Z then x :: y :: l'
      else y :: insert_row cmp x l'
  end.

Definition sort (cmp : row → row → Z) (l : list row) : list row :=
  foldr (insert_row cmp) [] l.

(** [forEach] over the values, the callback threading the table and
    possibly throwing. *)
Fixpoint forEach (f : list row → option result → option (list row))
    (ms : list (option result)) (table : list row) : option (list row) :=
  match ms with
  | [] => Some table
  | m :: ms' => t ← f table m; forEach f ms' t
  end.

(** The index is read against a table whose names are [names]. *)
Definition index_for (index : gmap string nat) (names : list string) : Prop :=
  (∀ a i, index !! a = Some i → names !! i = Some a) ∧
  (∀ a, index !! a = None ↔ a ∉ names).

Section calc.

(** The conversion [Number(text)] of the host: [None] when the value is not
    finite ([NaN], an infinity). *)
Variable Number : string → option Z.

(** The test [Number.isFinite(agn) && Number.isFinite(bgn) && ag !== '' &&
    bg !== ''], giving the two scores when it passes. *)
Definition recorded (m : result) : option (Z * Z) :=
  match Number (res_ag m), Number (res_bg m) with
  | Some agn, Some bgn =>
      if bool_decide (res_ag m ≠ "") && bool_decide (res_bg m ≠ "")
      then Some (agn, bgn) else None
  | _, _ => None
  end.

(** The body of that test: four additions, then the win and the loss. *)
Definition credit (table : list row) (iA iB : option nat) (agn bgn : Z)
    : option (list row) :=
  t1 ← update table iA (add_GF agn);
  t2 ← update t1 iA (add_GA bgn);
  t3 ← update t2 iB (add_GF bgn);
  t4 ← update t3 iB (add_GA agn);
  if bool_decide (agn > bgn)%Z then
    t5 ← update t4 iA incr_W; update t5 iB incr_L
  else if bool_decide (bgn > agn)%Z then
    t5 ← update t4 iB incr_W; update t5 iA incr_L
  else Some t4.

(** The callback of [forEach] in the latest revision, with the guard
    [if (A === undefined || B === undefined) return]. *)
Definition step (index : gmap string nat) (table : list row)
    (m : option result) : option (list row) :=
  match m with
  | None => Some table
  | Some m =>
      let iA := index !! res_a m in
      let iB := index !! res_b m in
      if bool_decide (iA = None ∨ iB = None) then Some table
      else match recorded m with
           | Some (agn, bgn) => credit table iA iB agn bgn
           | None => Some table
           end
  end.

(** The callback in the two earlier revisions, which have no guard. *)
Definition step_unguarded (index : gmap string nat) (table : list row)
    (m : option result) : option (list row) :=
  match m with
  | None => Some table
  | Some m =>
      let iA := index !! res_a m in
      let iB := index !! res_b m in
      match recorded m with
      | Some (agn, bgn) => credit table iA iB agn bgn
      | None => Some table
      end
  end.

Definition initial_table (players : list player) : list row :=
  (λ p, Row (name p) (rank p) 0 0 0 0 0) <$> players.

Definition index_of (table : list row) : gmap string nat :=
  fromEntries (imap (λ i r, (row_name r, i)) table).

Definition calcStandings_with
    (cb : gmap string nat → list row → option result → option (list row))
    (players : list player) (resultsForGroup : results) : option (list row) :=
  let table := initial_table players in
  let index := index_of table in
  t ← forEach (cb index) (snd <$> resultsForGroup) table;
  Some (sort compareRows (set_GD <$> t)).

(** [calcStandings] of the latest revision. *)
Definition calcStandings : list player → results → option (list row) :=
  calcStandings_with step.

(** [calcStandings] of the two earlier revisions. *)
Definition calcStandings_unguarded : list player → results → option (list row) :=
  calcStandings_with step_unguarded.

(** *** The aggregation in the words of the specification *)










(** *** The loop, row by row *)




End calc.

(** *** The order of the table in the words of the specification *)

(** Wins descending, then game difference descending, then games for
    descending, then seed rank ascending. *)
Definition precedes (x y : row) : Prop :=
  (W x > W y ∨ W x = W y ∧
    (GD x > GD y ∨ GD x = GD y ∧
      (GF x > GF y ∨ GF x = GF y ∧ row_rank x ≤ row_rank y)))%Z.


(** *** An instance of the conversion

    [Number] restricted to the texts that the score inputs let through
    (pattern [[0-9]*]): a text of decimal digits is its value, the empty
    text is 0. *)
Definition digit_value (c : Ascii.ascii) : option Z :=
  let n := Ascii.nat_of_ascii c in
  if bool_decide (48 ≤ n ≤ 57) then Some (Z.of_nat (n - 48)) else None.

Fixpoint digits_value (s : string) (acc : Z) : option Z :=
  match s with
  | EmptyString => Some acc
  | String c s' => d ← digit_value c; digits_value s' (10 * acc + d)%Z
  end.

Definition Number_of_digits (s : string) : option Z := digits_value s 0.

End Standings.

(** ** Bracket projector *)

Module Bracket.
Import Standings.

(** A matchup [{ label, a, b }]. *)
Record matchup := Matchup { label : string; side_a : string; side_b : string }.

(** [standings.slice(0, 4).map(r => r.name)]. *)
Definition top4 (standings : list row) : list string :=
  row_name <$> take 4 standings.

(** [x || placeholder] on a name: the placeholder when [x] is [undefined]
    or the empty string. *)
Definition or_label (x : option string) (placeholder : string) : string :=
  match x with
  | Some s => if bool_decide (s = "") then placeholder else s
  | None => placeholder
  end.

Definition bracket (standingsA standingsB : list row) : list matchup :=
  let top4A := top4 standingsA in
  let top4B := top4 standingsB in
  [ Matchup "ČF1" (or_label (top4A !! 0) "1A") (or_label (top4B !! 3) "4B");
    Matchup "ČF2" (or_label (top4A !! 1) "2A") (or_label (top4B !! 2) "3B");
    Matchup "ČF3" (or_label (top4B !! 0) "1B") (or_label (top4A !! 3) "4A");
    Matchup "ČF4" (or_label (top4B !! 1) "2B") (or_label (top4A !! 2) "3A") ].

(** *** The bracket in the words of the specification *)

(** The name of row [i] of the table, the placeholder when the table has
    no row [i]. *)
Definition slot_as_stated (standings : list row) (i : nat)
    (placeholder : string) : string :=
  match standings !! i with
  | Some r => row_name r
  | None => placeholder
  end.

(** The same, the placeholder standing also for a row of empty name. *)
Definition slot (standings : list row) (i : nat) (placeholder : string) : string :=
  match standings !! i with
  | Some r => if bool_decide (row_name r = "") then placeholder else row_name r
  | None => placeholder
  end.

Definition crossover (entry : list row → nat → string → string)
    (standingsA standingsB : list row) : list matchup :=
  [ Matchup "ČF1" (entry standingsA 0 "1A") (entry standingsB 3 "4B");
    Matchup "ČF2" (entry standingsA 1 "2A") (entry standingsB 2 "3B");
    Matchup "ČF3" (entry standingsB 0 "1B") (entry standingsA 3 "4A");
    Matchup "ČF4" (entry standingsB 1 "2B") (entry standingsA 2 "3A") ].

End Bracket.

(** ** Import of a saved state: [onImport] *)

Module StateImport.

(** A value that [JSON.parse] returns. *)
#[local] Unset Elimination Schemes.
Inductive json :=
  | JNull
  | JBool (b : bool)
  | JNum (z : Z)
  | JStr (s : string)
  | JArr (items : list json)
  | JObj (fields : list (string * json)).
#[local] Set Elimination Schemes.

(** The value of the own property [k] of an object that [JSON.parse]
    built: of two fields of one key the later is kept. *)
Fixpoint field (fields : list (string * json)) (k : string) : option json :=
  match fields with
  | [] => None
  | (k', v) :: rest =>
      match field rest k with
      | Some w => Some w
      | None => if bool_decide (k' = k) then Some v else None
      end
  end.

(** The property read [parsed.A] or [parsed.B]: it throws on [null]
    (outer [None]); a number, a boolean, a text or an array has no such
    property ([undefined], inner [None]). *)
Definition get (v : json) (k : string) : option (option json) :=
  match v with
  | JNull => None
  | JObj fields => Some (field fields k)
  | _ => Some None
  end.

(** The truth value that [&&] and [if] test. *)
Definition truthy (v : option json) : bool :=
  match v with
  | None | Some JNull => false
  | Some (JBool b) => b
  | Some (JNum z) => bool_decide (z ≠ 0%Z)
  | Some (JStr s) => bool_decide (s ≠ "")
  | Some (JArr _) | Some (JObj _) => true
  end.

(** What the handler does: [setState(parsed)], or an alert. *)
Inductive outcome :=
  | Accepted (parsed : json)
  | Rejected (notice : string).

(** The result state after the handler. *)
Definition state_after (state : json) (o : outcome) : json :=
  match o with
  | Accepted parsed => parsed
  | Rejected _ => state
  end.

Section handler.

(** [JSON.parse], [None] when it throws a [SyntaxError]. *)
Variable JSON_parse : string → option json.

(** The [onload] handler of [onImport] in the revision that tests the two
    group keys. *)
Definition onImport (text : string) : outcome :=
  match JSON_parse text with
  | None => Rejected "Soubor nelze načíst."
  | Some parsed =>
      match get parsed "A" with
      | None => Rejected "Soubor nelze načíst."
      | Some pa =>
          if truthy pa then
            match get parsed "B" with
            | None => Rejected "Soubor nelze načíst."
            | Some pb =>
                if truthy pb then Accepted parsed
                else Rejected "Soubor nemá požadovaný formát."
            end
          else Rejected "Soubor nemá požadovaný formát."
      end
  end.

(** The handler in the first revision: [setState(JSON.parse(...))]. *)
Definition onImport_unchecked (text : string) : outcome :=
  match JSON_parse text with
  | None => Rejected "Soubor nelze načíst"
  | Some parsed => Accepted parsed
  end.

End handler.

(** The value is an object that has the key. *)
Definition has_key (v : json) (k : string) : Prop :=
  match v with
  | JObj fields => k ∈ fields.*1
  | _ => False
  end.

End StateImport.

(** ** Ranking editor: [reorder], [moveUp], [moveDown], [deletePlayer],
    [renamePlayer], [addPlayer], [handleDrop]

    The ranking is the array of competitors that the seeding reads.  The
    buttons and the drag and drop of the editor pass the index of a list
    item, a natural number. *)

Module Ranking.
Import Seeder.

(** [result.splice(i, 0, x)]: [x] goes in front of position [i], at the end
    when the array is shorter. *)
Definition splice_in {X : Type} (l : list X) (i : nat) (x : X) : list X :=
  take i l ++ x :: drop i l.

(** [reorder(list, fromIndex, toIndex)].  [const [moved] =
    result.splice(fromIndex, 1)] takes the element out, and [moved] is
    [undefined] when the array has no such element; it is put back at
    [toIndex] either way, so the array returned may hold one [undefined]
    ([None]). *)
Definition reorder (l : list player) (fromIndex toIndex : nat)
    : list (option player) :=
  let result := Some <$> l in
  let moved := mjoin (result !! fromIndex) in
  let result := delete fromIndex result in
  splice_in result toIndex moved.

(** [out.forEach((p, i) => { p.rank = i + 1 })]: it throws on an element
    that is [undefined]. *)
Definition rank_in_place (out : list (option player)) : option (list player) :=
  l ← mapM id out; Some (imap (λ i p, rerank p i) l).

(** [out.map((p, i) => ({ ...p, rank: i + 1 }))]. *)
Definition rank_by_position (l : list player) : list player :=
  imap (λ i p, rerank p i) l.

(** The new ranking that [moveUp(idx)] sets; the ranking as it is when the
    function returns at once. *)
Definition moveUp (idx : nat) (l : list player) : option (list player) :=
  if bool_decide (idx ≤ 0) then Some l
  else rank_in_place (reorder l idx (idx - 1)).

(** [moveDown(idx)], with its test [idx >= list.length - 1]. *)
Definition moveDown (idx : nat) (l : list player) : option (list player) :=
  if bool_decide (Z.of_nat idx >= Z.of_nat (length l) - 1)%Z then Some l
  else rank_in_place (reorder l idx (idx + 1)).

(** [handleDrop(idx)] of the second revision; [draggedIndex] is [null]
    ([None]) when nothing is dragged. *)
Definition handleDrop (draggedIndex : option nat) (idx : nat)
    (ranking : list player) : option (list player) :=
  match draggedIndex with
  | None => Some ranking
  | Some d =>
      if bool_decide (d = idx) then Some ranking
      else rank_in_place (reorder ranking d idx)
  end.

(** [deletePlayer(idx)]; [confirmed] is the answer to [window.confirm]. *)
Definition deletePlayer (confirmed : bool) (idx : nat) (l : list player)
    : list player :=
  if confirmed then rank_by_position (delete idx l) else l.

(** An element of the array that [renamePlayer] returns: a competitor; the
    object [{ name }] without a rank, which [{ ...undefined, name }] is; or
    an empty slot of an array that was extended. *)
Inductive slot :=
  | Competitor (p : player)
  | Unranked (name : string)
  | Hole.

(** [renamePlayer(idx, newName)]: [out[idx] = { ...out[idx], name: newName }].
    Past the end the assignment extends the array. *)
Definition renamePlayer (idx : nat) (newName : string) (l : list player)
    : list slot :=
  match l !! idx with
  | Some p => Competitor <$> <[idx := Player newName (rank p)]> l
  | None =>
      (Competitor <$> l) ++ replicate (idx - length l) Hole
        ++ [Unranked newName]
  end.

Definition base : string := "Nový hráč".

(** The candidate [`${base} ${count}`]; a count prints as its decimal
    digits. *)
Definition numbered (count : nat) : string := base +:+ " " +:+ pretty count.

(** The loop [while (names.includes(candidate)) { count++; candidate =
    `${base} ${count}` }], for at most [fuel] turns of its body; [None]
    when the loop is still running then. *)
Fixpoint while_includes (fuel : nat) (names : list string) (count : nat)
    (candidate : string) : option string :=
  if bool_decide (candidate ∈ names) then
    match fuel with
    | 0 => None
    | S fuel' => while_includes fuel' names (count + 1) (numbered (count + 1))
    end
  else Some candidate.

(** [addPlayer()]. *)
Definition addPlayer (fuel : nat) (l : list player) : option (list player) :=
  let names := name <$> l in
  candidate ← while_includes fuel names 1 base;
  let newList := l ++ [Player candidate (Z.of_nat (length l) + 1)] in
  Some (rank_by_position newList).

(** The [k]-th name that the loop of [addPlayer] tries, from 1. *)
Definition candidate (k : nat) : string :=
  if bool_decide (k ≤ 1) then base else numbered k.

(** The ranks are the positions, counted from 1. *)
Definition ranked (l : list player) : Prop :=
  ∀ i p, l !! i = Some p → rank p = (Z.of_nat i + 1)%Z.

(** The list with the elements of positions [i] and [j] exchanged. *)
Definition swapped {X : Type} (l : list X) (i j : nat) : list X :=
  match l !! i, l !! j with
  | Some x, Some y => <[i := y]> (<[j := x]> l)
  | _, _ => l
  end.

End Ranking.

(** ** Result store: [idFor], [emptyResults], [updateScore], [clearMatch],
    [applySeeding] and the schedule view *)

Module Results.
Import Scheduler Seeder Standings.

(** [idFor(group, a, b)]: [`${group}::${a}__${b}`]. *)
Definition idFor (group a b : string) : string :=
  group +:+ "::" +:+ a +:+ "__" +:+ b.

(** A record of a result map: the complete record that [emptyResults]
    makes, or an object that holds only score fields, which is what
    [updateScore] and [clearMatch] make under a key that had no record
    ([{ ...undefined, ag: value }]). *)
Inductive record :=
  | Complete (m : result)
  | Partial (ag bg : option string).

(** An object used as a map from texts: its own keys in the order of
    their insertion, which is the order [Object.values] follows.  The keys
    read and written here are match identifiers, which hold [::]: none is
    the text of an array index, nor the name of a property that every
    object inherits. *)
Abbreviation object V := (list (string * V)).

(** [o[k]]. *)
Fixpoint get {V : Type} (o : object V) (k : string) : option V :=
  match o with
  | [] => None
  | (k', v) :: o' => if bool_decide (k' = k) then Some v else get o' k
  end.

(** [o[k] = v], and [{ ...o, [k]: v }]: a key that is there keeps its
    place, a new key goes last. *)
Fixpoint set {V : Type} (o : object V) (k : string) (v : V) : object V :=
  match o with
  | [] => [(k, v)]
  | (k', v') :: o' =>
      if bool_decide (k' = k) then (k, v) :: o' else (k', v') :: set o' k v
  end.

(** The assignments [o[k] = v] for the entries [(k, v)] of a list, one
    after the other. *)
Definition set_all {V : Type} (o : object V) (es : object V) : object V :=
  foldl (λ out e, set out e.1 e.2) o es.

Abbreviation store := (object record).

(** The callback of the inner [forEach] of [emptyResults]. *)
Definition blank (group : string) (round : nat) (out : store) (p : pairing)
    : store :=
  let '(a, b) := p in
  set out (idFor group a b) (Complete (Result a b round "" "")).

(** [emptyResults(schedule, group)]. *)
Definition emptyResults (schedule : list fixture) (group : string) : store :=
  foldl (λ out f, foldl (blank group (round f)) out (matches f)) [] schedule.

(** The result state [{ A, B }]. *)
Record state := State { A : store; B : store }.

(** The group and the score field that the event handlers of the schedule
    view pass: the literals ['A'], ['B'] and ['ag'], ['bg']. *)
Inductive group_id := inA | inB.
Inductive score_field := ag | bg.

#[global] Instance group_id_eq_dec : EqDecision group_id.
Proof. solve_decision. Defined.

#[global] Instance score_field_eq_dec : EqDecision score_field.
Proof. solve_decision. Defined.

Definition group_key (g : group_id) : string :=
  match g with inA => "A" | inB => "B" end.

(** [s[group]] and [{ ...s, [group]: o }]. *)
Definition of_group (s : state) (g : group_id) : store :=
  match g with inA => A s | inB => B s end.

Definition with_group (s : state) (g : group_id) (o : store) : state :=
  match g with inA => State o (B s) | inB => State (A s) o end.

(** [{ ...rec, [field]: value }], [rec] possibly [undefined]. *)
Definition with_score (rec : option record) (field : score_field)
    (value : string) : record :=
  match rec, field with
  | Some (Complete m), ag =>
      Complete (Result (res_a m) (res_b m) (res_round m) value (res_bg m))
  | Some (Complete m), bg =>
      Complete (Result (res_a m) (res_b m) (res_round m) (res_ag m) value)
  | Some (Partial _ y), ag => Partial (Some value) y
  | Some (Partial x _), bg => Partial x (Some value)
  | None, ag => Partial (Some value) None
  | None, bg => Partial None (Some value)
  end.

(** [{ ...rec, ag: '', bg: '' }]. *)
Definition cleared (rec : option record) : record :=
  match rec with
  | Some (Complete m) =>
      Complete (Result (res_a m) (res_b m) (res_round m) "" "")
  | _ => Partial (Some "") (Some "")
  end.

(** [updateScore(group, key, field, value)], as the function that
    [setState] applies to the state. *)
Definition updateScore (group : group_id) (key : string) (field : score_field)
    (value : string) (s : state) : state :=
  with_group s group
    (set (of_group s group) key
       (with_score (get (of_group s group) key) field value)).

(** [clearMatch(group, key)]. *)
Definition clearMatch (group : group_id) (key : string) (s : state) : state :=
  with_group s group
    (set (of_group s group) key (cleared (get (of_group s group) key))).

(** [applySeeding()] of the latest revision: the groups and the result
    state that it sets. *)
Definition applySeeding (ranking : list player) (seedingAlgo : string)
    : option (groups * state) :=
  let g := splitGroups ranking seedingAlgo in
  schedA ← roundRobin (Seeder.A g);
  schedB ← roundRobin (Seeder.B g);
  Some (g, State (emptyResults schedA "A") (emptyResults schedB "B")).

(** [applySeeding()] of the second revision, which puts the first
    [groupACount = 7] of the ranking into group A. *)
Definition groupACount : nat := 7.

Definition split_at_seven (ranking : list player) : groups :=
  Groups
    (imap (λ i p, set_rank p (Z.of_nat i + 1)) (take groupACount ranking))
    (imap (λ i p, set_rank p (Z.of_nat groupACount + Z.of_nat i + 1))
       (drop groupACount ranking)).

Definition applySeeding_at_seven (ranking : list player)
    : option (groups * state) :=
  let g := split_at_seven ranking in
  schedA ← roundRobin (Seeder.A g);
  schedB ← roundRobin (Seeder.B g);
  Some (g, State (emptyResults schedA "A") (emptyResults schedB "B")).

(** [rec.ag] and [rec.bg], [undefined] ([None]) on a record without the
    field. *)
Definition score_of (rec : record) (field : score_field) : option string :=
  match rec, field with
  | Complete m, ag => Some (res_ag m)
  | Complete m, bg => Some (res_bg m)
  | Partial x _, ag => x
  | Partial _ y, bg => y
  end.

(** A line of the schedule view: the two names and the values of the two
    score inputs.  [rec = state.A[key]] is read without a test, so the
    line throws when the map has no record under the key. *)
Definition match_line (o : store) (group : string) (p : pairing)
    : option (string * option string * option string * string) :=
  rec ← get o (idFor group p.1 p.2);
  Some (p.1, score_of rec ag, score_of rec bg, p.2).

(** The schedule view of a group: [schedule.map(({ round, matches }) =>
    ... matches.map(...))]. *)
Definition schedule_view (schedule : list fixture) (o : store) (group : string)
    : option (list (nat * list (string * option string * option string * string))) :=
  mapM (λ f, ls ← mapM (match_line o group) (matches f); Some (round f, ls))
    schedule.

(** The values of a result map as [calcStandings] reads them.  A record
    without the names has [a] and [b] [undefined], which as a key of the
    index is the text [undefined]; a record that lacks a score is not
    recorded ([Number(undefined)] is not finite) and leaves the table as a
    falsy entry does. *)
Definition as_read (rec : record) : option result :=
  match rec with
  | Complete m => Some m
  | Partial (Some x) (Some y) => Some (Result "undefined" "undefined" 0 x y)
  | Partial _ _ => None
  end.

Definition values (o : store) : results :=
  (λ kv, (kv.1, as_read kv.2)) <$> o.

(** The texts that hold no underscore (the character of code 95). *)
Fixpoint plain (s : string) : bool :=
  match s with
  | EmptyString => true
  | String c s' => bool_decide (Ascii.nat_of_ascii c ≠ 95) && plain s'
  end.

(** The identifiers of the pairings of a schedule, in order. *)
Definition identifiers (schedule : list fixture) (group : string) : list string :=
  (λ p : pairing, idFor group p.1 p.2) <$> all_pairings schedule.

(** The records that [emptyResults] writes, one for each pairing. *)
Definition blank_records (schedule : list fixture) (group : string) : store :=
  schedule ≫= (λ f,
    (λ p : pairing, (idFor group p.1 p.2,
                     Complete (Result p.1 p.2 (round f) "" ""))) <$> matches f).

(** The schedule view in which every score input is empty. *)
Definition blank_view (schedule : list fixture)
    : list (nat * list (string * option string * option string * string)) :=
  (λ f, (round f,
         (λ p : pairing, (p.1, Some "", Some "", p.2)) <$> matches f))
    <$> schedule.

(** What the user does in the schedule view of a group: a text typed into
    one of the two score inputs of a line, or the button that clears the
    line.  The line is that of a pairing [(a, b)] of the schedule, and its
    handlers pass the key [idFor(group, a, b)]. *)
Inductive event :=
  | Typed (p : pairing) (field : score_field) (value : string)
  | ClearPressed (p : pairing).

Definition event_pairing (e : event) : pairing :=
  match e with
  | Typed p _ _ => p
  | ClearPressed p => p
  end.

Definition handle (group : group_id) (s : state) (e : event) : state :=
  match e with
  | Typed p field value =>
      updateScore group (idFor (group_key group) p.1 p.2) field value s
  | ClearPressed p => clearMatch group (idFor (group_key group) p.1 p.2) s
  end.

End Results.

(** ** Sums over groups and tables *)

Module Totals.
Import Standings.

(** The sum of the seed ranks of a group. *)
Definition rank_sum (l : list player) : Z :=
  foldr (λ p acc, (rank p + acc)%Z) 0%Z l.




End Totals.

(** ** Stored state: [loadState] and the first result state *)

Module Storage.
Import StateImport.

(** The first result state: the stored one, or the one that
    [emptyResults] makes for the two schedules. *)
Inductive first_state :=
  | Stored (loaded : json)
  | Fresh.

Section storage.

(** [JSON.parse], [None] when it throws. *)
Variable JSON_parse : string → option json.

(** [loadState()] of the second and third revision.  [item] is what
    [localStorage.getItem] gives: [None] when it throws, [Some None] for
    [null] (no item), [Some (Some raw)] for a stored text.  The result
    [None] is the [null] that the function returns by itself. *)
Definition loadState (item : option (option string)) : option json :=
  match item with
  | None => None
  | Some None => None
  | Some (Some raw) => if bool_decide (raw = "") then None else JSON_parse raw
  end.

(** The initializer of the result state in these revisions:
    [if (loaded && loaded.A && loaded.B) return loaded], otherwise the
    fresh state; [None] if it threw. *)
Definition initial_state (item : option (option string)) : option first_state :=
  let loaded := loadState item in
  if truthy loaded then
    match loaded with
    | Some v =>
        pa ← get v "A";
        if truthy pa then
          pb ← get v "B"; Some (if truthy pb then Stored v else Fresh)
        else Some Fresh
    | None => Some Fresh
    end
  else Some Fresh.

(** [loadState()] of the first revision: [JSON.parse(getItem(...))] in a
    [try]; [JSON.parse(null)] is [null]. *)
Definition loadState_unchecked (item : option (option string)) : option json :=
  match item with
  | None => None
  | Some None => Some JNull
  | Some (Some raw) => JSON_parse raw
  end.

(** Its initializer: [loadState() || { A: ..., B: ... }]. *)
Definition initial_state_unchecked (item : option (option string)) : first_state :=
  match loadState_unchecked item with
  | Some v => if truthy (Some v) then Stored v else Fresh
  | None => Fresh
  end.

End storage.

End Storage.

(** * Properties *)

(** ** The scheduler *)

Module SchedulerFacts.
Import Scheduler.

Lemma rotate1_length (t : list team) : length (rotate1 t) = length t.
Proof.
  unfold rotate1, pop. destruct (last t) as [x|] eqn:Hl; [|done].
  assert (0 < length t) by (destruct t; [done | simpl; lia]).
  rewrite length_app. simpl. rewrite length_drop, !length_take. lia.
Qed.

Lemma rotate1_lookup_0 (t : list team) :
  2 ≤ length t → rotate1 t !! 0 = t !! 0.
Proof.
  intros Hn. unfold rotate1, pop.
  destruct t as [|y [|z t]]; simpl in *; try lia.
  destruct (last (z :: t)) eqn:Hl.
  - simpl. done.
  - apply last_None in Hl. done.
Qed.

Lemma rotate1_lookup_1 (t : list team) :
  2 ≤ length t → rotate1 t !! 1 = t !! (length t - 1).
Proof.
  intros Hn. unfold rotate1, pop.
  destruct t as [|y [|z t]]; simpl in *; try lia.
  destruct (last (z :: t)) eqn:Hl.
  - simpl. rewrite last_lookup in Hl. simpl in Hl.
    replace (length t - 0) with (length t) by lia. done.
  - apply last_None in Hl. done.
Qed.

Lemma rotate1_lookup_SS (t : list team) (j : nat) :
  S (S j) < length t → rotate1 t !! S (S j) = t !! S j.
Proof.
  intros Hn. unfold rotate1, pop.
  destruct t as [|y [|z t]]; simpl in *; try lia.
  destruct (last (z :: t)) eqn:Hl.
  - simpl. replace (length t - 0) with (length t) by lia.
    destruct (length t) as [|k] eqn:Hk; [lia|].
    simpl. destruct j as [|j]; [done|]. simpl. apply lookup_take_lt. lia.
  - apply last_None in Hl. done.
Qed.

Lemma rot_length (r : nat) (t : list team) :
  length (Nat.iter r rotate1 t) = length t.
Proof. induction r as [|r IH]; simpl; [done|]. by rewrite rotate1_length. Qed.

Lemma rot_lookup (t : list team) (m r p : nat) :
  length t = S m → 1 ≤ m → r ≤ m → p ≤ m →
  Nat.iter r rotate1 t !! p = t !! src m r p.
Proof.
  intros Hlen Hm. revert p. induction r as [|r IH]; intros p Hr Hp.
  - simpl. f_equal. unfold src. repeat case_decide; lia.
  - simpl. pose proof (rot_length r t) as Hrl.
    destruct p as [|[|j]].
    + rewrite rotate1_lookup_0 by lia. rewrite IH by lia. done.
    + rewrite rotate1_lookup_1 by lia. rewrite Hrl, Hlen.
      rewrite IH by lia. f_equal. unfold src. repeat case_decide; lia.
    + rewrite rotate1_lookup_SS by lia. rewrite IH by lia.
      f_equal. unfold src. repeat case_decide; lia.
Qed.

Lemma mapM_total {A B : Type} (f : A → option B) (g : A → B) (l : list A) :
  (∀ x, x ∈ l → f x = Some (g x)) → mapM f l = Some (g <$> l).
Proof.
  intros Hf. apply mapM_Some_2. induction l as [|x l IH]; simpl.
  - constructor.
  - constructor; [apply Hf; left | apply IH; intros y Hy; apply Hf; by right].
Qed.

Lemma pair_at_emit (t : list team) (i : nat) :
  i < length t →
  pair_at t (length t) i = Some (emit t i (length t - 1 - i)).
Proof.
  intros Hi. unfold pair_at, emit.
  destruct (lookup_lt_is_Some_2 t i Hi) as [a ->].
  assert (length t - 1 - i < length t) as Hj by lia.
  destruct (lookup_lt_is_Some_2 t _ Hj) as [b ->].
  destruct a, b; done.
Qed.

Lemma emit_rot (t : list team) (m r i : nat) :
  length t = S m → 1 ≤ m → r ≤ m → i ≤ m →
  emit (Nat.iter r rotate1 t) i (m - i) = emit t (src m r i) (src m r (m - i)).
Proof.
  intros Hlen Hm Hr Hi. unfold emit.
  rewrite !(rot_lookup t m r) by lia. done.
Qed.

Lemma round_pairs_closed (t : list team) (h r : nat) :
  length t = 2 * h + 2 → r ≤ 2 * h + 1 →
  round_pairs (Nat.iter r rotate1 t) = Some (round_closed t r).
Proof.
  intros Hlen Hr. unfold round_pairs, round_closed.
  rewrite rot_length, Hlen.
  replace (2 * h + 2 - 1) with (2 * h + 1) by lia.
  replace ((2 * h + 2 + 1) / 2) with (h + 1)
    by (apply Nat.div_unique with 1; lia).
  replace ((2 * h + 1 + 1) / 2) with (h + 1)
    by (apply Nat.div_unique with 0; lia).
  erewrite (mapM_total _ (λ i, emit t (src (2 * h + 1) r i)
                                    (src (2 * h + 1) r (2 * h + 1 - i)))).
  - reflexivity.
  - intros i Hi. apply elem_of_seq in Hi.
    rewrite <- Hlen, <- (rot_length r t).
    rewrite pair_at_emit by (rewrite rot_length; lia).
    rewrite rot_length, Hlen. f_equal.
    replace (2 * h + 2 - 1 - i) with (2 * h + 1 - i) by lia.
    apply emit_rot; lia.
Qed.

Lemma rounds_loop_closed (t : list team) (h k r : nat) :
  length t = 2 * h + 2 → r + k ≤ 2 * h + 1 →
  rounds_loop k r (Nat.iter r rotate1 t) =
  Some ((λ j, Fixture (j + 1) (round_closed t j)) <$> seq r k).
Proof.
  intros Hlen. revert r. induction k as [|k IH]; intros r Hr; [done|].
  simpl. rewrite (round_pairs_closed t h) by lia. simpl.
  change (rotate1 (Nat.iter r rotate1 t)) with (Nat.iter (S r) rotate1 t).
  rewrite IH by lia. done.
Qed.

Lemma working_list_length (teams : list player) :
  length (working_list teams) = length teams + length teams mod 2.
Proof.
  unfold working_list. rewrite length_app, length_fmap.
  pose proof (Nat.mod_upper_bound (length teams) 2).
  case_decide;
    [change (length [BYE]) with 1 | change (length (@nil team)) with 0]; lia.
Qed.

Lemma working_list_even (teams : list player) :
  teams ≠ [] → ∃ h, length (working_list teams) = 2 * h + 2.
Proof.
  intros Hne. rewrite working_list_length.
  assert (0 < length teams) by (destruct teams; [done | simpl; lia]).
  exists ((length teams - 1) / 2).
  pose proof (Nat.div_mod_eq (length teams) 2).
  pose proof (Nat.div_mod_eq (length teams - 1) 2).
  pose proof (Nat.mod_upper_bound (length teams) 2).
  pose proof (Nat.mod_upper_bound (length teams - 1) 2).
  lia.
Qed.

(** The loops of [roundRobin] never read outside the array: the function
    returns, and what it returns is the closed form. *)
Lemma roundRobin_closed (teams : list player) :
  roundRobin teams = Some (schedule_closed (working_list teams)).
Proof.
  unfold roundRobin, schedule_closed.
  destruct (decide (teams = [])) as [->|Hne]; [done|].
  destruct (working_list_even teams Hne) as [h Hh].
  apply (rounds_loop_closed (working_list teams) h _ 0); lia.
Qed.

(** *** Arithmetic of the circle *)

Ltac src_lia := unfold src in *; repeat case_decide; lia.

Lemma src_le (m r p : nat) : r ≤ m → p ≤ m → src m r p ≤ m.
Proof. intros. src_lia. Qed.

Lemma src_inj (m r p q : nat) :
  r ≤ m → p ≤ m → q ≤ m → src m r p = src m r q → p = q.
Proof. intros. src_lia. Qed.

Lemma src_0 (m r : nat) : src m r 0 = 0.
Proof. done. Qed.

Lemma src_pos (m r p : nat) : r < m → 1 ≤ p ≤ m → 1 ≤ src m r p ≤ m.
Proof. intros. src_lia. Qed.

(** The two positions of a pair other than the first add up to a multiple
    of the length [m] of the circle, once the rotation is undone. *)
Lemma pair_sum (h r i : nat) :
  r ≤ 2 * h → 1 ≤ i ≤ h →
  src (2 * h + 1) r i + src (2 * h + 1) r (2 * h + 1 - i) + 2 * r
    = 2 * h + 1 ∨
  src (2 * h + 1) r i + src (2 * h + 1) r (2 * h + 1 - i) + 2 * r
    = 2 * (2 * h + 1) ∨
  src (2 * h + 1) r i + src (2 * h + 1) r (2 * h + 1 - i) + 2 * r
    = 3 * (2 * h + 1).
Proof. intros. src_lia. Qed.

(** Within a round, two pairs that share a position are the same pair. *)
Lemma slot_unique (h r i j : nat) :
  r ≤ 2 * h → i ≤ h → j ≤ h →
  src (2 * h + 1) r i = src (2 * h + 1) r j ∨
  src (2 * h + 1) r i = src (2 * h + 1) r (2 * h + 1 - j) ∨
  src (2 * h + 1) r (2 * h + 1 - i) = src (2 * h + 1) r j ∨
  src (2 * h + 1) r (2 * h + 1 - i) = src (2 * h + 1) r (2 * h + 1 - j) →
  i = j.
Proof.
  intros Hr Hi Hj [H|[H|[H|H]]]; apply src_inj in H; lia.
Qed.

Lemma slot_distinct (h r i : nat) :
  r ≤ 2 * h → i ≤ h →
  src (2 * h + 1) r i ≠ src (2 * h + 1) r (2 * h + 1 - i).
Proof. intros Hr Hi H. apply src_inj in H; lia. Qed.

(** In every round each position of the initial array sits in one of the
    [h + 1] pairs. *)
Lemma slot_of (h r u : nat) :
  r ≤ 2 * h → u ≤ 2 * h + 1 →
  ∃ i, i ≤ h ∧
    (src (2 * h + 1) r i = u ∨ src (2 * h + 1) r (2 * h + 1 - i) = u).
Proof.
  intros Hr Hu.
  set (pos := if decide (u = 0) then 0
              else if decide (u + r ≤ 2 * h + 1) then u + r
                   else u + r - (2 * h + 1)).
  assert (pos ≤ 2 * h + 1 ∧ src (2 * h + 1) r pos = u) as [Hp Hs]
    by (subst pos; src_lia).
  destruct (decide (pos ≤ h)).
  - exists pos. auto.
  - exists (2 * h + 1 - pos). split; [lia|]. right.
    by replace (2 * h + 1 - (2 * h + 1 - pos)) with pos by lia.
Qed.

(** Two pairs that oppose the same two positions are the same pair of the
    same round. *)
Lemma round_unique (h r r' i i' : nat) :
  r ≤ 2 * h → r' ≤ 2 * h → i ≤ h → i' ≤ h →
  (src (2 * h + 1) r i = src (2 * h + 1) r' i' ∧
   src (2 * h + 1) r (2 * h + 1 - i) = src (2 * h + 1) r' (2 * h + 1 - i')) ∨
  (src (2 * h + 1) r i = src (2 * h + 1) r' (2 * h + 1 - i') ∧
   src (2 * h + 1) r (2 * h + 1 - i) = src (2 * h + 1) r' i') →
  r = r' ∧ i = i'.
Proof.
  intros Hr Hr' Hi Hi' H.
  assert (r = r') as <-.
  { destruct (decide (i = 0)) as [->|Hi0], (decide (i' = 0)) as [->|Hi0'].
    - rewrite !src_0 in H. replace (2 * h + 1 - 0) with (2 * h + 1) in H by lia.
      unfold src in H. repeat case_decide; lia.
    - pose proof (src_pos (2 * h + 1) r' i').
      pose proof (src_pos (2 * h + 1) r' (2 * h + 1 - i')).
      rewrite src_0 in H. lia.
    - pose proof (src_pos (2 * h + 1) r i).
      pose proof (src_pos (2 * h + 1) r (2 * h + 1 - i)).
      rewrite src_0 in H. lia.
    - pose proof (pair_sum h r i). pose proof (pair_sum h r' i'). lia. }
  split; [done|]. apply (slot_unique h r); [done..|].
  destruct H as [[H _]|[H _]]; auto.
Qed.

(** Any two positions are opposed in some round. *)
Lemma pair_exists (h u v : nat) :
  u < v → v ≤ 2 * h + 1 →
  ∃ r i, r ≤ 2 * h ∧ i ≤ h ∧
    ((src (2 * h + 1) r i = u ∧ src (2 * h + 1) r (2 * h + 1 - i) = v) ∨
     (src (2 * h + 1) r i = v ∧ src (2 * h + 1) r (2 * h + 1 - i) = u)).
Proof.
  intros Huv Hv.
  destruct (decide (u = 0)) as [->|Hu].
  { exists (2 * h + 1 - v), 0. src_lia. }
  assert (∃ r, r ≤ 2 * h ∧
     (u + v + 2 * r = 2 * h + 1 ∨ u + v + 2 * r = 2 * (2 * h + 1) ∨
      u + v + 2 * r = 3 * (2 * h + 1))) as (r & Hr & Hsum).
  { pose proof (Nat.div_mod_eq (u + v) 2) as Hs.
    pose proof (Nat.mod_upper_bound (u + v) 2) as Hs'.
    set (q := (u + v) / 2) in *. set (e := (u + v) mod 2) in *.
    destruct (decide (e = 0)); [exists (2 * h + 1 - q); lia|].
    destruct (decide (u + v ≤ 2 * h + 1));
      [exists (h - q) | exists (3 * h + 1 - q)]; lia. }
  exists r.
  set (pu := if decide (u + r ≤ 2 * h + 1) then u + r
             else u + r - (2 * h + 1)).
  destruct (decide (pu ≤ h)); [exists pu | exists (2 * h + 1 - pu)];
    subst pu; src_lia.
Qed.

(** *** The closed form, by names *)

Lemma concat_fmap_bind {A B : Type} (f : A → list B) (l : list A) :
  concat (f <$> l) = l ≫= f.
Proof. induction l as [|x l IH]; simpl; [done|]. by f_equal. Qed.

Lemma working_list_real (teams : list player) (u : nat) (p : player) :
  working_list teams !! u = Some (Real p) ↔ teams !! u = Some p.
Proof.
  unfold working_list. destruct (decide (u < length teams)) as [Hu|Hu].
  - rewrite lookup_app_l by (by rewrite length_fmap).
    rewrite list_lookup_fmap. destruct (teams !! u); simpl; split; congruence.
  - rewrite lookup_app_r by (rewrite length_fmap; lia).
    rewrite (lookup_ge_None_2 teams u) by lia.
    case_decide; [destruct (u - length (Real <$> teams)) as [|k]|]; done.
Qed.

Lemma emit_names (teams : list player) (u v : nat) (a b : string) :
  (a, b) ∈ emit (working_list teams) u v ↔
  (name <$> teams) !! u = Some a ∧ (name <$> teams) !! v = Some b.
Proof.
  unfold emit. rewrite !list_lookup_fmap.
  destruct (working_list teams !! u) as [[p|]|] eqn:Eu;
    [apply working_list_real in Eu; rewrite Eu | |].
  - destruct (working_list teams !! v) as [[q|]|] eqn:Ev;
      [apply working_list_real in Ev; rewrite Ev | |].
    + simpl. rewrite list_elem_of_singleton. split; [by intros [= -> ->] | by intros [[= ->] [= ->]]].
    + split; [by intros ?%elem_of_nil|]. intros [_ Hv].
      destruct (teams !! v) as [q|] eqn:Eq; [|done].
      apply working_list_real in Eq. congruence.
    + split; [by intros ?%elem_of_nil|]. intros [_ Hv].
      destruct (teams !! v) as [q|] eqn:Eq; [|done].
      apply working_list_real in Eq. congruence.
  - split; [by intros ?%elem_of_nil|]. intros [Hu _].
    destruct (teams !! u) as [q|] eqn:Eq; [|done].
    apply working_list_real in Eq. congruence.
  - split; [by intros ?%elem_of_nil|]. intros [Hu _].
    destruct (teams !! u) as [q|] eqn:Eq; [|done].
    apply working_list_real in Eq. congruence.
Qed.

Lemma emit_short (t : list team) (u v : nat) : length (emit t u v) ≤ 1.
Proof. unfold emit. repeat case_match; simpl; lia. Qed.

Lemma emit_NoDup (t : list team) (u v : nat) : NoDup (emit t u v).
Proof.
  unfold emit. repeat case_match; try apply NoDup_nil_2. apply NoDup_singleton.
Qed.

Lemma elem_of_pair {A : Type} (c a b : A) : c ∈ [a; b] ↔ c = a ∨ c = b.
Proof. rewrite elem_of_cons, list_elem_of_singleton. done. Qed.

Lemma bind_length_const {A B : Type} (f : A → list B) (l : list A) (c : nat) :
  (∀ x, x ∈ l → length (f x) = c) → length (l ≫= f) = c * length l.
Proof.
  induction l as [|x l IH]; intros Hf; [simpl; lia|].
  rewrite bind_cons, length_app, Hf by left. rewrite IH; [simpl; lia|].
  intros y Hy. apply Hf. by right.
Qed.

Lemma bind_length_but_one {A B : Type} `{EqDecision A}
    (f : A → list B) (l : list A) (x0 : A) :
  NoDup l → x0 ∈ l →
  f x0 = [] → (∀ x, x ∈ l → x ≠ x0 → length (f x) = 1) →
  length (l ≫= f) = length l - 1.
Proof.
  intros Hnd Hin H0 H1. induction Hnd as [|x l Hx Hnd IH].
  { by apply elem_of_nil in Hin. }
  rewrite bind_cons, length_app. destruct (decide (x = x0)) as [->|Hne].
  - rewrite H0. simpl. rewrite (bind_length_const f l 1); [lia|].
    intros y Hy. apply H1; [by right|]. intros ->. done.
  - rewrite H1; [|by left|done]. apply elem_of_cons in Hin as [->|Hin]; [done|].
    rewrite IH; [|done|].
    + assert (0 < length l)
        by (destruct l; [by apply elem_of_nil in Hin | simpl; lia]).
      simpl. lia.
    + intros y Hy. apply H1. by right.
Qed.

Lemma filter_none {A : Type} (P : A → Prop) `{∀ x, Decision (P x)}
    (l : list A) :
  (∀ x, x ∈ l → ¬ P x) → filter P l = [].
Proof.
  induction l as [|x l IH]; intros Hl; [done|].
  rewrite filter_cons_False by (apply Hl; left).
  apply IH. intros y Hy. apply Hl. by right.
Qed.

Lemma filter_length_unique {A : Type} (P : A → Prop) `{∀ x, Decision (P x)}
    (l : list A) (x : A) :
  NoDup l → x ∈ l → P x → (∀ y, y ∈ l → P y → y = x) →
  length (filter P l) = 1.
Proof.
  intros Hnd Hin HP Hu. induction Hnd as [|y l Hy Hnd IH].
  { by apply elem_of_nil in Hin. }
  destruct (decide (P y)) as [HPy|HPy].
  - assert (y = x) as -> by (apply Hu; [by left | done]).
    rewrite filter_cons_True by done. rewrite filter_none; [done|].
    intros z Hz HPz.
    assert (z = x) as -> by (apply Hu; [by right | done]). done.
  - apply elem_of_cons in Hin as [->|Hin]; [done|].
    rewrite filter_cons_False by done.
    apply IH; [done|]. intros z Hz. apply Hu. by right.
Qed.

Section circle.
Context (teams : list player) (h : nat).
Hypothesis Hlen : length (working_list teams) = 2 * h + 2.
Hypothesis Hnd : NoDup (name <$> teams).

Local Abbreviation t := (working_list teams).
Local Abbreviation ns := (name <$> teams).
Local Abbreviation m := (2 * h + 1).

Lemma name_index_le (u : nat) (a : string) : ns !! u = Some a → u ≤ m.
Proof.
  intros Hu%lookup_lt_Some. rewrite length_fmap in Hu.
  rewrite working_list_length in Hlen. lia.
Qed.

Lemma round_closed_bind (r : nat) :
  round_closed t r =
  seq 0 (h + 1) ≫= (λ i, emit t (src m r i) (src m r (m - i))).
Proof.
  unfold round_closed. rewrite concat_fmap_bind, Hlen.
  replace (2 * h + 2 - 1) with m by lia.
  by replace ((m + 1) / 2) with (h + 1) by (apply Nat.div_unique with 0; lia).
Qed.

Lemma in_round (a b : string) (r : nat) :
  (a, b) ∈ round_closed t r ↔
  ∃ i, i ≤ h ∧ ns !! src m r i = Some a ∧ ns !! src m r (m - i) = Some b.
Proof.
  rewrite round_closed_bind, list_elem_of_bind. split.
  - intros (i & Hi & Hs). apply elem_of_seq in Hs. apply emit_names in Hi.
    exists i. split; [lia | done].
  - intros (i & Hi & Hab). exists i. split; [by apply emit_names|].
    apply elem_of_seq. lia.
Qed.

Lemma round_irrefl (a b : string) (r : nat) :
  r ≤ 2 * h → (a, b) ∈ round_closed t r → a ≠ b.
Proof.
  intros Hr (i & Hi & Ha & Hb)%in_round ->.
  by apply (slot_distinct h r i); [..| apply (NoDup_lookup ns _ _ b)].
Qed.

(** Two pairings of one round that share a name are the same pairing. *)
Lemma round_share (a b a' b' : string) (r : nat) :
  r ≤ 2 * h →
  (a, b) ∈ round_closed t r → (a', b') ∈ round_closed t r →
  a = a' ∨ a = b' ∨ b = a' ∨ b = b' →
  a = a' ∧ b = b'.
Proof.
  intros Hr (i & Hi & Ha & Hb)%in_round (j & Hj & Ha' & Hb')%in_round Hsh.
  assert (i = j) as <-.
  { apply (slot_unique h r); [done..|].
    destruct Hsh as [-> | [-> | [-> | ->]]];
      [left | right; left | do 2 right; left | do 3 right];
      by eapply (NoDup_lookup ns). }
  split; congruence.
Qed.

Lemma round_NoDup (r : nat) : r ≤ 2 * h → NoDup (round_closed t r).
Proof.
  intros Hr. rewrite round_closed_bind. apply NoDup_bind.
  - intros i j [a b] Hi Hj Ha Hb.
    apply elem_of_seq in Hi. apply elem_of_seq in Hj.
    apply emit_names in Ha as [Ha _]. apply emit_names in Hb as [Hb _].
    apply (slot_unique h r); [lia..|]. left. by eapply (NoDup_lookup ns).
  - intros i _. apply emit_NoDup.
  - apply NoDup_seq.
Qed.

(** Every round is a matching: no name occurs twice among its pairings. *)
Lemma round_matching (r : nat) :
  r ≤ 2 * h → NoDup (round_closed t r ≫= (λ p : pairing, [p.1; p.2])).
Proof.
  intros Hr. apply NoDup_bind.
  - intros [a b] [a' b'] c Hp Hq Hc Hc'. simpl in *.
    apply elem_of_pair in Hc as Hc1. apply elem_of_pair in Hc' as Hc2.
    destruct (round_share a b a' b' r Hr Hp Hq) as [-> ->]; [|done].
    destruct Hc1, Hc2; subst; auto.
  - intros [a b] Hp. simpl. apply NoDup_cons. split; [|apply NoDup_singleton].
    rewrite list_elem_of_singleton. by apply (round_irrefl a b r).
  - by apply round_NoDup.
Qed.

(** A pair of names meets in one round only, whatever its orientation. *)
Lemma rounds_disjoint (a b : string) (r r' : nat) :
  r ≤ 2 * h → r' ≤ 2 * h →
  (a, b) ∈ round_closed t r →
  (a, b) ∈ round_closed t r' ∨ (b, a) ∈ round_closed t r' →
  r = r'.
Proof.
  intros Hr Hr' (i & Hi & Ha & Hb)%in_round
    [(j & Hj & Ha' & Hb')%in_round|(j & Hj & Hb' & Ha')%in_round].
  - apply (round_unique h r r' i j); [done..|]. left.
    split; by eapply (NoDup_lookup ns).
  - apply (round_unique h r r' i j); [done..|]. right.
    split; by eapply (NoDup_lookup ns).
Qed.

(** Any two distinct competitors meet in some round. *)
Lemma meet_exists (a b : string) :
  a ∈ ns → b ∈ ns → a ≠ b →
  ∃ r, r ≤ 2 * h ∧ ((a, b) ∈ round_closed t r ∨ (b, a) ∈ round_closed t r).
Proof.
  intros [u Hu]%list_elem_of_lookup [v Hv]%list_elem_of_lookup Hab.
  pose proof (name_index_le u a Hu). pose proof (name_index_le v b Hv).
  assert (u ≠ v) by congruence.
  destruct (decide (u < v)).
  - destruct (pair_exists h u v) as (r & i & Hr & Hi & [[<- <-]|[<- <-]]);
      [lia..| |]; exists r; (split; [done|]);
      [left | right]; apply in_round; eauto.
  - destruct (pair_exists h v u) as (r & i & Hr & Hi & [[<- <-]|[<- <-]]);
      [lia..| |]; exists r; (split; [done|]);
      [right | left]; apply in_round; eauto.
Qed.

Lemma emit_one (u v : nat) :
  u < length teams → v < length teams → length (emit t u v) = 1.
Proof.
  intros Hu Hv. unfold emit.
  destruct (lookup_lt_is_Some_2 teams u Hu) as [p Hp].
  destruct (lookup_lt_is_Some_2 teams v Hv) as [q Hq].
  apply working_list_real in Hp. apply working_list_real in Hq.
  by rewrite Hp, Hq.
Qed.

Lemma emit_none (u v : nat) :
  length teams ≤ u ∨ length teams ≤ v → emit t u v = [].
Proof.
  intros Huv. unfold emit.
  destruct (t !! u) as [[p|]|] eqn:Eu; [|done..].
  destruct (t !! v) as [[q|]|] eqn:Ev; [|done..].
  apply working_list_real, lookup_lt_Some in Eu.
  apply working_list_real, lookup_lt_Some in Ev. lia.
Qed.

(** An even group: every round has [N / 2] pairings. *)
Lemma round_length_even (r : nat) :
  length teams = 2 * h + 2 → r ≤ 2 * h →
  length (round_closed t r) = h + 1.
Proof.
  intros HN Hr. rewrite round_closed_bind.
  rewrite (bind_length_const _ _ 1); [rewrite length_seq; lia|].
  intros i Hi%elem_of_seq.
  pose proof (src_le m r i). pose proof (src_le m r (m - i)).
  apply emit_one; lia.
Qed.

(** An odd group: the pair of the bye is dropped, [(N - 1) / 2] remain. *)
Lemma round_length_odd (r : nat) :
  length teams = 2 * h + 1 → r ≤ 2 * h →
  length (round_closed t r) = h.
Proof.
  intros HN Hr. rewrite round_closed_bind.
  destruct (slot_of h r m) as (i0 & Hi0 & Hs0); [lia..|].
  rewrite (bind_length_but_one _ _ i0).
  - rewrite length_seq. lia.
  - apply NoDup_seq.
  - apply elem_of_seq. lia.
  - apply emit_none. lia.
  - intros i Hi%elem_of_seq Hne.
    pose proof (src_le m r i). pose proof (src_le m r (m - i)).
    apply emit_one.
    + enough (src m r i ≠ m) by lia. intros E. apply Hne.
      apply (slot_unique h r); [lia..|].
      destruct Hs0 as [Hs0|Hs0]; [left | right; left]; congruence.
    + enough (src m r (m - i) ≠ m) by lia. intros E. apply Hne.
      apply (slot_unique h r); [lia..|].
      destruct Hs0 as [Hs0|Hs0]; [do 2 right; left | do 3 right]; congruence.
Qed.

Lemma schedule_lookup (r : nat) (f : fixture) :
  schedule_closed t !! r = Some f ↔
  r ≤ 2 * h ∧ f = Fixture (r + 1) (round_closed t r).
Proof.
  unfold schedule_closed. rewrite Hlen, list_lookup_fmap.
  destruct (decide (r ≤ 2 * h)) as [Hr|Hr].
  - rewrite lookup_seq_lt by lia. simpl.
    split; [by intros [= <-] | by intros [_ ->]].
  - rewrite lookup_seq_ge by lia. simpl. split; [done | by intros [? _]].
Qed.

Lemma schedule_length : length (schedule_closed t) = m.
Proof.
  unfold schedule_closed. rewrite length_fmap, length_seq, Hlen. lia.
Qed.

Lemma all_pairings_closed :
  all_pairings (schedule_closed t) = seq 0 m ≫= round_closed t.
Proof.
  unfold all_pairings, schedule_closed. rewrite <- list_fmap_compose.
  rewrite Hlen. replace (2 * h + 2 - 1) with m by lia.
  apply concat_fmap_bind.
Qed.

Lemma in_all_pairings (p : pairing) :
  p ∈ all_pairings (schedule_closed t) ↔
  ∃ r, r ≤ 2 * h ∧ p ∈ round_closed t r.
Proof.
  rewrite all_pairings_closed, list_elem_of_bind.
  split; intros (r & H1 & H2); exists r.
  - apply elem_of_seq in H2. split; [lia | done].
  - split; [done|]. apply elem_of_seq. lia.
Qed.

Lemma all_pairings_NoDup : NoDup (all_pairings (schedule_closed t)).
Proof.
  rewrite all_pairings_closed. apply NoDup_bind.
  - intros r r' [a b] Hr%elem_of_seq Hr'%elem_of_seq Hp Hq.
    apply (rounds_disjoint a b); [lia..|done|by left].
  - intros r Hr%elem_of_seq. apply round_NoDup. lia.
  - apply NoDup_seq.
Qed.

Lemma round_names_roster (a b : string) (r : nat) :
  (a, b) ∈ round_closed t r → a ∈ ns ∧ b ∈ ns.
Proof.
  intros (i & _ & Ha & Hb)%in_round.
  split; by eapply list_elem_of_lookup_2.
Qed.

(** Two distinct competitors meet exactly once in the whole schedule. *)
Lemma meetings_one (a b : string) :
  a ∈ ns → b ∈ ns → a ≠ b → meetings a b (schedule_closed t) = 1.
Proof.
  intros Ha Hb Hab. unfold meetings.
  destruct (meet_exists a b Ha Hb Hab) as (r & Hr & Hmeet).
  assert (∀ q : pairing, q ∈ all_pairings (schedule_closed t) →
            q = (a, b) ∨ q = (b, a) →
          ∀ q' : pairing, q' ∈ all_pairings (schedule_closed t) →
            q' = (a, b) ∨ q' = (b, a) → q' = q) as Huniq.
  { intros q (r1 & Hr1 & Hq)%in_all_pairings Hq2
           q' (r2 & Hr2 & Hq')%in_all_pairings Hq2'.
    assert (r1 = r2) as <-.
    { destruct Hq2 as [->| ->], Hq2' as [->| ->];
        eapply rounds_disjoint; eauto. }
    destruct Hq2 as [->| ->], Hq2' as [->| ->]; try done.
    - destruct (round_share a b b a r1) as [-> _]; auto.
    - destruct (round_share a b b a r1) as [-> _]; auto. }
  destruct Hmeet as [Hm|Hm].
  - apply (filter_length_unique _ _ (a, b)); auto using all_pairings_NoDup.
    + apply in_all_pairings. eauto.
    + intros q Hq HP. apply (Huniq (a, b)); auto.
      apply in_all_pairings. eauto.
  - apply (filter_length_unique _ _ (b, a)); auto using all_pairings_NoDup.
    + apply in_all_pairings. eauto.
    + intros q Hq HP. apply (Huniq (b, a)); auto.
      apply in_all_pairings. eauto.
Qed.

Lemma in_round_names (c : string) (r : nat) :
  c ∈ round_names (Fixture (r + 1) (round_closed t r)) ↔
  ∃ d, (c, d) ∈ round_closed t r ∨ (d, c) ∈ round_closed t r.
Proof.
  unfold round_names. simpl. rewrite concat_fmap_bind, list_elem_of_bind.
  split.
  - intros ([a b] & Hc%elem_of_pair & Hp). simpl in Hc.
    destruct Hc as [-> | ->]; eauto.
  - intros (d & [Hp|Hp]); eexists; (split; [|exact Hp]);
      apply elem_of_pair; simpl; auto.
Qed.

Lemma emit_named (u v : nat) :
  emit t u v =
  if decide (u < length teams ∧ v < length teams)
  then [named teams (u, v)] else [].
Proof.
  case_decide as Huv.
  - destruct Huv as [Hu Hv].
    destruct (lookup_lt_is_Some_2 teams u Hu) as [p Hp].
    destruct (lookup_lt_is_Some_2 teams v Hv) as [q Hq].
    unfold named, name_at. simpl. rewrite Hp, Hq. simpl.
    apply working_list_real in Hp. apply working_list_real in Hq.
    unfold emit. by rewrite Hp, Hq.
  - apply emit_none. lia.
Qed.

Lemma circle_length : length teams + length teams mod 2 - 1 = m.
Proof. rewrite working_list_length in Hlen. lia. Qed.

Lemma round_closed_positions (r : nat) :
  round_closed t r = named teams <$> round_positions (length teams) r.
Proof.
  rewrite round_closed_bind. unfold round_positions.
  rewrite circle_length.
  replace ((m + 1) / 2) with (h + 1) by lia_div.
  induction (seq 0 (h + 1)) as [|i l IH]; [done|].
  rewrite bind_cons, fmap_cons, IH, emit_named.
  case_decide as Huv.
  - by rewrite filter_cons_True.
  - by rewrite filter_cons_False.
Qed.

Lemma in_round_positions (u v r : nat) :
  (u, v) ∈ round_positions (length teams) r ↔
  ∃ i, i ≤ h ∧ u = src m r i ∧ v = src m r (m - i) ∧
       u < length teams ∧ v < length teams.
Proof.
  unfold round_positions. rewrite circle_length.
  replace ((m + 1) / 2) with (h + 1) by lia_div.
  rewrite list_elem_of_filter, list_elem_of_fmap. simpl. split.
  - intros ([Hu Hv] & i & [= -> ->] & Hi%elem_of_seq).
    exists i. repeat split; lia.
  - intros (i & Hi & -> & -> & Hu & Hv). split; [done|].
    exists i. split; [done|]. apply elem_of_seq. lia.
Qed.

(** In an odd group each position sits out exactly one round. *)
Lemma bye_round_positions (u : nat) :
  length teams = 2 * h + 1 → u < length teams →
  ∃ r0, r0 ≤ 2 * h ∧ sits_out (length teams) r0 u ∧
    ∀ r, r ≤ 2 * h → sits_out (length teams) r u → r = r0.
Proof.
  intros HN Hu.
  destruct (pair_exists h u m) as (r0 & i0 & Hr0 & Hi0 & Hpair); [lia..|].
  exists r0. split; [done|]. split.
  - intros [a b] (i & Hi & -> & -> & Ha & Hb)%in_round_positions. simpl.
    assert (src m r0 i = u ∨ src m r0 (m - i) = u → False) as Hno.
    { intros Hiu. assert (i = i0) as ->.
      { apply (slot_unique h r0); [done..|].
        destruct Hiu as [E|E], Hpair as [[E' _]|[_ E']];
          [left | right; left | do 2 right; left | do 3 right]; congruence. }
      destruct Hpair as [[_ E]|[E _]]; lia. }
    split; intros E; apply Hno; auto.
  - intros r Hr Hout. destruct (decide (r = r0)) as [|Hne]; [done|]. exfalso.
    destruct (slot_of h r u) as (i & Hi & Hs); [lia..|].
    pose proof (src_le m r i). pose proof (src_le m r (m - i)).
    assert (src m r i < length teams ∧ src m r (m - i) < length teams)
      as [Ha Hb].
    { destruct Hs as [Hs|Hs]; (split; [|]); try lia.
      - enough (src m r (m - i) ≠ m) by lia. intros E. apply Hne.
        apply (round_unique h r r0 i i0); [done..|].
        destruct Hpair as [[E1 E2]|[E1 E2]]; [left | right]; split; congruence.
      - enough (src m r i ≠ m) by lia. intros E. apply Hne.
        apply (round_unique h r r0 i i0); [done..|].
        destruct Hpair as [[E1 E2]|[E1 E2]]; [right | left]; split; congruence. }
    destruct (Hout (src m r i, src m r (m - i))) as [H1 H2].
    { apply in_round_positions. exists i. auto. }
    simpl in *. destruct Hs; auto.
Qed.

(** In an odd group each competitor sits out one round and plays in all
    the others. *)
Lemma bye_round (a : string) :
  length teams = 2 * h + 1 → a ∈ ns →
  ∃ r0, r0 ≤ 2 * h ∧
    (a ∉ round_names (Fixture (r0 + 1) (round_closed t r0))) ∧
    ∀ r, r ≤ 2 * h → r ≠ r0 →
      a ∈ round_names (Fixture (r + 1) (round_closed t r)).
Proof.
  intros HN [u Hu]%list_elem_of_lookup.
  assert (u < m) as Hum.
  { apply lookup_lt_Some in Hu. rewrite length_fmap in Hu. lia. }
  assert (∀ d, ns !! m ≠ Some d) as Hbye.
  { intros d Hd%lookup_lt_Some. rewrite length_fmap in Hd. lia. }
  destruct (pair_exists h u m) as (r0 & i0 & Hr0 & Hi0 & Hpair); [lia..|].
  exists r0. split; [done|]. split.
  - intros (d & Hd)%in_round_names.
    assert (∃ j, j ≤ h ∧
      (src m r0 j = u ∧ ns !! src m r0 (m - j) = Some d ∨
       src m r0 (m - j) = u ∧ ns !! src m r0 j = Some d)) as (j & Hj & Hjd).
    { destruct Hd as [(j & Hj & Ha & Hd)%in_round|(j & Hj & Hd & Ha)%in_round];
        exists j; (split; [done|]); [left | right];
        (split; [by eapply (NoDup_lookup ns) | done]). }
    assert (j = i0) as ->.
    { apply (slot_unique h r0); [done..|].
      destruct Hjd as [[E _]|[E _]], Hpair as [[E' _]|[_ E']];
        [left | right; left | do 2 right; left | do 3 right]; congruence. }
    destruct Hjd as [[E Hd']|[E Hd']], Hpair as [[E1 E2]|[E1 E2]];
      try (rewrite E2 in Hd'; by apply Hbye in Hd');
      try (rewrite E1 in Hd'; by apply Hbye in Hd'); lia.
  - intros r Hr Hne. apply in_round_names.
    destruct (slot_of h r u) as (i & Hi & Hs); [lia..|].
    pose proof (src_le m r i). pose proof (src_le m r (m - i)).
    destruct Hs as [Hs|Hs].
    + assert (src m r (m - i) ≠ m) as Hw.
      { intros E. apply Hne.
        apply (round_unique h r r0 i i0); [done..|].
        destruct Hpair as [[E1 E2]|[E1 E2]]; [left | right]; split; congruence. }
      destruct (lookup_lt_is_Some_2 ns (src m r (m - i))) as [d Hd].
      { rewrite length_fmap. lia. }
      exists d. left. apply in_round. exists i. rewrite Hs. auto.
    + assert (src m r i ≠ m) as Hw.
      { intros E. apply Hne.
        apply (round_unique h r r0 i i0); [done..|].
        destruct Hpair as [[E1 E2]|[E1 E2]]; [right | left]; split; congruence. }
      destruct (lookup_lt_is_Some_2 ns (src m r i)) as [d Hd].
      { rewrite length_fmap. lia. }
      exists d. right. apply in_round. exists i. rewrite Hs. auto.
Qed.

End circle.

Lemma roundRobin_shape (teams : list player) :
  teams ≠ [] →
  ∃ h, length (working_list teams) = 2 * h + 2 ∧
       (length teams = 2 * h + 2 ∧ length teams mod 2 = 0 ∨
        length teams = 2 * h + 1 ∧ length teams mod 2 = 1).
Proof.
  intros Hne. destruct (working_list_even teams Hne) as [h Hh].
  exists h. split; [done|]. rewrite working_list_length in Hh.
  pose proof (Nat.mod_upper_bound (length teams) 2). lia.
Qed.

Lemma closed_rounds_matching (teams : list player) (f : fixture) :
  NoDup (name <$> teams) →
  f ∈ schedule_closed (working_list teams) →
  NoDup (round_names f) ∧
  (∀ a b, (a, b) ∈ matches f → a ≠ b) ∧
  (∀ c, c ∈ round_names f → c ∈ name <$> teams).
Proof.
  intros Hnd. destruct (decide (teams = [])) as [->|Hne].
  { intros Hf. by apply elem_of_nil in Hf. }
  destruct (roundRobin_shape teams Hne) as (h & Hlen & _).
  intros [r Hf]%list_elem_of_lookup.
  apply (schedule_lookup teams h Hlen) in Hf as [Hr ->].
  split; [|split].
  - unfold round_names. simpl. rewrite concat_fmap_bind.
    by apply (round_matching teams h).
  - simpl. intros a b. by apply (round_irrefl teams h).
  - intros c Hc. apply in_round_names in Hc as (d & [Hp|Hp]);
      by apply (round_names_roster teams h Hlen) in Hp as [? ?].
Qed.

(** C10.  For an input list with distinct names, [roundRobin] returns a
    schedule every round of which is a matching on the roster: the names
    of its pairings, taken side by side, are pairwise distinct, so that no
    competitor occurs in two pairings of the round and no pairing opposes a
    name to itself; and every name that plays is one of the roster. *)
Theorem roundRobin_rounds_are_matchings (teams : list player) :
  NoDup (name <$> teams) →
  ∃ schedule,
    roundRobin teams = Some schedule ∧
    ∀ f, f ∈ schedule →
      NoDup (round_names f) ∧
      (∀ a b, (a, b) ∈ matches f → a ≠ b) ∧
      (∀ c, c ∈ round_names f → c ∈ name <$> teams).
Proof.
  intros Hnd. exists (schedule_closed (working_list teams)).
  split; [apply roundRobin_closed|].
  intros f Hf. by apply closed_rounds_matching.
Qed.

(** *** No schedule is shorter *)

Lemma bind_length_le {A B : Type} (f : A → list B) (l : list A) (c : nat) :
  (∀ x, x ∈ l → length (f x) ≤ c) → length (l ≫= f) ≤ c * length l.
Proof.
  induction l as [|x l IH]; intros Hf; [simpl; lia|].
  rewrite bind_cons, length_app.
  pose proof (Hf x ltac:(left)).
  assert (length (l ≫= f) ≤ c * length l)
    by (apply IH; intros y Hy; apply Hf; by right).
  simpl. lia.
Qed.

Lemma filter_ne_length (l : list string) (a : string) :
  NoDup l → a ∈ l → length (filter (λ b, b ≠ a) l) = length l - 1.
Proof.
  intros Hnd Ha. induction Hnd as [|x l Hx Hnd IH].
  { by apply elem_of_nil in Ha. }
  destruct (decide (x = a)) as [->|Hne].
  - rewrite filter_cons_False by (intros H; by apply H).
    assert (filter (λ b, b ≠ a) l = l) as ->; [|simpl; lia].
    clear IH Ha Hnd. induction l as [|y l IH]; [done|].
    rewrite filter_cons_True by (intros ->; apply Hx; left).
    f_equal. apply IH. intros Hy. apply Hx. by right.
  - apply elem_of_cons in Ha as [->|Ha]; [done|].
    rewrite filter_cons_True by done. simpl. rewrite IH by done.
    assert (0 < length l)
      by (destruct l; [by apply elem_of_nil in Ha | simpl; lia]).
    lia.
Qed.

Lemma ordered_pairs_spec (names : list string) (a b : string) :
  (a, b) ∈ ordered_pairs names ↔ a ∈ names ∧ b ∈ names ∧ a ≠ b.
Proof.
  unfold ordered_pairs. rewrite list_elem_of_bind. split.
  - intros (a' & (b' & [= -> ->] & Hb%list_elem_of_filter)%list_elem_of_fmap & Ha).
    destruct Hb as [Hne Hb]. auto.
  - intros (Ha & Hb & Hne). exists a. split; [|done].
    apply list_elem_of_fmap. exists b. split; [done|].
    apply list_elem_of_filter. auto.
Qed.

Lemma ordered_pairs_NoDup (names : list string) :
  NoDup names → NoDup (ordered_pairs names).
Proof.
  intros Hnd. apply NoDup_bind; [| |done].
  - intros a1 a2 [a b] _ _
      (b1 & [= -> ->] & _)%list_elem_of_fmap (b2 & [= ->] & _)%list_elem_of_fmap.
    done.
  - intros a _. apply NoDup_fmap; [|by apply NoDup_filter].
    by intros b1 b2 [= ->].
Qed.

Lemma ordered_pairs_length (names : list string) :
  NoDup names →
  length (ordered_pairs names) = (length names - 1) * length names.
Proof.
  intros Hnd. apply bind_length_const. intros a Ha.
  rewrite length_fmap. by apply filter_ne_length.
Qed.

Lemma round_names_length (f : fixture) :
  length (round_names f) = 2 * length (matches f).
Proof.
  unfold round_names. rewrite concat_fmap_bind.
  by apply bind_length_const.
Qed.

Lemma schedule_lower_bound (names : list string) (s : list fixture) :
  NoDup names → 2 ≤ length names →
  round_robin_schedule names s →
  length names + length names mod 2 - 1 ≤ length s.
Proof.
  intros Hnd HN [Hmatch Hmeet].
  set (k := length names / 2).
  assert (length (all_pairings s) ≤ k * length s) as Hupper.
  { unfold all_pairings. rewrite concat_fmap_bind.
    apply bind_length_le. intros f Hf.
    destruct (Hmatch f Hf) as [Hnd' Hin].
    pose proof (submseteq_length _ _ (NoDup_submseteq _ _ Hnd' Hin)) as Hle.
    rewrite round_names_length in Hle.
    subst k. apply Nat.div_le_lower_bound; lia. }
  assert ((length names - 1) * length names ≤ 2 * length (all_pairings s))
    as Hlower.
  { rewrite <- ordered_pairs_length by done.
    replace (2 * length (all_pairings s)) with
      (length (all_pairings s ++ ((λ p : pairing, (p.2, p.1)) <$> all_pairings s)))
      by (rewrite length_app, length_fmap; lia).
    apply submseteq_length, NoDup_submseteq; [by apply ordered_pairs_NoDup|].
    intros [a b] (Ha & Hb & Hne)%ordered_pairs_spec.
    destruct (Hmeet a b Ha Hb Hne) as (f & Hf & Hp).
    apply elem_of_app. unfold all_pairings. rewrite concat_fmap_bind.
    destruct Hp as [Hp|Hp].
    - left. apply list_elem_of_bind. eauto.
    - right. apply list_elem_of_fmap. exists (b, a). split; [done|].
      apply list_elem_of_bind. eauto. }
  pose proof (Nat.div_mod_eq (length names) 2) as Hdm.
  pose proof (Nat.mod_upper_bound (length names) 2) as Hmod.
  fold k in Hdm. set (e := length names mod 2) in *.
  assert (1 ≤ k) by lia.
  destruct (decide (e = 0)) as [He|He].
  - rewrite He in *. replace (length names) with (2 * k) in * by lia. nia.
  - assert (e = 1) as -> by lia.
    replace (length names) with (2 * k + 1) in * by lia. nia.
Qed.

(** C1.  For a group of N ≥ 2 competitors with distinct names,
    [roundRobin] returns a schedule of M − 1 rounds, M being N rounded up
    to even; it holds N·(N−1)/2 pairings in all, each between two distinct
    competitors of the group; and any two distinct competitors meet exactly
    once: one pairing of the whole schedule opposes them, in one round.
    M − 1 rounds is the minimum: the schedule is a round-robin schedule
    for the roster, and no round-robin schedule for it has fewer rounds. *)
Theorem roundRobin_complete (teams : list player) :
  NoDup (name <$> teams) → 2 ≤ length teams →
  ∃ schedule,
    roundRobin teams = Some schedule ∧
    length schedule = length teams + length teams mod 2 - 1 ∧
    length (all_pairings schedule) = length teams * (length teams - 1) / 2 ∧
    (∀ a b, (a, b) ∈ all_pairings schedule →
       a ∈ name <$> teams ∧ b ∈ name <$> teams ∧ a ≠ b) ∧
    (∀ a b, a ∈ name <$> teams → b ∈ name <$> teams → a ≠ b →
       meetings a b schedule = 1 ∧
       ∃ r f, schedule !! r = Some f ∧ plays a b f ∧
         ∀ r' f', schedule !! r' = Some f' → plays a b f' → r' = r) ∧
    round_robin_schedule (name <$> teams) schedule ∧
    (∀ other, round_robin_schedule (name <$> teams) other →
       length schedule ≤ length other).
Proof.
  intros Hnd HN. exists (schedule_closed (working_list teams)).
  split; [apply roundRobin_closed|].
  assert (teams ≠ []) as Hne by (intros ->; simpl in HN; lia).
  destruct (roundRobin_shape teams Hne) as (h & Hlen & Hpar).
  assert (round_robin_schedule (name <$> teams)
            (schedule_closed (working_list teams))) as Hrr.
  { split.
    - intros f Hf.
      destruct (closed_rounds_matching teams f Hnd Hf) as (? & ? & ?). done.
    - intros a b Ha Hb Hab.
      destruct (meet_exists teams h Hlen a b Ha Hb Hab) as (r & Hr & Hmeet).
      exists (Fixture (r + 1) (round_closed (working_list teams) r)).
      split; [|exact Hmeet].
      eapply list_elem_of_lookup_2. by apply (schedule_lookup teams h Hlen). }
  split; [|split; [|split; [|split; [|split; [exact Hrr|]]]]].
  - rewrite (schedule_length teams h Hlen). lia.
  - rewrite (all_pairings_closed teams h Hlen).
    destruct Hpar as [[HN' _]|[HN' _]].
    + rewrite (bind_length_const _ _ (h + 1)).
      * rewrite length_seq, HN'. apply Nat.div_unique with 0; lia.
      * intros r Hr%elem_of_seq. apply round_length_even; [done..|lia].
    + rewrite (bind_length_const _ _ h).
      * rewrite length_seq, HN'. apply Nat.div_unique with 0; lia.
      * intros r Hr%elem_of_seq. apply round_length_odd; [done..|lia].
  - intros a b (r & Hr & Hp)%(in_all_pairings teams h Hlen).
    destruct (round_names_roster teams h Hlen a b r Hp) as [Ha Hb].
    split; [done|]. split; [done|].
    by apply (round_irrefl teams h Hlen Hnd a b r).
  - intros a b Ha Hb Hab. split; [by apply (meetings_one teams h)|].
    destruct (meet_exists teams h Hlen a b Ha Hb Hab) as (r & Hr & Hmeet).
    exists r, (Fixture (r + 1) (round_closed (working_list teams) r)).
    split; [by apply (schedule_lookup teams h Hlen)|]. split; [exact Hmeet|].
    intros r' f' [Hr' ->]%(schedule_lookup teams h Hlen) Hmeet'.
    unfold plays in Hmeet'. simpl in Hmeet'.
    destruct Hmeet as [Hm|Hm].
    + symmetry. by apply (rounds_disjoint teams h Hlen Hnd a b r r').
    + symmetry. apply (rounds_disjoint teams h Hlen Hnd b a r r'); tauto.
  - intros other Hother.
    rewrite (schedule_length teams h Hlen).
    pose proof (schedule_lower_bound _ other Hnd) as Hlb.
    rewrite length_fmap in Hlb. specialize (Hlb HN Hother). lia.
Qed.

(** C8.  For an odd group of N ≥ 3 competitors [roundRobin] returns
    N = M − 1 rounds.  The pairings of a round are those of its pairs of
    positions of the input list, (N − 1)/2 of them, all between
    competitors of the group: the pair of the bye placeholder is never
    emitted.  Each competitor, taken by its position in the list, sits out
    exactly one round; and when the names are distinct, as the data model
    has them, each name is absent from the pairings of exactly one round. *)
Theorem roundRobin_bye (teams : list player) :
  length teams mod 2 = 1 → 3 ≤ length teams →
  ∃ schedule,
    roundRobin teams = Some schedule ∧
    length schedule = length teams + length teams mod 2 - 1 ∧
    (∀ r f, schedule !! r = Some f →
       matches f = named teams <$> round_positions (length teams) r ∧
       length (matches f) = (length teams - 1) / 2 ∧
       ∀ c, c ∈ round_names f → c ∈ name <$> teams) ∧
    (∀ u, u < length teams →
       ∃ r, r < length schedule ∧ sits_out (length teams) r u ∧
         ∀ r', r' < length schedule → sits_out (length teams) r' u → r' = r) ∧
    (NoDup (name <$> teams) →
     ∀ a, a ∈ name <$> teams →
       ∃ r f, schedule !! r = Some f ∧ (a ∉ round_names f) ∧
         ∀ r' f', schedule !! r' = Some f' → a ∉ round_names f' → r' = r).
Proof.
  intros Hodd HN. exists (schedule_closed (working_list teams)).
  split; [apply roundRobin_closed|].
  assert (teams ≠ []) as Hne by (intros ->; simpl in HN; lia).
  destruct (roundRobin_shape teams Hne) as (h & Hlen & Hpar).
  assert (length teams = 2 * h + 1) as HN' by lia. clear Hpar.
  rewrite (schedule_length teams h Hlen).
  split; [lia|]. split; [|split].
  - intros r f [Hr ->]%(schedule_lookup teams h Hlen). cbn [matches].
    split; [by apply (round_closed_positions teams h)|]. split.
    + rewrite (round_length_odd teams h Hlen r HN' Hr), HN'.
      apply Nat.div_unique with 0; lia.
    + intros c Hc. apply in_round_names in Hc as (d & [Hp|Hp]);
        by apply (round_names_roster teams h Hlen) in Hp as [? ?].
  - intros u Hu.
    destruct (bye_round_positions teams h Hlen u HN' Hu)
      as (r0 & Hr0 & Hout & Huniq).
    exists r0. split; [lia|]. split; [done|].
    intros r' Hr' Hout'. apply Huniq; [lia | done].
  - intros Hnd a Ha.
    destruct (bye_round teams h Hlen Hnd a HN' Ha) as (r0 & Hr0 & Hout & Hin).
    exists r0, (Fixture (r0 + 1) (round_closed (working_list teams) r0)).
    split; [by apply (schedule_lookup teams h Hlen)|]. split; [done|].
    intros r' f' [Hr' ->]%(schedule_lookup teams h Hlen) Hout'.
    destruct (decide (r' = r0)) as [|Hne']; [done|].
    destruct Hout'. by apply Hin.
Qed.

Example roundRobin_3 :
  roundRobin [Player "a" 1; Player "b" 2; Player "c" 3] =
  Some [Fixture 1 [("b", "c")]; Fixture 2 [("a", "c")]; Fixture 3 [("a", "b")]].
Proof. reflexivity. Qed.

Example roundRobin_4 :
  roundRobin [Player "a" 1; Player "b" 2; Player "c" 3; Player "d" 4] =
  Some [Fixture 1 [("a", "d"); ("b", "c")];
        Fixture 2 [("a", "c"); ("d", "b")];
        Fixture 3 [("a", "b"); ("c", "d")]].
Proof. reflexivity. Qed.

Example roundRobin_1 :
  roundRobin [Player "a" 1] = Some [Fixture 1 []].
Proof. reflexivity. Qed.

Lemma roundRobin_complete_witness :
  ∃ schedule,
    roundRobin [Player "a" 1; Player "b" 2; Player "c" 3] = Some schedule ∧
    length schedule = 3 ∧ meetings "a" "c" schedule = 1.
Proof.
  destruct (roundRobin_complete [Player "a" 1; Player "b" 2; Player "c" 3])
    as (schedule & Hs & Hlen & _ & _ & Hmeet & _).
  - compute_done.
  - simpl. lia.
  - exists schedule. split; [exact Hs|]. split; [exact Hlen|].
    apply Hmeet; compute_done.
Defined.

Lemma roundRobin_rounds_are_matchings_witness :
  ∃ schedule,
    roundRobin [Player "a" 1; Player "b" 2; Player "c" 3; Player "d" 4]
      = Some schedule ∧
    ∀ f, f ∈ schedule → NoDup (round_names f).
Proof.
  destruct (roundRobin_rounds_are_matchings
              [Player "a" 1; Player "b" 2; Player "c" 3; Player "d" 4])
    as (schedule & Hs & Hm).
  - compute_done.
  - exists schedule. split; [exact Hs|]. intros f Hf. apply (Hm f Hf).
Defined.

Lemma roundRobin_bye_witness :
  ∃ schedule,
    roundRobin [Player "a" 1; Player "b" 2; Player "c" 3] = Some schedule ∧
    ∃ r, r < length schedule ∧ sits_out 3 r 1.
Proof.
  destruct (roundRobin_bye [Player "a" 1; Player "b" 2; Player "c" 3])
    as (schedule & Hs & _ & _ & Hbye & _).
  - reflexivity.
  - simpl. lia.
  - exists schedule. split; [exact Hs|].
    destruct (Hbye 1) as (r & Hr & Hout & _); [simpl; lia|].
    exists r. split; [exact Hr | exact Hout].
Defined.

Example roundRobin_3_positions :
  round_positions 3 <$> [0; 1; 2] = [[(1, 2)]; [(0, 2)]; [(0, 1)]].
Proof. reflexivity. Qed.

End SchedulerFacts.

(** ** The seeder *)

Module SeederFacts.
Import Seeder.

Lemma snake_step_sel (g : groups) (p : player) (idx : nat) :
  snake_step g p idx =
  if snakeA idx then pushA g (rerank p idx) else pushB g (rerank p idx).
Proof.
  unfold snake_step, snakeA.
  pose proof (Nat.mod_upper_bound (idx / 2) 2).
  pose proof (Nat.mod_upper_bound idx 2).
  repeat case_bool_decide; try done; lia.
Qed.

Lemma forEach_from_pick (f : groups → player → nat → groups) (sel : nat → bool)
    (idx : nat) (l : list player) (g : groups) :
  (∀ g p i, f g p i = if sel i then pushA g (rerank p i) else pushB g (rerank p i)) →
  forEach_from f idx l g =
  Groups (A g ++ pick_from sel idx l) (B g ++ pick_from (negb ∘ sel) idx l).
Proof.
  intros Hf. revert idx g. induction l as [|p l IH]; intros idx g; simpl.
  - rewrite !app_nil_r. by destruct g.
  - rewrite IH, Hf. destruct (sel idx); simpl; by rewrite <- ?app_assoc.
Qed.

Lemma splitSnake_pick (l : list player) :
  splitSnake l = Groups (pick_from snakeA 0 l) (pick_from (negb ∘ snakeA) 0 l).
Proof.
  unfold splitSnake, forEach.
  by rewrite (forEach_from_pick _ snakeA) by apply snake_step_sel.
Qed.

Lemma splitGroups_pick (l : list player) (algo : string) :
  ∃ sel, splitGroups l algo =
           Groups (pick_from sel 0 l) (pick_from (negb ∘ sel) 0 l) ∧
         (sel = snakeA ∨ sel = halfA ((length l + 1) / 2)).
Proof.
  unfold splitGroups. case_bool_decide.
  - exists snakeA. split; [apply splitSnake_pick | by left].
  - exists (halfA ((length l + 1) / 2)). split; [|by right].
    unfold forEach. by rewrite (forEach_from_pick _ (halfA ((length l + 1) / 2))).
Qed.

Lemma elem_of_pick_from (sel : nat → bool) (idx : nat) (l : list player)
    (x : player) :
  x ∈ pick_from sel idx l ↔
  ∃ i q, l !! i = Some q ∧ sel (idx + i) = true ∧ x = rerank q (idx + i).
Proof.
  revert idx. induction l as [|p l IH]; intros idx; simpl.
  - split; [by intros ?%elem_of_nil | by intros (i & q & ? & _)].
  - rewrite elem_of_app, IH. split.
    + intros [Hx|(i & q & Hq & Hsel & ->)].
      * destruct (sel idx) eqn:E; [|by apply elem_of_nil in Hx].
        apply list_elem_of_singleton in Hx as ->.
        exists 0, p. by rewrite Nat.add_0_r.
      * exists (S i), q. by replace (idx + S i) with (S idx + i) by lia.
    + intros ([|i] & q & Hq & Hsel & ->); simpl in Hq.
      * left. injection Hq as ->. rewrite Nat.add_0_r in *. rewrite Hsel.
        by apply list_elem_of_singleton.
      * right. exists i, q. by replace (S idx + i) with (idx + S i) by lia.
Qed.

Lemma pick_from_partition (sel : nat → bool) (idx : nat) (l : list player) :
  pick_from sel idx l ++ pick_from (negb ∘ sel) idx l ≡ₚ reranked_from idx l.
Proof.
  unfold reranked_from. revert idx.
  induction l as [|p l IH]; intros idx; simpl; [done|].
  rewrite Nat.add_0_r.
  assert (imap ((λ i q, rerank q (idx + i)) ∘ S) l =
          imap (λ i q, rerank q (S idx + i)) l) as ->.
  { apply imap_ext. intros i q _. simpl. f_equal. lia. }
  rewrite <- IH. destruct (sel idx); simpl; [done|].
  by rewrite <- Permutation_middle.
Qed.

Lemma pick_from_snoc (sel : nat → bool) (idx : nat) (l : list player)
    (p : player) :
  pick_from sel idx (l ++ [p]) =
  pick_from sel idx l ++
  (if sel (idx + length l) then [rerank p (idx + length l)] else []).
Proof.
  revert idx. induction l as [|q l IH]; intros idx; simpl.
  - by rewrite Nat.add_0_r, app_nil_r.
  - rewrite IH, <- app_assoc.
    by replace (S idx + length l) with (idx + S (length l)) by lia.
Qed.

(** The snake keeps the two groups level: which of the two is ahead
    depends on the number of entries dealt, modulo 4. *)
Lemma snake_balance (l : list player) :
  length (pick_from snakeA 0 l) + length (pick_from (negb ∘ snakeA) 0 l)
    = length l ∧
  (length l mod 4 = 0 →
     length (pick_from snakeA 0 l) = length (pick_from (negb ∘ snakeA) 0 l)) ∧
  (length l mod 4 = 1 →
     length (pick_from snakeA 0 l) = length (pick_from (negb ∘ snakeA) 0 l) + 1) ∧
  (length l mod 4 = 2 →
     length (pick_from snakeA 0 l) = length (pick_from (negb ∘ snakeA) 0 l)) ∧
  (length l mod 4 = 3 →
     length (pick_from (negb ∘ snakeA) 0 l) = length (pick_from snakeA 0 l) + 1).
Proof.
  induction l as [|p l IH] using rev_ind.
  { change (length (@nil player)) with 0. cbn [pick_from length].
    change (0 mod 4) with 0. lia. }
  rewrite !pick_from_snoc, !length_app. unfold compose at 2 4 6 8 10.
  rewrite !Nat.add_0_l.
  assert (snakeA (length l) = true ↔ length l mod 4 = 0 ∨ length l mod 4 = 3)
    as Hsel.
  { unfold snakeA. rewrite bool_decide_eq_true. lia_div. }
  change (length [p]) with 1.
  destruct (snakeA (length l)); cbn [negb length].
  - assert (length l mod 4 = 0 ∨ length l mod 4 = 3) by (by apply Hsel).
    lia_div.
  - assert (¬ (length l mod 4 = 0 ∨ length l mod 4 = 3))
      by (rewrite <- Hsel; done).
    lia_div.
Qed.

Lemma half_balance (l : list player) (k : nat) :
  length (pick_from (halfA k) 0 l) = length l `min` k ∧
  length (pick_from (negb ∘ halfA k) 0 l) = length l - k.
Proof.
  induction l as [|p l IH] using rev_ind; [simpl; lia|].
  rewrite !pick_from_snoc, !length_app. unfold compose at 2.
  rewrite !Nat.add_0_l. change (length [p]) with 1.
  destruct IH as [-> ->]. unfold halfA. case_bool_decide; cbn [negb length]; lia.
Qed.

Lemma rerank_inj_idx (p q : player) (i j : nat) :
  rerank p i = rerank q j → i = j.
Proof. unfold rerank, set_rank. intros [= _ H]. lia. Qed.

Lemma pick_from_disjoint (sel : nat → bool) (l : list player) (x : player) :
  x ∈ pick_from sel 0 l → x ∉ pick_from (negb ∘ sel) 0 l.
Proof.
  intros (i & q & _ & Hi & ->)%elem_of_pick_from
         (j & q' & _ & Hj & E)%elem_of_pick_from.
  apply rerank_inj_idx in E. simpl in *. subst j. unfold compose in Hj.
  rewrite Hi in Hj. done.
Qed.

Lemma pick_from_names_disjoint (sel : nat → bool) (l : list player)
    (x y : player) :
  NoDup (name <$> l) →
  x ∈ pick_from sel 0 l → y ∈ pick_from (negb ∘ sel) 0 l → name x ≠ name y.
Proof.
  intros Hnd (i & q & Hq & Hi & ->)%elem_of_pick_from
             (j & q' & Hq' & Hj & ->)%elem_of_pick_from E.
  simpl in *. unfold compose in Hj.
  assert (i = j) as ->.
  { apply (NoDup_lookup (name <$> l) i j (name q) Hnd);
      rewrite list_lookup_fmap; [by rewrite Hq | by rewrite Hq', E]. }
  rewrite Hi in Hj. done.
Qed.

(** C4.  Whatever the master ranking and the algorithm chosen (the snake
    for ["had"], the split in halves otherwise), the two groups are a
    partition of the ranking: together they hold each competitor of the
    ranking once, with the rank set to the 1-based position, no entry is
    in both groups, and no name is when the names of the ranking are
    distinct; and the sizes of the two groups differ by at most one. *)
Theorem split_is_balanced_partition (list : list player) (algo : string) :
  let g := splitGroups list algo in
  splitGroups list "had" = splitSnake list ∧
  A g ++ B g ≡ₚ reranked_from 0 list ∧
  length (A g) + length (B g) = length list ∧
  (∀ x, x ∈ A g → x ∉ B g) ∧
  (length (A g) ≤ length (B g) + 1 ∧ length (B g) ≤ length (A g) + 1) ∧
  (∀ x, x ∈ A g ++ B g →
     ∃ idx q, list !! idx = Some q ∧
       name x = name q ∧ rank x = (Z.of_nat idx + 1)%Z) ∧
  (NoDup (name <$> list) →
     ∀ x y, x ∈ A g → y ∈ B g → name x ≠ name y).
Proof.
  split; [done|].
  destruct (splitGroups_pick list algo) as (sel & -> & Hsel). cbn [A B].
  assert (length (pick_from sel 0 list) + length (pick_from (negb ∘ sel) 0 list)
          = length list) as Hsum.
  { rewrite <- length_app, pick_from_partition.
    unfold reranked_from. by rewrite length_imap. }
  split; [apply pick_from_partition|]. split; [done|].
  split; [intros x; apply pick_from_disjoint|]. split; [|split].
  - destruct Hsel as [-> | ->].
    + destruct (snake_balance list) as (_ & H0 & H1 & H2 & H3). lia_div.
    + destruct (half_balance list ((length list + 1) / 2)) as [-> ->]. lia_div.
  - intros x [Hx|Hx]%elem_of_app;
      apply elem_of_pick_from in Hx as (i & q & Hq & _ & ->);
      exists i, q; done.
  - intros Hnd x y. by apply pick_from_names_disjoint.
Qed.

(** C5.  The snake deals the ranking by consecutive pairs of positions
    [2k] and [2k + 1]: when the pair index [k] is even the lower position
    goes to group A and the higher to group B, when it is odd the lower
    goes to group B and the higher to group A.  Each position that exists
    is dealt by this rule, so a pair cut short by an odd length is too. *)
Theorem snake_assignment (list : list player) (k : nat) (q : player) :
  let g := splitSnake list in
  (list !! (2 * k) = Some q →
     if bool_decide (k mod 2 = 0)
     then rerank q (2 * k) ∈ A g ∧ rerank q (2 * k) ∉ B g
     else rerank q (2 * k) ∈ B g ∧ rerank q (2 * k) ∉ A g) ∧
  (list !! (2 * k + 1) = Some q →
     if bool_decide (k mod 2 = 0)
     then rerank q (2 * k + 1) ∈ B g ∧ rerank q (2 * k + 1) ∉ A g
     else rerank q (2 * k + 1) ∈ A g ∧ rerank q (2 * k + 1) ∉ B g).
Proof.
  rewrite splitSnake_pick. cbn [A B].
  assert (∀ idx, list !! idx = Some q →
    if snakeA idx
    then rerank q idx ∈ pick_from snakeA 0 list ∧
         rerank q idx ∉ pick_from (negb ∘ snakeA) 0 list
    else rerank q idx ∈ pick_from (negb ∘ snakeA) 0 list ∧
         rerank q idx ∉ pick_from snakeA 0 list) as Hpos.
  { intros idx Hq. destruct (snakeA idx) eqn:E.
    - assert (rerank q idx ∈ pick_from snakeA 0 list) as Hin
        by (apply elem_of_pick_from; exists idx, q; done).
      split; [done | by apply pick_from_disjoint].
    - assert (rerank q idx ∈ pick_from (negb ∘ snakeA) 0 list) as Hin.
      { apply elem_of_pick_from. exists idx, q. simpl. unfold compose.
        by rewrite E. }
      split; [done|]. intros Hin'. by apply pick_from_disjoint in Hin'. }
  split; intros Hq; apply Hpos in Hq; revert Hq; unfold snakeA;
    repeat case_bool_decide; try done; lia_div.
Qed.

Example splitSnake_5 :
  splitSnake [Player "a" 9; Player "b" 9; Player "c" 9; Player "d" 9; Player "e" 9] =
  Groups [Player "a" 1; Player "d" 4; Player "e" 5] [Player "b" 2; Player "c" 3].
Proof. reflexivity. Qed.

Example splitGroups_half_5 :
  splitGroups [Player "a" 9; Player "b" 9; Player "c" 9; Player "d" 9; Player "e" 9]
    "prumer" =
  Groups [Player "a" 1; Player "b" 2; Player "c" 3] [Player "d" 4; Player "e" 5].
Proof. reflexivity. Qed.

Lemma split_is_balanced_partition_witness :
  name (rerank (Player "a" 1) 0) ≠ name (rerank (Player "b" 2) 1).
Proof.
  apply (proj2 (proj2 (proj2 (proj2 (proj2 (proj2
           (split_is_balanced_partition
              [Player "a" 1; Player "b" 2; Player "c" 3] "had")))))));
    compute_done.
Defined.

Lemma snake_assignment_witness :
  rerank (Player "c" 7) 2 ∈
    B (splitSnake [Player "a" 1; Player "b" 2; Player "c" 7]) ∧
  rerank (Player "c" 7) 2 ∉
    A (splitSnake [Player "a" 1; Player "b" 2; Player "c" 7]).
Proof.
  apply (proj1 (snake_assignment
                  [Player "a" 1; Player "b" 2; Player "c" 7] 1 (Player "c" 7))).
  reflexivity.
Defined.

End SeederFacts.

(** ** The standings calculator *)

Module StandingsFacts.
Import Standings.

(** *** The index of names *)

Lemma fromEntries_snoc (l : list (string * nat)) (kv : string * nat) :
  fromEntries (l ++ [kv]) = <[kv.1 := kv.2]> (fromEntries l).
Proof. unfold fromEntries. by rewrite foldl_snoc. Qed.

Lemma fromEntries_Some (l : list (string * nat)) (k : string) (v : nat) :
  fromEntries l !! k = Some v → (k, v) ∈ l.
Proof.
  induction l as [|[k' v'] l IH] using rev_ind; [done|].
  rewrite fromEntries_snoc, elem_of_app, list_elem_of_singleton. simpl.
  intros [[<- <-]|[_ H]]%lookup_insert_Some; auto.
Qed.

Lemma fromEntries_None (l : list (string * nat)) (k : string) :
  fromEntries l !! k = None ↔ k ∉ l.*1.
Proof.
  induction l as [|[k' v'] l IH] using rev_ind.
  { split; [intros _; apply not_elem_of_nil | intros _; apply lookup_empty]. }
  rewrite fromEntries_snoc, fmap_app, not_elem_of_app. simpl.
  rewrite lookup_insert_None, IH, list_elem_of_singleton.
  split; intros [? ?]; split; auto.
Qed.

Lemma fromEntries_NoDup (l : list (string * nat)) (k : string) (v : nat) :
  NoDup l.*1 → (k, v) ∈ l → fromEntries l !! k = Some v.
Proof.
  induction l as [|[k' v'] l IH] using rev_ind; [by intros _ ?%elem_of_nil|].
  rewrite fmap_app, NoDup_app, fromEntries_snoc, elem_of_app. simpl.
  intros (Hnd & Hfresh & _) [Hin|[= -> ->]%list_elem_of_singleton].
  - rewrite lookup_insert_ne; [by apply IH|].
    intros <-. apply (Hfresh k'); [|by left].
    apply list_elem_of_fmap. by exists (k', v).
  - apply lookup_insert_eq.
Qed.

Lemma index_entries (table : list row) (a : string) (i : nat) :
  (a, i) ∈ imap (λ i r, (row_name r, i)) table ↔
  (row_name <$> table) !! i = Some a.
Proof.
  rewrite list_lookup_fmap, elem_of_lookup_imap. split.
  - intros (j & r & [= -> ->] & ->). done.
  - intros (r & Hr & Ha)%fmap_Some. exists i, r. by rewrite Ha.
Qed.

Lemma index_keys (table : list row) :
  (imap (λ i r, (row_name r, i)) table).*1 = row_name <$> table.
Proof. rewrite fmap_imap. apply imap_const. Qed.

(** The index sends a name to a row of that name. *)
Lemma index_of_Some (table : list row) (a : string) (i : nat) :
  index_of table !! a = Some i → (row_name <$> table) !! i = Some a.
Proof. intros H%fromEntries_Some. by apply index_entries. Qed.

(** A name has no index exactly when no row has it. *)
Lemma index_of_None (table : list row) (a : string) :
  index_of table !! a = None ↔ a ∉ row_name <$> table.
Proof. unfold index_of. by rewrite fromEntries_None, index_keys. Qed.

(** When the names are distinct, the index of a name is its row. *)
Lemma index_of_NoDup (table : list row) (a : string) (i : nat) :
  NoDup (row_name <$> table) →
  (row_name <$> table) !! i = Some a → index_of table !! a = Some i.
Proof.
  intros Hnd Hi. apply fromEntries_NoDup; [by rewrite index_keys|].
  by apply index_entries.
Qed.

(** *** The updates *)

Lemma update_Some (table : list row) (i : nat) (f : row → row) :
  i < length table → update table (Some i) f = Some (alter f i table).
Proof.
  intros Hi. unfold update. simpl.
  by destruct (lookup_lt_is_Some_2 table i Hi) as [r ->].
Qed.

Lemma update_None (table : list row) (f : row → row) :
  update table None f = None.
Proof. done. Qed.



Ltac alter_cases table :=
  repeat case_decide; simplify_eq;
  repeat match goal with
         | |- context [table !! ?k] => destruct (table !! k) as [[]|]
         end;
  done.

Lemma credit_in_range (table : list row) (iA iB : nat) (agn bgn : Z) :
  iA < length table → iB < length table →
  ∃ t, credit table (Some iA) (Some iB) agn bgn = Some t ∧
       row_name <$> t = row_name <$> table ∧
       row_rank <$> t = row_rank <$> table ∧
       ∀ j, t !! j =
            (λ r, let r1 := if decide (iA = j) then add_GA bgn (add_GF agn r) else r in
                  let r2 := if decide (iB = j) then add_GA agn (add_GF bgn r1) else r1 in
                  if bool_decide (agn > bgn)%Z then
                    let r3 := if decide (iA = j) then incr_W r2 else r2 in
                    if decide (iB = j) then incr_L r3 else r3
                  else if bool_decide (bgn > agn)%Z then
                    let r3 := if decide (iB = j) then incr_W r2 else r2 in
                    if decide (iA = j) then incr_L r3 else r3
                  else r2) <$> table !! j.
Proof.
  intros HA HB. unfold credit.
  rewrite update_Some by done. simpl.
  rewrite update_Some by (by rewrite !length_alter). simpl.
  rewrite update_Some by (by rewrite !length_alter). simpl.
  rewrite update_Some by (by rewrite !length_alter). simpl.
  repeat case_bool_decide.
  - rewrite update_Some by (by rewrite !length_alter). simpl.
    rewrite update_Some by (by rewrite !length_alter).
    eexists. split; [done|]. split; [|split].
    + apply list_eq. intros j. rewrite !list_lookup_fmap, !list_lookup_alter.
      alter_cases table.
    + apply list_eq. intros j. rewrite !list_lookup_fmap, !list_lookup_alter.
      alter_cases table.
    + intros j. rewrite !list_lookup_alter.
      alter_cases table.
  - rewrite update_Some by (by rewrite !length_alter). simpl.
    rewrite update_Some by (by rewrite !length_alter).
    eexists. split; [done|]. split; [|split].
    + apply list_eq. intros j. rewrite !list_lookup_fmap, !list_lookup_alter.
      alter_cases table.
    + apply list_eq. intros j. rewrite !list_lookup_fmap, !list_lookup_alter.
      alter_cases table.
    + intros j. rewrite !list_lookup_alter.
      alter_cases table.
  - eexists. split; [done|]. split; [|split].
    + apply list_eq. intros j. rewrite !list_lookup_fmap, !list_lookup_alter.
      alter_cases table.
    + apply list_eq. intros j. rewrite !list_lookup_fmap, !list_lookup_alter.
      alter_cases table.
    + intros j. rewrite !list_lookup_alter.
      alter_cases table.
Qed.

Section calc_facts.
Context (Number : string → option Z).

Lemma index_of_for (table : list row) :
  index_for (index_of table) (row_name <$> table).
Proof. split; [apply index_of_Some | apply index_of_None]. Qed.

Lemma index_for_lt (index : gmap string nat) (table : list row)
    (a : string) (i : nat) :
  index_for index (row_name <$> table) → index !! a = Some i →
  i < length table.
Proof.
  intros [Hs _] Hi. apply Hs, lookup_lt_Some in Hi.
  by rewrite length_fmap in Hi.
Qed.

(** The guarded callback never throws and never touches a name or a rank. *)
Lemma step_total (index : gmap string nat) (table : list row)
    (m : option result) :
  index_for index (row_name <$> table) →
  ∃ t, step Number index table m = Some t ∧
       row_name <$> t = row_name <$> table ∧
       row_rank <$> t = row_rank <$> table.
Proof.
  intros Hidx. destruct m as [m|]; simpl; [|eauto].
  case_bool_decide as Hguard; [eauto|].
  destruct (recorded Number m) as [[agn bgn]|]; [|eauto].
  destruct (index !! res_a m) as [iA|] eqn:EA; [|destruct Hguard; auto].
  destruct (index !! res_b m) as [iB|] eqn:EB; [|destruct Hguard; auto].
  destruct (credit_in_range table iA iB agn bgn) as (t & Ht & Hn & Hr & _);
    eauto using index_for_lt.
Qed.

Lemma forEach_total (index : gmap string nat) (ms : list (option result))
    (table : list row) :
  index_for index (row_name <$> table) →
  ∃ t, forEach (step Number index) ms table = Some t ∧
       row_name <$> t = row_name <$> table ∧
       row_rank <$> t = row_rank <$> table.
Proof.
  revert table. induction ms as [|m ms IH]; intros table Hidx; simpl; [eauto|].
  destruct (step_total index table m Hidx) as (t1 & -> & Hn1 & Hr1). simpl.
  destruct (IH t1) as (t & -> & Hn & Hr); [by rewrite Hn1|].
  exists t. by rewrite Hn, Hr, Hn1, Hr1.
Qed.





Lemma forEach_app (f : list row → option result → option (list row))
    (l1 l2 : list (option result)) (table : list row) :
  forEach f (l1 ++ l2) table = forEach f l1 table ≫= forEach f l2.
Proof.
  revert table. induction l1 as [|m l1 IH]; intros table; simpl; [done|].
  destruct (f table m) as [t|]; simpl; [apply IH | done].
Qed.

(** *** Stale records *)

(** The guard: a record one of whose names has no index leaves the table
    as it is. *)
Lemma step_stale (index : gmap string nat) (table : list row) (m : result) :
  index !! res_a m = None ∨ index !! res_b m = None →
  step Number index table (Some m) = Some table.
Proof. intros H. simpl. by rewrite bool_decide_eq_true_2. Qed.

(** Without the guard such a record, once its scores are recorded, makes
    the callback throw. *)
Lemma step_unguarded_stale (index : gmap string nat) (table : list row)
    (m : result) (agn bgn : Z) :
  index !! res_a m = None ∨ index !! res_b m = None →
  recorded Number m = Some (agn, bgn) →
  step_unguarded Number index table (Some m) = None.
Proof.
  intros H Hrec. simpl. rewrite Hrec. unfold credit.
  destruct H as [-> | ->]; [done|].
  destruct (update table _ _) as [t1|]; simpl; [|done].
  by destruct (update t1 _ _) as [t2|].
Qed.



End calc_facts.

(** *** The sort *)

Lemma compareRows_le (x y : row) :
  (compareRows x y ≤ 0)%Z ↔ precedes x y.
Proof.
  unfold compareRows, or_else, precedes. repeat case_bool_decide; lia.
Qed.



Lemma precedes_total (x y : row) : precedes x y ∨ precedes y x.
Proof. unfold precedes. lia. Qed.

Lemma precedes_trans (x y z : row) : precedes x y → precedes y z → precedes x z.
Proof. unfold precedes. lia. Qed.





Lemma insert_row_perm (cmp : row → row → Z) (x : row) (l : list row) :
  insert_row cmp x l ≡ₚ x :: l.
Proof.
  induction l as [|y l IH]; simpl; [done|].
  case_bool_decide; [done|]. rewrite IH. apply Permutation_swap.
Qed.

Lemma sort_perm (cmp : row → row → Z) (l : list row) : sort cmp l ≡ₚ l.
Proof.
  induction l as [|x l IH]; simpl; [done|].
  by rewrite insert_row_perm, IH.
Qed.

Lemma insert_row_sorted (x : row) (l : list row) :
  StronglySorted precedes l →
  StronglySorted precedes (insert_row compareRows x l).
Proof.
  induction 1 as [|y l Hl IH Hy]; simpl.
  { repeat constructor. }
  case_bool_decide as Hc.
  - apply compareRows_le in Hc. constructor; [by constructor|].
    constructor; [done|].
    eapply Forall_impl; [exact Hy|]. intros z. by apply precedes_trans.
  - assert (precedes y x) as Hyx.
    { destruct (precedes_total x y) as [H|H]; [|done].
      by apply compareRows_le in H. }
    constructor; [done|].
    rewrite insert_row_perm. by constructor.
Qed.

Lemma sort_sorted (l : list row) : StronglySorted precedes (sort compareRows l).
Proof.
  induction l as [|x l IH]; simpl; [constructor | by apply insert_row_sorted].
Qed.


(** *** [calcStandings] as a whole *)

Section claims.
Context (Number : string → option Z).

Lemma initial_names (players : list player) :
  row_name <$> initial_table players = name <$> players.
Proof. unfold initial_table. by rewrite <- list_fmap_compose. Qed.

Lemma initial_ranks (players : list player) :
  row_rank <$> initial_table players = rank <$> players.
Proof. unfold initial_table. by rewrite <- list_fmap_compose. Qed.

(** The latest revision always returns: the sorted table of the rows that
    the loop leaves, which are the rows of the roster, in its order. *)
Lemma calcStandings_returns (players : list player) (rs : results) :
  ∃ t,
    calcStandings Number players rs = Some (sort compareRows (set_GD <$> t)) ∧
    row_name <$> t = name <$> players ∧
    row_rank <$> t = rank <$> players.
Proof.
  unfold calcStandings, calcStandings_with.
  destruct (forEach_total Number (index_of (initial_table players)) rs.*2
              (initial_table players) (index_of_for _)) as (t & -> & Hn & Hr).
  exists t. by rewrite Hn, Hr, initial_names, initial_ranks.
Qed.








(** The latest revision skips a stale record: the table is the one that
    the result map without the record gives, and nothing is thrown. *)
Lemma calcStandings_skips_stale (players : list player) (rs1 rs2 : results)
    (k : string) (m : result) :
  res_a m ∉ name <$> players ∨ res_b m ∉ name <$> players →
  calcStandings Number players (rs1 ++ (k, Some m) :: rs2) =
    calcStandings Number players (rs1 ++ rs2) ∧
  is_Some (calcStandings Number players (rs1 ++ (k, Some m) :: rs2)).
Proof.
  intros Hstale. split.
  - unfold calcStandings, calcStandings_with.
    rewrite !fmap_app, fmap_cons, !forEach_app. simpl.
    destruct (forEach _ rs1.*2 _) as [t|]; simpl; [|done].
    rewrite bool_decide_eq_true_2; [done|].
    rewrite !index_of_None, initial_names. done.
  - destruct (calcStandings_returns players (rs1 ++ (k, Some m) :: rs2))
      as (t & -> & _). eauto.
Qed.

(** The two earlier revisions throw on a stale record whose scores are
    recorded. *)
Lemma calcStandings_unguarded_throws (players : list player)
    (rs1 rs2 : results) (k : string) (m : result) (agn bgn : Z) :
  res_a m ∉ name <$> players ∨ res_b m ∉ name <$> players →
  recorded Number m = Some (agn, bgn) →
  calcStandings_unguarded Number players (rs1 ++ (k, Some m) :: rs2) = None.
Proof.
  intros Hstale Hrec. unfold calcStandings_unguarded, calcStandings_with.
  rewrite !fmap_app, fmap_cons, !forEach_app.
  destruct (forEach _ rs1.*2 _) as [t|]; [|done].
  cbn [mbind option_bind forEach snd].
  rewrite (step_unguarded_stale Number _ t m agn bgn); [done| |done].
  rewrite !index_of_None, initial_names. done.
Qed.

End claims.




Example calcStandings_tie_break :
  calcStandings Number_of_digits
    [Player "P" 1; Player "R" 2; Player "Q" 3; Player "S" 4]
    [("A::P__R", Some (Result "P" "R" 1 "4" "2"));
     ("A::Q__S", Some (Result "Q" "S" 1 "6" "4"))] =
  Some [Row "Q" 3 1 0 6 4 2; Row "P" 1 1 0 4 2 2;
        Row "S" 4 0 1 4 6 (-2); Row "R" 2 0 1 2 4 (-2)].
Proof. vm_compute. reflexivity. Qed.

(** C6 on the two earlier revisions.  The roster holds X alone; the result
    map holds one record, X against Z, 4:2, left from another seeding.
    Their [calcStandings] throws, where the latest revision returns the
    untouched row of X. *)
Theorem calcStandings_unguarded_stale_throws :
  calcStandings_unguarded Number_of_digits [Player "X" 1]
    [("A::X__Z", Some (Result "X" "Z" 1 "4" "2"))] = None ∧
  calcStandings Number_of_digits [Player "X" 1]
    [("A::X__Z", Some (Result "X" "Z" 1 "4" "2"))] =
  Some [Row "X" 1 0 0 0 0 0].
Proof. split; vm_compute; reflexivity. Qed.

Lemma calcStandings_skips_stale_witness :
  calcStandings Number_of_digits [Player "X" 1]
    ([] ++ ("A::X__Z", Some (Result "X" "Z" 1 "4" "2")) :: []) =
  calcStandings Number_of_digits [Player "X" 1] ([] ++ []).
Proof.
  apply (calcStandings_skips_stale Number_of_digits [Player "X" 1] [] []
           "A::X__Z" (Result "X" "Z" 1 "4" "2")).
  right. compute_done.
Defined.

End StandingsFacts.

(** ** The bracket projector *)

Module BracketFacts.
Import Standings Bracket.

Lemma top4_lookup (standings : list row) (i : nat) :
  i < 4 → top4 standings !! i = row_name <$> standings !! i.
Proof.
  intros Hi. unfold top4. by rewrite list_lookup_fmap, lookup_take_lt.
Qed.

Lemma or_label_slot (standings : list row) (i : nat) (placeholder : string) :
  i < 4 →
  or_label (top4 standings !! i) placeholder = slot standings i placeholder.
Proof.
  intros Hi. rewrite top4_lookup by done. unfold slot, or_label.
  by destruct (standings !! i).
Qed.

Lemma slot_nonempty (standings : list row) (i : nat) (placeholder : string) :
  (∀ r, r ∈ standings → row_name r ≠ "") →
  slot standings i placeholder = slot_as_stated standings i placeholder.
Proof.
  intros Hne. unfold slot, slot_as_stated.
  destruct (standings !! i) as [r|] eqn:E; [|done].
  rewrite bool_decide_eq_false_2; [done|].
  apply Hne. by eapply list_elem_of_lookup_2.
Qed.

(** C7, amended.  From any two standings tables the projector makes the
    four matchups ČF1 to ČF4 of the crossover (A1, B4), (A2, B3), (B1, A4),
    (B2, A3), never failing.  The entry for row [i] of a table is the name
    of that row, one of the first four of the table; it is the placeholder
    when the table has no row [i], and also when the name of the row is
    the empty text.  When no name is empty the bracket is exactly the one
    stated: names of the rows present, placeholders for the rows missing. *)
Theorem bracket_crossover (standingsA standingsB : list row) :
  bracket standingsA standingsB = crossover slot standingsA standingsB ∧
  length (bracket standingsA standingsB) = 4 ∧
  (∀ T i ph r, T !! i = Some r → row_name r ≠ "" → slot T i ph = row_name r) ∧
  (∀ T i ph r, T !! i = Some r → row_name r = "" → slot T i ph = ph) ∧
  (∀ T i ph, length T ≤ i → slot T i ph = ph) ∧
  ((∀ r, r ∈ standingsA ++ standingsB → row_name r ≠ "") →
   bracket standingsA standingsB =
   crossover slot_as_stated standingsA standingsB).
Proof.
  assert (bracket standingsA standingsB = crossover slot standingsA standingsB)
    as Hb.
  { unfold bracket, crossover. by rewrite !or_label_slot by lia. }
  split; [done|]. split; [done|]. split; [|split; [|split]].
  - intros T i ph r Hr Hne. unfold slot. rewrite Hr.
    by rewrite bool_decide_eq_false_2.
  - intros T i ph r Hr He. unfold slot. rewrite Hr.
    by rewrite bool_decide_eq_true_2.
  - intros T i ph Hi. unfold slot. by rewrite lookup_ge_None_2.
  - intros Hne. rewrite Hb. unfold crossover.
    rewrite !(slot_nonempty standingsA), !(slot_nonempty standingsB); [done|..];
      intros r Hr; apply Hne, elem_of_app; auto.
Qed.

(** The claim as stated fails on a table whose first row has the empty
    name: the bracket shows the placeholder 1A, not that name. *)
Lemma bracket_empty_name_counterexample :
  bracket [Row "" 1 0 0 0 0 0] [] ≠
  crossover slot_as_stated [Row "" 1 0 0 0 0 0] [].
Proof. intros H. discriminate H. Qed.

Lemma bracket_crossover_witness :
  slot [Row "X" 1 0 0 0 0 0] 0 "1A" = "X".
Proof.
  apply (proj1 (proj2 (proj2 (bracket_crossover [] [])))
           [Row "X" 1 0 0 0 0 0] 0 "1A" (Row "X" 1 0 0 0 0 0));
    [reflexivity | by intros [=]].
Defined.

Example bracket_two_finishers :
  bracket [Row "X" 1 1 0 4 2 2; Row "Y" 2 0 1 2 4 (-2)] [] =
  [ Matchup "ČF1" "X" "4B"; Matchup "ČF2" "Y" "3B";
    Matchup "ČF3" "1B" "4A"; Matchup "ČF4" "2B" "3A" ].
Proof. reflexivity. Qed.

End BracketFacts.

(** ** The import of a saved state *)

Module StateImportFacts.
Import StateImport.

Lemma field_key (fields : list (string * json)) (k : string) (v : json) :
  field fields k = Some v → k ∈ fields.*1.
Proof.
  revert v. induction fields as [|[k' w] rest IH]; intros v; [done|].
  cbn [field]. rewrite fmap_cons. cbn [fst].
  destruct (field rest k) as [u|] eqn:Eu.
  - intros _. apply elem_of_cons. right. by apply (IH u).
  - case_bool_decide as E; [|done]. intros _. rewrite E. by left.
Qed.

Lemma truthy_get_key (parsed : json) (k : string) (x : option json) :
  get parsed k = Some x → truthy x = true → has_key parsed k.
Proof.
  destruct parsed; simpl; try by intros [= <-].
  intros [= <-]. destruct (field fields k) as [v|] eqn:E; [|done].
  intros _. by eapply field_key.
Qed.

Section handler_facts.
Context (JSON_parse : string → option json).

(** The revision that tests the keys meets the import contract: what it
    accepts is the parsed object and has both group keys; an object that
    lacks one is rejected with a notice and the state stays as it was. *)
Lemma onImport_contract (text : string) (state : json) :
  (∀ parsed, onImport JSON_parse text = Accepted parsed →
     JSON_parse text = Some parsed ∧ has_key parsed "A" ∧ has_key parsed "B") ∧
  ((∀ parsed, JSON_parse text = Some parsed →
      ¬ (has_key parsed "A" ∧ has_key parsed "B")) →
   ∃ notice, onImport JSON_parse text = Rejected notice ∧
             state_after state (onImport JSON_parse text) = state).
Proof.
  assert (∀ parsed, onImport JSON_parse text = Accepted parsed →
     JSON_parse text = Some parsed ∧ has_key parsed "A" ∧ has_key parsed "B")
    as Hacc.
  { intros parsed. unfold onImport.
    destruct (JSON_parse text) as [v|]; [|done].
    destruct (get v "A") as [pa|] eqn:EA; [|done].
    destruct (truthy pa) eqn:TA; [|done].
    destruct (get v "B") as [pb|] eqn:EB; [|done].
    destruct (truthy pb) eqn:TB; [|done].
    intros [= <-]. eauto using truthy_get_key. }
  split; [done|]. intros Hno.
  destruct (onImport JSON_parse text) as [parsed|notice] eqn:E; [|eauto].
  destruct (Hacc parsed eq_refl) as (Hp & HA & HB).
  destruct (Hno parsed Hp). done.
Qed.

(** C9 on the first revision.  Its handler accepts whatever [JSON.parse]
    returns: an object without the group keys replaces the result state. *)
Theorem onImport_unchecked_accepts (text : string) (state : json) :
  JSON_parse text = Some (JObj []) →
  onImport_unchecked JSON_parse text = Accepted (JObj []) ∧
  state_after state (onImport_unchecked JSON_parse text) = JObj [] ∧
  ¬ has_key (JObj []) "A" ∧ ¬ has_key (JObj []) "B".
Proof.
  intros Hp. unfold onImport_unchecked. rewrite Hp. simpl.
  repeat split; by intros ?%elem_of_nil.
Qed.

End handler_facts.

Lemma onImport_unchecked_accepts_witness :
  onImport_unchecked (λ _, Some (JObj [])) "{}" = Accepted (JObj []) ∧
  state_after (JObj [("A", JObj []); ("B", JObj [])])
    (onImport_unchecked (λ _, Some (JObj [])) "{}") = JObj [] ∧
  ¬ has_key (JObj []) "A" ∧ ¬ has_key (JObj []) "B".
Proof.
  apply (onImport_unchecked_accepts (λ _, Some (JObj [])) "{}"). reflexivity.
Defined.

Example onImport_accepts_both_keys :
  onImport (λ _, Some (JObj [("A", JObj []); ("B", JObj [])])) "file" =
  Accepted (JObj [("A", JObj []); ("B", JObj [])]).
Proof. reflexivity. Qed.

Example onImport_rejects_one_key :
  onImport (λ _, Some (JObj [("A", JObj [])])) "file" =
  Rejected "Soubor nemá požadovaný formát.".
Proof. reflexivity. Qed.

Example onImport_rejects_null :
  onImport (λ _, Some JNull) "null" = Rejected "Soubor nelze načíst.".
Proof. reflexivity. Qed.

End StateImportFacts.

(** ** The ranking editor *)

Module RankingFacts.
Import Seeder Ranking.

Lemma splice_in_fmap {X Y : Type} (f : X → Y) (l : list X) (i : nat) (x : X) :
  f <$> splice_in l i x = splice_in (f <$> l) i (f x).
Proof. unfold splice_in. by rewrite fmap_app, fmap_cons, fmap_take, fmap_drop. Qed.

Lemma splice_in_length {X : Type} (l : list X) (i : nat) (x : X) :
  length (splice_in l i x) = S (length l).
Proof.
  unfold splice_in. rewrite length_app. cbn [length].
  rewrite length_take, length_drop. lia.
Qed.

Lemma splice_in_perm {X : Type} (l : list X) (i : nat) (x : X) :
  splice_in l i x ≡ₚ x :: l.
Proof.
  unfold splice_in. rewrite <- Permutation_middle. by rewrite take_drop.
Qed.

Lemma splice_in_lookup {X : Type} (l : list X) (i : nat) (x : X) :
  splice_in l i x !! (i `min` length l) = Some x.
Proof.
  unfold splice_in. rewrite lookup_app_r by (rewrite length_take; lia).
  rewrite length_take. by replace (_ - _) with 0 by lia.
Qed.

Lemma splice_in_delete {X : Type} (l : list X) (i : nat) (x : X) :
  delete (i `min` length l) (splice_in l i x) = l.
Proof.
  unfold splice_in.
  replace (i `min` length l) with (length (take i l))
    by (rewrite length_take; lia).
  rewrite delete_middle. apply take_drop.
Qed.

(** Putting back at its place the element that was taken out. *)
Lemma splice_in_delete_same {X : Type} (l : list X) (i : nat) (x : X) :
  l !! i = Some x → splice_in (delete i l) i x = l.
Proof.
  intros Hi. unfold splice_in. rewrite delete_take_drop.
  pose proof (lookup_lt_Some _ _ _ Hi) as Hlt.
  rewrite take_app_length' by (rewrite length_take; lia).
  rewrite drop_app_length' by (rewrite length_take; lia).
  by apply take_drop_middle.
Qed.

Lemma reorder_in_range (l : list player) (fromIndex toIndex : nat) (x : player) :
  l !! fromIndex = Some x →
  reorder l fromIndex toIndex = Some <$> splice_in (delete fromIndex l) toIndex x.
Proof.
  intros Hx. unfold reorder.
  rewrite list_lookup_fmap, Hx. cbn [fmap option_fmap option_map mjoin option_join].
  by rewrite splice_in_fmap, list_fmap_delete.
Qed.

Lemma mapM_id_Some {X : Type} (l : list X) : mapM id (Some <$> l) = Some l.
Proof. by apply mapM_fmap_Some. Qed.

Lemma mapM_id_None {X : Type} (l : list (option X)) :
  None ∈ l → mapM id l = None.
Proof.
  intros Hin. destruct (mapM id l) as [k|] eqn:E; [|done].
  apply mapM_Some_1 in E. exfalso.
  induction E as [|x y l k Hxy _ IH]; [by apply elem_of_nil in Hin|].
  apply elem_of_cons in Hin as [<-|Hin]; [done | by apply IH].
Qed.

Lemma rank_by_position_lookup (l : list player) (i : nat) :
  rank_by_position l !! i = (λ p, rerank p i) <$> l !! i.
Proof. apply list_lookup_imap. Qed.

Lemma rank_by_position_length (l : list player) :
  length (rank_by_position l) = length l.
Proof. apply length_imap. Qed.

Lemma rank_by_position_names (l : list player) :
  name <$> rank_by_position l = name <$> l.
Proof. unfold rank_by_position. rewrite fmap_imap. apply imap_const. Qed.

Lemma rank_by_position_ranked (l : list player) : ranked (rank_by_position l).
Proof.
  intros i p. rewrite rank_by_position_lookup.
  by intros (q & _ & ->)%fmap_Some.
Qed.

Lemma ranked_fixed (l : list player) : ranked l → rank_by_position l = l.
Proof.
  intros Hr. apply list_eq. intros i. rewrite rank_by_position_lookup.
  destruct (l !! i) as [[n r]|] eqn:E; [|done]. simpl.
  apply Hr in E. simpl in E. by rewrite E.
Qed.

Lemma rank_by_position_names_eq (l k : list player) :
  name <$> l = name <$> k → rank_by_position l = rank_by_position k.
Proof.
  intros Hn. apply list_eq. intros i. rewrite !rank_by_position_lookup.
  assert ((name <$> l) !! i = (name <$> k) !! i) as Hi by (by rewrite Hn).
  rewrite !list_lookup_fmap in Hi.
  destruct (l !! i) as [[n r]|], (k !! i) as [[n' r']|]; simplify_eq/=; done.
Qed.

Lemma rank_by_position_idem (l : list player) :
  rank_by_position (rank_by_position l) = rank_by_position l.
Proof. apply rank_by_position_names_eq, rank_by_position_names. Qed.

Lemma rank_in_place_Some (l : list player) :
  rank_in_place (Some <$> l) = Some (rank_by_position l).
Proof. unfold rank_in_place. by rewrite mapM_id_Some. Qed.

(** Exchanging neighbours, by taking one out and putting it back on the
    other side. *)
Lemma splice_up {X : Type} (l1 l2 : list X) (x y : X) :
  splice_in (delete (S (length l1)) (l1 ++ x :: y :: l2)) (length l1) y =
  l1 ++ y :: x :: l2.
Proof.
  unfold splice_in. induction l1 as [|z l1 IH]; [done|].
  simpl in *. by rewrite IH.
Qed.

Lemma splice_down {X : Type} (l1 l2 : list X) (x y : X) :
  splice_in (delete (length l1) (l1 ++ x :: y :: l2)) (S (length l1)) x =
  l1 ++ y :: x :: l2.
Proof.
  unfold splice_in. induction l1 as [|z l1 IH]; [done|].
  simpl in *. by rewrite IH.
Qed.

Lemma swapped_neighbours {X : Type} (l1 l2 : list X) (x y : X) :
  swapped (l1 ++ x :: y :: l2) (length l1) (S (length l1)) = l1 ++ y :: x :: l2.
Proof.
  unfold swapped.
  rewrite (lookup_app_r l1 _ (length l1)), (lookup_app_r l1 _ (S (length l1)))
    by lia.
  replace (length l1 - length l1) with 0 by lia.
  replace (S (length l1) - length l1) with 1 by lia. cbn [lookup list_lookup].
  induction l1 as [|z l1 IH]; [done|].
  simpl in *. by rewrite IH.
Qed.

Lemma split_neighbours {X : Type} (l : list X) (i : nat) :
  S i < length l →
  ∃ l1 x y l2, l = l1 ++ x :: y :: l2 ∧ length l1 = i.
Proof.
  intros Hi.
  destruct (lookup_lt_is_Some_2 l i) as [x Hx]; [lia|].
  destruct (lookup_lt_is_Some_2 l (S i)) as [y Hy]; [lia|].
  exists (take i l), x, y, (drop (S (S i)) l). split; [|rewrite length_take; lia].
  rewrite <- (take_drop_middle l i x Hx) at 1. do 2 f_equal.
  rewrite <- (take_drop_middle (drop (S i) l) 0 y).
  - rewrite drop_drop. simpl. do 2 f_equal. lia.
  - rewrite lookup_drop. by replace (S i + 0) with (S i) by lia.
Qed.

Lemma moveUp_neighbours (l1 l2 : list player) (x y : player) :
  moveUp (S (length l1)) (l1 ++ x :: y :: l2) =
  Some (rank_by_position (l1 ++ y :: x :: l2)).
Proof.
  unfold moveUp. rewrite bool_decide_eq_false_2 by lia.
  rewrite (reorder_in_range _ _ _ y).
  - replace (S (length l1) - 1) with (length l1) by lia.
    by rewrite splice_up, rank_in_place_Some.
  - rewrite lookup_app_r by lia.
    by replace (S (length l1) - length l1) with 1 by lia.
Qed.

Lemma moveDown_neighbours (l1 l2 : list player) (x y : player) :
  moveDown (length l1) (l1 ++ x :: y :: l2) =
  Some (rank_by_position (l1 ++ y :: x :: l2)).
Proof.
  unfold moveDown. rewrite bool_decide_eq_false_2
    by (rewrite length_app; cbn [length]; lia).
  rewrite (reorder_in_range _ _ _ x).
  - replace (length l1 + 1) with (S (length l1)) by lia.
    by rewrite splice_down, rank_in_place_Some.
  - rewrite lookup_app_r by lia.
    by replace (length l1 - length l1) with 0 by lia.
Qed.

Lemma swapped_perm {X : Type} (l : list X) (i : nat) :
  swapped l i (S i) ≡ₚ l.
Proof.
  destruct (decide (S i < length l)) as [Hi|Hi].
  - destruct (split_neighbours l i Hi) as (l1 & x & y & l2 & -> & <-).
    rewrite swapped_neighbours. apply Permutation_app_head, Permutation_swap.
  - unfold swapped. destruct (l !! i); [|done].
    by rewrite (lookup_ge_None_2 l (S i)) by lia.
Qed.

(** X1.  an element moved inside the array.  For [fromIndex] inside the
    array [reorder] returns an array without [undefined]: a permutation of
    the list, in which the element moved stands at [toIndex] (at the last
    position when [toIndex] is beyond), the others keeping their order. *)
Theorem reorder_moves (l : list player) (fromIndex toIndex : nat) :
  fromIndex < length l →
  ∃ out,
    reorder l fromIndex toIndex = Some <$> out ∧
    out ≡ₚ l ∧
    out !! (toIndex `min` (length l - 1)) = l !! fromIndex ∧
    delete (toIndex `min` (length l - 1)) out = delete fromIndex l.
Proof.
  intros Hlt. destruct (lookup_lt_is_Some_2 l fromIndex Hlt) as [x Hx].
  exists (splice_in (delete fromIndex l) toIndex x).
  split; [by apply reorder_in_range|].
  assert (length (delete fromIndex l) = length l - 1) as Hlen
    by (by apply length_delete).
  rewrite <- Hlen.
  split; [|split].
  - rewrite splice_in_perm. symmetry. by apply delete_Permutation.
  - by rewrite splice_in_lookup.
  - apply splice_in_delete.
Qed.

Lemma reorder_moves_witness :
  ∃ out,
    reorder [Player "a" 1; Player "b" 2; Player "c" 3] 0 2 = Some <$> out ∧
    out !! 2 = Some (Player "a" 1).
Proof.
  destruct (reorder_moves [Player "a" 1; Player "b" 2; Player "c" 3] 0 2)
    as (out & Hr & _ & Hl & _); [simpl; lia|].
  exists out. split; [exact Hr | exact Hl].
Defined.

(** X2.  the way back.  Moving the element from [toIndex] back to
    [fromIndex] gives the list that [reorder] started from. *)
Theorem reorder_back (l out : list player) (fromIndex toIndex : nat) :
  fromIndex < length l → toIndex < length l →
  reorder l fromIndex toIndex = Some <$> out →
  reorder out toIndex fromIndex = Some <$> l.
Proof.
  intros Hf Ht Hr. destruct (lookup_lt_is_Some_2 l fromIndex Hf) as [x Hx].
  rewrite (reorder_in_range _ _ _ x Hx) in Hr.
  apply (inj (fmap Some)) in Hr. subst out.
  assert (length (delete fromIndex l) = length l - 1) as Hlen
    by (by apply length_delete).
  assert (toIndex = toIndex `min` length (delete fromIndex l)) as Hmin by lia.
  assert (splice_in (delete fromIndex l) toIndex x !! toIndex = Some x) as Hl.
  { pose proof (splice_in_lookup (delete fromIndex l) toIndex x) as H.
    by rewrite <- Hmin in H. }
  assert (delete toIndex (splice_in (delete fromIndex l) toIndex x) =
          delete fromIndex l) as Hd.
  { pose proof (splice_in_delete (delete fromIndex l) toIndex x) as H.
    by rewrite <- Hmin in H. }
  by rewrite (reorder_in_range _ _ _ x Hl), Hd, splice_in_delete_same.
Qed.

Lemma reorder_back_witness :
  reorder [Player "b" 2; Player "c" 3; Player "a" 1] 2 0 =
  Some <$> [Player "a" 1; Player "b" 2; Player "c" 3].
Proof.
  apply (reorder_back [Player "a" 1; Player "b" 2; Player "c" 3]
           [Player "b" 2; Player "c" 3; Player "a" 1] 0 2);
    [simpl; lia | simpl; lia | reflexivity].
Defined.

(** X3.  an index past the end.  [reorder] then puts an [undefined] into the
    array, which is one longer; the renumbering of [moveUp] and of
    [handleDrop] throws on it.  [moveDown] tests the index and leaves the
    ranking as it is. *)
Theorem reorder_past_the_end (l : list player) (fromIndex toIndex : nat) :
  length l ≤ fromIndex →
  reorder l fromIndex toIndex = splice_in (Some <$> l) toIndex None ∧
  length (reorder l fromIndex toIndex) = S (length l) ∧
  (0 < fromIndex → moveUp fromIndex l = None) ∧
  (fromIndex ≠ toIndex → handleDrop (Some fromIndex) toIndex l = None) ∧
  moveDown fromIndex l = Some l.
Proof.
  intros Hge.
  assert (reorder l fromIndex toIndex = splice_in (Some <$> l) toIndex None)
    as Hr.
  { unfold reorder. rewrite (lookup_ge_None_2 (Some <$> l))
      by (by rewrite length_fmap).
    cbn [mjoin option_join]. f_equal.
    rewrite delete_take_drop, take_ge, drop_ge
      by (rewrite length_fmap; lia).
    apply app_nil_r. }
  assert (∀ t, rank_in_place (reorder l fromIndex t) = None) as Hthrow.
  { intros t. unfold rank_in_place. rewrite mapM_id_None; [done|].
    unfold reorder. rewrite (lookup_ge_None_2 (Some <$> l))
      by (by rewrite length_fmap).
    cbn [mjoin option_join]. unfold splice_in.
    apply elem_of_app. right. by left. }
  split; [done|]. split; [|split; [|split]].
  - by rewrite Hr, splice_in_length, length_fmap.
  - intros Hpos. unfold moveUp. by rewrite bool_decide_eq_false_2 by lia.
  - intros Hne. simpl. by rewrite bool_decide_eq_false_2.
  - unfold moveDown. by rewrite bool_decide_eq_true_2 by lia.
Qed.

Lemma reorder_past_the_end_witness :
  reorder [Player "a" 1] 1 0 = splice_in (Some <$> [Player "a" 1]) 0 None ∧
  moveUp 1 [Player "a" 1] = None.
Proof.
  destruct (reorder_past_the_end [Player "a" 1] 1 0) as (Hr & _ & Hup & _);
    [simpl; lia|].
  split; [exact Hr | apply Hup; lia].
Defined.

(** X4.  [moveUp] and [moveDown].  Inside the list each exchanges the
    competitor with the neighbour above or below and numbers the ranks by
    position; the competitors stay the same.  [moveUp] of the first and
    [moveDown] of the last leave the ranking as it is, ranks included. *)
Theorem move_exchanges_neighbours (l : list player) (idx : nat) :
  moveUp 0 l = Some l ∧
  (length l ≤ idx + 1 → moveDown idx l = Some l) ∧
  (idx + 1 < length l →
     moveDown idx l = Some (rank_by_position (swapped l idx (S idx))) ∧
     moveUp (S idx) l = Some (rank_by_position (swapped l idx (S idx))) ∧
     name <$> rank_by_position (swapped l idx (S idx)) ≡ₚ name <$> l ∧
     ranked (rank_by_position (swapped l idx (S idx)))).
Proof.
  split; [done|]. split.
  - intros Hge. unfold moveDown. by rewrite bool_decide_eq_true_2 by lia.
  - intros Hlt.
    destruct (split_neighbours l idx) as (l1 & x & y & l2 & -> & <-); [lia|].
    rewrite swapped_neighbours, moveDown_neighbours, moveUp_neighbours.
    split; [done|]. split; [done|]. split; [|apply rank_by_position_ranked].
    rewrite rank_by_position_names, !fmap_app, !fmap_cons.
    apply Permutation_app_head, Permutation_swap.
Qed.

Lemma move_exchanges_neighbours_witness :
  moveDown 0 [Player "a" 1; Player "b" 2] =
  Some (rank_by_position (swapped [Player "a" 1; Player "b" 2] 0 1)).
Proof.
  refine (proj1 (proj2 (proj2 (move_exchanges_neighbours
                  [Player "a" 1; Player "b" 2] 0)) _)).
  simpl. lia.
Defined.

(** X5.  [moveDown] undoes [moveUp].  After [moveUp(idx)] inside the list,
    [moveDown(idx - 1)] gives back the ranking, ranks numbered by
    position; and the other way round. *)
Theorem move_undone (l out : list player) (idx : nat) :
  idx + 1 < length l →
  (moveUp (S idx) l = Some out → moveDown idx out = Some (rank_by_position l)) ∧
  (moveDown idx l = Some out → moveUp (S idx) out = Some (rank_by_position l)).
Proof.
  intros Hlt.
  destruct (split_neighbours l idx) as (l1 & x & y & l2 & -> & <-); [lia|].
  rewrite moveUp_neighbours, moveDown_neighbours.
  assert (rank_by_position (l1 ++ y :: x :: l2) =
          imap (λ i p, rerank p i) l1 ++
          rerank y (length l1) :: rerank x (S (length l1)) ::
          imap (λ i p, rerank p (S (S (length l1 + i)))) l2) as Hout.
  { unfold rank_by_position. rewrite imap_app. cbn [imap]. f_equal.
    replace (length l1 + 0) with (length l1) by lia. f_equal.
    unfold compose. replace (length l1 + 1) with (S (length l1)) by lia.
    f_equal. apply imap_ext. intros i p _. simpl. f_equal. lia. }
  assert (rank_by_position (l1 ++ x :: y :: l2) =
          rank_by_position
            (imap (λ i p, rerank p i) l1 ++
             rerank x (S (length l1)) :: rerank y (length l1) ::
             imap (λ i p, rerank p (S (S (length l1 + i)))) l2)) as Hback.
  { apply rank_by_position_names_eq.
    rewrite !fmap_app, !fmap_cons, !fmap_imap. simpl.
    f_equal; [symmetry; apply imap_const|].
    do 2 f_equal. symmetry. apply imap_const. }
  rewrite Hback.
  assert (length (imap (λ i p, rerank p i) l1) = length l1) as Hl1
    by apply length_imap.
  split; intros [= <-]; rewrite Hout.
  - rewrite <- Hl1 at 1. apply moveDown_neighbours.
  - rewrite <- Hl1 at 1. apply moveUp_neighbours.
Qed.

Lemma move_undone_witness :
  moveDown 0 [Player "b" 1; Player "a" 2] =
  Some (rank_by_position [Player "a" 1; Player "b" 2]).
Proof.
  refine (proj1 (move_undone [Player "a" 1; Player "b" 2]
                   [Player "b" 1; Player "a" 2] 0 _) _).
  - simpl. lia.
  - reflexivity.
Defined.

(** *** Renumbering keeps the competitors *)

Lemma rank_in_place_reorder (l out : list player) (fromIndex toIndex : nat) :
  rank_in_place (reorder l fromIndex toIndex) = Some out →
  name <$> out ≡ₚ name <$> l ∧ ranked out.
Proof.
  destruct (decide (fromIndex < length l)) as [Hlt|Hge].
  - destruct (lookup_lt_is_Some_2 l fromIndex Hlt) as [x Hx].
    rewrite (reorder_in_range _ _ _ x Hx), rank_in_place_Some.
    intros [= <-]. split; [|apply rank_by_position_ranked].
    rewrite rank_by_position_names, splice_in_perm.
    by rewrite <- (delete_Permutation l fromIndex x Hx).
  - unfold rank_in_place. rewrite mapM_id_None; [done|].
    unfold reorder. rewrite (lookup_ge_None_2 (Some <$> l))
      by (rewrite length_fmap; lia).
    apply elem_of_app. right. by left.
Qed.

(** *** The name of a new competitor *)

Lemma numbered_inj (j k : nat) : numbered j = numbered k → j = k.
Proof.
  unfold numbered. intros H%String.app_inj%String.app_inj.
  by apply pretty_nat_inj in H.
Qed.

Lemma base_ne_numbered (k : nat) : base ≠ numbered k.
Proof.
  unfold numbered. intros H.
  assert (base +:+ "" = base +:+ (" " +:+ pretty k)) as H'
    by (rewrite <- H; reflexivity).
  apply String.app_inj in H'. discriminate H'.
Qed.

Lemma candidate_inj (j k : nat) :
  1 ≤ j → 1 ≤ k → candidate j = candidate k → j = k.
Proof.
  unfold candidate. intros Hj Hk. repeat case_bool_decide; intros Heq.
  - lia.
  - by apply base_ne_numbered in Heq.
  - symmetry in Heq. by apply base_ne_numbered in Heq.
  - by apply numbered_inj.
Qed.

(** Among the first [n + 1] candidates one is not among [n] names. *)
Lemma candidate_free (names : list string) :
  ∃ k, 1 ≤ k ≤ length names + 1 ∧ (candidate k ∉ names) ∧
       ∀ j, 1 ≤ j < k → candidate j ∈ names.
Proof.
  destruct (list_find (λ k, candidate k ∉ names) (seq 1 (length names + 1)))
    as [[i k]|] eqn:E.
  - apply list_find_Some in E as (Hi & Hk & Hbefore).
    apply lookup_seq in Hi as [-> Hi]. exists (1 + i).
    split; [lia|]. split; [done|]. intros j Hj.
    destruct (decide (candidate j ∈ names)) as [|Hn]; [done|].
    destruct (Hbefore (j - 1) j); [|lia|done].
    apply lookup_seq. lia.
  - apply list_find_None in E. exfalso.
    assert (candidate <$> seq 1 (length names + 1) ⊆+ names) as Hsub.
    { apply NoDup_submseteq.
      - apply NoDup_fmap_2_strong; [|apply NoDup_seq].
        intros j k [Hj _]%elem_of_seq [Hk _]%elem_of_seq. by apply candidate_inj.
      - intros c (k & -> & Hk)%list_elem_of_fmap.
        eapply Forall_forall in E; [|exact Hk].
        destruct (decide (candidate k ∈ names)); [done | by destruct E]. }
    apply submseteq_length in Hsub.
    rewrite length_fmap, length_seq in Hsub. lia.
Qed.

(** The loop stops at the first candidate that is free, once it has the
    turns to reach it. *)
Lemma while_includes_first (names : list string) (fuel count k : nat) :
  1 ≤ count → count ≤ k → k ≤ count + fuel →
  candidate k ∉ names → (∀ j, count ≤ j < k → candidate j ∈ names) →
  while_includes fuel names count (candidate count) = Some (candidate k).
Proof.
  revert count. induction fuel as [|fuel IH]; intros count H1 Hk Hfuel Hfree Htaken.
  - assert (k = count) as -> by lia. simpl.
    by rewrite bool_decide_eq_false_2.
  - cbn [while_includes]. case_bool_decide as Hin.
    + assert (count ≠ k) by (intros ->; done).
      assert (numbered (count + 1) = candidate (count + 1)) as ->.
      { unfold candidate. by rewrite bool_decide_eq_false_2 by lia. }
      apply IH; [lia..|done|]. intros j Hj. apply Htaken. lia.
    + destruct (decide (count = k)) as [->|Hne]; [done|].
      destruct Hin. apply Htaken. lia.
Qed.

Lemma rank_by_position_snoc (l : list player) (c : string) (r : Z) :
  rank_by_position (l ++ [Player c r]) =
  rank_by_position l ++ [Player c (Z.of_nat (length l) + 1)].
Proof.
  unfold rank_by_position. rewrite imap_app. cbn [imap]. do 3 f_equal.
  unfold rerank, set_rank. simpl. f_equal. lia.
Qed.

(** X6.  [addPlayer].  Its loop ends within as many turns as the ranking has
    competitors.  The competitor is added last, with the rank of that
    position, under the first of the names [Nový hráč], [Nový hráč 2],
    [Nový hráč 3], ... that no competitor bears, so that distinct names
    stay distinct. *)
Theorem addPlayer_fresh_name (l : list player) (fuel : nat) :
  length l ≤ fuel →
  ∃ k, 1 ≤ k ≤ length l + 1 ∧
    addPlayer fuel l =
      Some (rank_by_position l ++
              [Player (candidate k) (Z.of_nat (length l) + 1)]) ∧
    (candidate k ∉ name <$> l) ∧
    (∀ j, 1 ≤ j < k → candidate j ∈ name <$> l) ∧
    (NoDup (name <$> l) →
     NoDup (name <$> rank_by_position l ++
              [Player (candidate k) (Z.of_nat (length l) + 1)])).
Proof.
  intros Hfuel.
  destruct (candidate_free (name <$> l)) as (k & Hk & Hfree & Htaken).
  rewrite length_fmap in Hk. exists k. split; [done|].
  split; [|split; [done|split; [done|]]].
  - unfold addPlayer.
    change base with (candidate 1).
    rewrite (while_includes_first _ fuel 1 k); [|lia..|done|done].
    cbn [mbind option_bind]. by rewrite rank_by_position_snoc.
  - intros Hnd. rewrite fmap_app, rank_by_position_names. simpl.
    apply NoDup_app. split; [done|]. split; [|apply NoDup_singleton].
    intros c Hc ->%list_elem_of_singleton. done.
Qed.

Lemma addPlayer_fresh_name_witness :
  ∃ k, addPlayer 1 [Player "Nový hráč" 1] =
       Some (rank_by_position [Player "Nový hráč" 1] ++ [Player (candidate k) 2]).
Proof.
  destruct (addPlayer_fresh_name [Player "Nový hráč" 1] 1)
    as (k & _ & Hadd & _); [simpl; lia|].
  exists k. exact Hadd.
Defined.

(** X7.  what an edit keeps.  On a ranking of distinct names whose ranks are
    the positions, every edit but the renaming returns, where it returns,
    a ranking of distinct names whose ranks are the positions: [moveUp],
    [moveDown], [handleDrop], [deletePlayer] and [addPlayer]. *)
Theorem edits_keep_ranking (l : list player) :
  NoDup (name <$> l) → ranked l →
  (∀ idx out, moveUp idx l = Some out → NoDup (name <$> out) ∧ ranked out) ∧
  (∀ idx out, moveDown idx l = Some out → NoDup (name <$> out) ∧ ranked out) ∧
  (∀ d idx out, handleDrop d idx l = Some out →
     NoDup (name <$> out) ∧ ranked out) ∧
  (∀ confirmed idx,
     NoDup (name <$> deletePlayer confirmed idx l) ∧
     ranked (deletePlayer confirmed idx l) ∧
     name <$> deletePlayer true idx l = delete idx (name <$> l)) ∧
  (∀ fuel out, addPlayer fuel l = Some out →
     NoDup (name <$> out) ∧ ranked out ∧ length out = S (length l)).
Proof.
  intros Hnd Hr.
  assert (∀ f t out, rank_in_place (reorder l f t) = Some out →
            NoDup (name <$> out) ∧ ranked out) as Hre.
  { intros f t out [Hp Hro]%rank_in_place_reorder. by rewrite Hp. }
  split; [|split; [|split; [|split]]].
  - intros idx out. unfold moveUp. case_bool_decide; [by intros [= <-]|].
    apply Hre.
  - intros idx out. unfold moveDown. case_bool_decide; [by intros [= <-]|].
    apply Hre.
  - intros [d|] idx out; simpl; [|by intros [= <-]].
    case_bool_decide; [by intros [= <-]|]. apply Hre.
  - intros confirmed idx.
    assert (name <$> rank_by_position (delete idx l) = delete idx (name <$> l))
      as Hn by (by rewrite rank_by_position_names, list_fmap_delete).
    split; [|split; [|done]].
    + destruct confirmed; simpl; [|done]. rewrite Hn.
      eapply sublist_NoDup; [exact Hnd|]. apply sublist_delete.
    + destruct confirmed; simpl; [apply rank_by_position_ranked | done].
  - intros fuel out. unfold addPlayer.
    destruct (while_includes fuel (name <$> l) 1 base) as [c|] eqn:E; [|done].
    cbn [mbind option_bind]. intros [= <-].
    assert (c ∉ name <$> l) as Hc.
    { clear -E. revert E. generalize 1 at 1. generalize base.
      induction fuel as [|fuel IH]; intros cand count; simpl;
        case_bool_decide; try done; try (by intros [= <-]).
      apply IH. }
    split; [|split].
    + rewrite rank_by_position_names, fmap_app. simpl.
      apply NoDup_app. split; [done|]. split; [|apply NoDup_singleton].
      by intros c' Hc' ->%list_elem_of_singleton.
    + apply rank_by_position_ranked.
    + rewrite rank_by_position_length, length_app. simpl. lia.
Qed.

Lemma edits_keep_ranking_witness :
  NoDup (name <$> deletePlayer true 0 [Player "a" 1; Player "b" 2]).
Proof.
  refine (proj1 (proj1 (proj2 (proj2 (proj2 (edits_keep_ranking
            [Player "a" 1; Player "b" 2] _ _)))) true 0)).
  - compute_done.
  - intros [|[|i]] p; simpl; by intros [= <-].
Defined.

(** X8.  [renamePlayer].  Inside the list it changes the name at the index
    and nothing else; it takes any text, so that distinct names stay
    distinct exactly when no other competitor bears the new name.  Past
    the end it extends the array, with an entry that has a name and no
    rank. *)
Theorem renamePlayer_names (l : list player) (idx : nat) (newName : string) :
  idx < length l →
  ∃ out,
    renamePlayer idx newName l = Competitor <$> out ∧
    name <$> out = <[idx := newName]> (name <$> l) ∧
    rank <$> out = rank <$> l ∧
    (NoDup (name <$> l) →
     (NoDup (name <$> out) ↔ newName ∉ delete idx (name <$> l))) ∧
    ∀ past, length l ≤ past →
      renamePlayer past newName l =
      (Competitor <$> l) ++ replicate (past - length l) Hole
        ++ [Unranked newName].
Proof.
  intros Hlt. destruct (lookup_lt_is_Some_2 l idx Hlt) as [p Hp].
  exists (<[idx := Player newName (rank p)]> l).
  unfold renamePlayer. rewrite Hp. split; [done|].
  rewrite !list_fmap_insert. simpl. split; [done|]. split; [|split].
  - apply list_insert_id. by rewrite list_lookup_fmap, Hp.
  - intros Hnd.
    assert (<[idx := newName]> (name <$> l) ≡ₚ
            newName :: delete idx (name <$> l)) as ->.
    { rewrite insert_take_drop, delete_take_drop by (by rewrite length_fmap).
      by rewrite <- Permutation_middle. }
    rewrite NoDup_cons. split; [tauto|]. intros Hfresh. split; [done|].
    eapply sublist_NoDup; [exact Hnd|]. apply sublist_delete.
  - intros past Hpast. by rewrite (lookup_ge_None_2 l past).
Qed.

Lemma renamePlayer_names_witness :
  ∃ out,
    renamePlayer 0 "b" [Player "a" 1; Player "b" 2] = Competitor <$> out ∧
    ¬ NoDup (name <$> out).
Proof.
  destruct (renamePlayer_names [Player "a" 1; Player "b" 2] 0 "b")
    as (out & Hr & Hn & _ & Hnd & _); [simpl; lia|].
  exists out. split; [exact Hr|].
  intros H. apply Hnd in H; [|compute_done].
  apply H. simpl. apply elem_of_cons. by left.
Defined.

End RankingFacts.

(** ** The result store *)

Module ResultsFacts.
Import Scheduler Seeder Standings Results.
Import SchedulerFacts StandingsFacts.

(** *** Objects as maps *)

Lemma get_set {V : Type} (o : object V) (k k' : string) (v : V) :
  get (set o k v) k' = if bool_decide (k = k') then Some v else get o k'.
Proof.
  induction o as [|[k0 v0] o IH]; simpl.
  - by case_bool_decide.
  - destruct (decide (k0 = k)) as [->|Hne].
    + rewrite (bool_decide_eq_true_2 (k = k)) by done. simpl.
      by case_bool_decide.
    + rewrite (bool_decide_eq_false_2 (k0 = k)) by done. simpl. rewrite IH.
      destruct (decide (k0 = k')) as [->|Hne'].
      * rewrite bool_decide_eq_true_2 by done.
        by rewrite (bool_decide_eq_false_2 (k = k')) by congruence.
      * by rewrite (bool_decide_eq_false_2 (k0 = k')) by done.
Qed.

Lemma get_None {V : Type} (o : object V) (k : string) :
  get o k = None ↔ k ∉ o.*1.
Proof.
  induction o as [|[k0 v0] o IH]; simpl.
  - split; [intros _; apply not_elem_of_nil | done].
  - rewrite not_elem_of_cons. case_bool_decide as E.
    + split; [done | intros [? _]; congruence].
    + rewrite IH. split; [intros ?; split; [congruence | done] | tauto].
Qed.

Lemma get_elem_of {V : Type} (o : object V) (k : string) (v : V) :
  get o k = Some v → (k, v) ∈ o.
Proof.
  induction o as [|[k0 v0] o IH]; simpl; [done|].
  case_bool_decide as E.
  - intros [= <-]. rewrite E. by left.
  - intros H. right. by apply IH.
Qed.

Lemma get_split {V : Type} (o : object V) (k : string) (v : V) :
  get o k = Some v → ∃ o1 o2, o = o1 ++ (k, v) :: o2 ∧ k ∉ o1.*1.
Proof.
  induction o as [|[k0 v0] o IH]; simpl; [done|].
  case_bool_decide as E.
  - intros [= <-]. exists [], o. rewrite E. split; [done | apply not_elem_of_nil].
  - intros (o1 & o2 & -> & Hk)%IH. exists ((k0, v0) :: o1), o2.
    split; [done|]. simpl. apply not_elem_of_cons. auto.
Qed.

Lemma set_absent {V : Type} (o : object V) (k : string) (v : V) :
  k ∉ o.*1 → set o k v = o ++ [(k, v)].
Proof.
  induction o as [|[k0 v0] o IH]; simpl; [done|].
  intros [Hne Hk]%not_elem_of_cons.
  rewrite bool_decide_eq_false_2 by congruence. by rewrite IH.
Qed.

Lemma set_present {V : Type} (o1 o2 : object V) (k : string) (v0 v : V) :
  k ∉ o1.*1 → set (o1 ++ (k, v0) :: o2) k v = o1 ++ (k, v) :: o2.
Proof.
  induction o1 as [|[k1 v1] o1 IH]; simpl.
  - intros _. by rewrite bool_decide_eq_true_2.
  - intros [Hne Hk]%not_elem_of_cons.
    rewrite bool_decide_eq_false_2 by congruence. by rewrite IH.
Qed.

Lemma set_keys_present {V : Type} (o : object V) (k : string) (v : V) :
  k ∈ o.*1 → (set o k v).*1 = o.*1.
Proof.
  intros Hk. destruct (get o k) as [v0|] eqn:E.
  - apply get_split in E as (o1 & o2 & -> & Hfresh).
    rewrite set_present by done. by rewrite !fmap_app, !fmap_cons.
  - by apply get_None in E.
Qed.

Lemma set_elem_of {V : Type} (o : object V) (k k' : string) (v v' : V) :
  (k', v') ∈ set o k v → (k', v') ∈ o ∨ (k', v') = (k, v).
Proof.
  induction o as [|[k0 v0] o IH]; simpl.
  - intros ->%list_elem_of_singleton. by right.
  - case_bool_decide.
    + intros [->|H']%elem_of_cons; [by right|]. left. by right.
    + intros [->|H']%elem_of_cons; [left; by left|].
      destruct (IH H') as [?|?]; [left; by right | by right].
Qed.

(** *** Writing a list of entries *)

Lemma set_all_snoc {V : Type} (o es : object V) (e : string * V) :
  set_all o (es ++ [e]) = set (set_all o es) e.1 e.2.
Proof. unfold set_all. by rewrite foldl_snoc. Qed.

Lemma set_all_get {V : Type} (o es : object V) (k : string) :
  (k ∈ es.*1 → ∃ v, get (set_all o es) k = Some v ∧ (k, v) ∈ es) ∧
  (k ∉ es.*1 → get (set_all o es) k = get o k).
Proof.
  induction es as [|[k' v'] es IH] using rev_ind.
  { split; [by intros ?%elem_of_nil | done]. }
  rewrite set_all_snoc, get_set, fmap_app. simpl.
  destruct IH as [IHin IHout]. split.
  - intros Hk. case_bool_decide as E.
    + exists v'. split; [done|]. rewrite <- E. apply elem_of_app. right. by left.
    + apply elem_of_app in Hk as [Hk|Hk%list_elem_of_singleton]; [|congruence].
      destruct (IHin Hk) as (v & Hv & Hin). exists v. split; [done|].
      apply elem_of_app. by left.
  - intros [Hk Hne]%not_elem_of_app.
    rewrite bool_decide_eq_false_2; [by apply IHout|].
    intros ->. apply Hne. by left.
Qed.

Lemma set_all_elem_of {V : Type} (o es : object V) (e : string * V) :
  e ∈ set_all o es → e ∈ o ∨ e ∈ es.
Proof.
  induction es as [|[k' v'] es IH] using rev_ind; [by left|].
  rewrite set_all_snoc. destruct e as [k v]. simpl.
  intros [H| ->]%set_elem_of.
  - destruct (IH H) as [?|?]; [by left|]. right. apply elem_of_app. by left.
  - right. apply elem_of_app. right. by left.
Qed.

Lemma set_all_fresh {V : Type} (o es : object V) :
  NoDup (o.*1 ++ es.*1) → set_all o es = o ++ es.
Proof.
  induction es as [|[k' v'] es IH] using rev_ind.
  { intros _. by rewrite app_nil_r. }
  rewrite fmap_app, app_assoc, NoDup_app. simpl.
  intros (Hnd & Hfresh & _).
  rewrite set_all_snoc, IH by done. simpl.
  rewrite set_absent; [by rewrite app_assoc|].
  rewrite fmap_app. intros Hk. apply (Hfresh k'); [done | by left].
Qed.

(** *** [emptyResults] *)

Lemma emptyResults_set_all (schedule : list fixture) (group : string) :
  emptyResults schedule group = set_all [] (blank_records schedule group).
Proof.
  unfold emptyResults, set_all, blank_records. generalize (@nil (string * record)).
  induction schedule as [|f schedule IH]; intros out; [done|].
  rewrite bind_cons, foldl_app. cbn [foldl]. rewrite IH. f_equal.
  generalize out. clear. induction (matches f) as [|[a b] ms IH]; intros out; [done|].
  rewrite fmap_cons. cbn [foldl]. by rewrite IH.
Qed.

Lemma blank_records_keys (schedule : list fixture) (group : string) :
  (blank_records schedule group).*1 = identifiers schedule group.
Proof.
  unfold blank_records, identifiers, all_pairings.
  induction schedule as [|f schedule IH]; [done|].
  rewrite bind_cons, fmap_app, IH, fmap_cons. cbn [concat].
  rewrite (fmap_app _ (matches f)). f_equal.
  rewrite <- list_fmap_compose. by apply list_fmap_ext.
Qed.

Lemma elem_of_blank_records (schedule : list fixture) (group k : string)
    (rec : record) :
  (k, rec) ∈ blank_records schedule group ↔
  ∃ f a b, f ∈ schedule ∧ (a, b) ∈ matches f ∧ k = idFor group a b ∧
           rec = Complete (Result a b (round f) "" "").
Proof.
  unfold blank_records. rewrite list_elem_of_bind. split.
  - intros (f & ([a b] & [= -> ->] & Hp)%list_elem_of_fmap & Hf).
    by exists f, a, b.
  - intros (f & a & b & Hf & Hp & -> & ->). exists f. split; [|done].
    apply list_elem_of_fmap. by exists (a, b).
Qed.

Lemma emptyResults_elem_of (schedule : list fixture) (group k : string)
    (rec : record) :
  (k, rec) ∈ emptyResults schedule group →
  ∃ f a b, f ∈ schedule ∧ (a, b) ∈ matches f ∧ k = idFor group a b ∧
           rec = Complete (Result a b (round f) "" "").
Proof.
  rewrite emptyResults_set_all.
  intros [H|H]%set_all_elem_of; [by apply elem_of_nil in H|].
  by apply elem_of_blank_records.
Qed.

Lemma emptyResults_get (schedule : list fixture) (group : string)
    (f : fixture) (p : pairing) :
  f ∈ schedule → p ∈ matches f →
  ∃ m, get (emptyResults schedule group) (idFor group p.1 p.2) =
         Some (Complete m) ∧
       res_ag m = "" ∧ res_bg m = "" ∧
       idFor group (res_a m) (res_b m) = idFor group p.1 p.2.
Proof.
  intros Hf Hp. rewrite emptyResults_set_all.
  destruct (set_all_get [] (blank_records schedule group) (idFor group p.1 p.2))
    as [Hin _].
  destruct Hin as (v & Hv & Hrec).
  { rewrite blank_records_keys. unfold identifiers, all_pairings.
    apply list_elem_of_fmap. exists p. split; [done|].
    rewrite concat_fmap_bind. apply list_elem_of_bind. eauto. }
  apply elem_of_blank_records in Hrec as (f' & a & b & _ & _ & Hk & ->).
  exists (Result a b (round f') "" ""). by rewrite Hv.
Qed.

(** *** [idFor] *)

Lemma plain_split (a a' s s' : string) :
  plain a = true → plain a' = true →
  a +:+ "_" +:+ s = a' +:+ "_" +:+ s' → a = a' ∧ s = s'.
Proof.
  revert a'. induction a as [|c a IH]; intros [|c' a']; cbn [plain].
  - intros _ _ H. change (String (Ascii.ascii_of_nat 95) s = String (Ascii.ascii_of_nat 95) s') in H.
    by injection H as ->.
  - intros _ [Hc _]%andb_prop H.
    change (String (Ascii.ascii_of_nat 95) s = String c' (a' +:+ "_" +:+ s')) in H.
    injection H as <- _. apply bool_decide_eq_true in Hc. by destruct Hc.
  - intros [Hc _]%andb_prop _ H.
    change (String c (a +:+ "_" +:+ s) = String (Ascii.ascii_of_nat 95) s') in H.
    injection H as -> _. apply bool_decide_eq_true in Hc. by destruct Hc.
  - intros [_ Ha]%andb_prop [_ Ha']%andb_prop H.
    change (String c (a +:+ "_" +:+ s) = String c' (a' +:+ "_" +:+ s')) in H.
    injection H as -> H.
    destruct (IH a' Ha Ha' H) as [-> ->]. done.
Qed.

Lemma idFor_injective (group a b a' b' : string) :
  plain a = true → plain a' = true →
  idFor group a b = idFor group a' b' → a = a' ∧ b = b'.
Proof.
  intros Ha Ha'. unfold idFor. intros H%String.app_inj.
  apply String.app_inj in H.
  change (a +:+ "_" +:+ ("_" +:+ b) = a' +:+ "_" +:+ ("_" +:+ b')) in H.
  destruct (plain_split _ _ _ _ Ha Ha' H) as [-> Hb].
  by apply String.app_inj in Hb as ->.
Qed.

Lemma append_assoc (a b c : string) : (a +:+ b) +:+ c = a +:+ b +:+ c.
Proof.
  induction a as [|ch a IH]; [done|].
  change (String ch ((a +:+ b) +:+ c) = String ch (a +:+ b +:+ c)).
  by rewrite IH.
Qed.

(** X9.  the match identifier.  For names without an underscore the
    identifier of a group tells the pairing: [idFor] is one to one.  A
    name that holds two underscores can break this: the pairing of [a__b]
    with [c] has the identifier of the pairing of [a] with [b__c]. *)
Theorem idFor_one_to_one (group a b a' b' : string) :
  plain a = true → plain a' = true →
  (idFor group a b = idFor group a' b' → a = a' ∧ b = b') ∧
  ∀ c, idFor group (a +:+ "__" +:+ b) c = idFor group a (b +:+ "__" +:+ c).
Proof.
  intros Ha Ha'. split; [by apply idFor_injective|].
  intros c. unfold idFor. do 2 f_equal. by rewrite !append_assoc.
Qed.

Lemma idFor_one_to_one_witness :
  idFor "A" "x__y" "z" = idFor "A" "x" "y__z".
Proof.
  apply (proj2 (idFor_one_to_one "A" "x" "y" "x" "y" eq_refl eq_refl) "z").
Defined.

Lemma emptyResults_view (schedule : list fixture) (group : string) :
  schedule_view schedule (emptyResults schedule group) group =
  Some (blank_view schedule).
Proof.
  unfold schedule_view, blank_view. apply mapM_total. intros f Hf.
  rewrite (mapM_total _ (λ p : pairing, (p.1, Some "", Some "", p.2)));
    [done|].
  intros p Hp. unfold match_line.
  destruct (emptyResults_get schedule group f p Hf Hp)
    as (m & -> & Hag & Hbg & _).
  simpl. by rewrite Hag, Hbg.
Qed.

(** X10.  the fresh result map.  Whatever the schedule and the names,
    [emptyResults] leaves a record under the identifier of every pairing,
    with both scores empty: the schedule view reads a record for every
    line and shows two empty inputs.  Every record of the map is the
    blank record of a pairing of the schedule, under its identifier. *)
Theorem emptyResults_covers_schedule (schedule : list fixture) (group : string) :
  schedule_view schedule (emptyResults schedule group) group =
    Some (blank_view schedule) ∧
  (∀ k rec, (k, rec) ∈ emptyResults schedule group →
     ∃ f a b, f ∈ schedule ∧ (a, b) ∈ matches f ∧ k = idFor group a b ∧
              rec = Complete (Result a b (round f) "" "")) ∧
  (∀ f p, f ∈ schedule → p ∈ matches f →
     ∃ m, get (emptyResults schedule group) (idFor group p.1 p.2) =
            Some (Complete m) ∧ res_ag m = "" ∧ res_bg m = "").
Proof.
  split; [|split].
  - apply emptyResults_view.
  - apply emptyResults_elem_of.
  - intros f p Hf Hp.
    destruct (emptyResults_get schedule group f p Hf Hp)
      as (m & Hm & Hag & Hbg & _). eauto.
Qed.

Lemma pairings_count (teams : list player) :
  length (all_pairings (schedule_closed (working_list teams))) =
  length teams * (length teams - 1) / 2.
Proof.
  destruct (decide (teams = [])) as [->|Hne]; [done|].
  destruct (roundRobin_shape teams Hne) as (h & Hlen & Hpar).
  rewrite (all_pairings_closed teams h Hlen).
  destruct Hpar as [[HN' _]|[HN' _]].
  - rewrite (bind_length_const _ _ (h + 1)).
    + rewrite length_seq, HN'. apply Nat.div_unique with 0; lia.
    + intros r Hr%elem_of_seq. apply round_length_even; [done..|lia].
  - rewrite (bind_length_const _ _ h).
    + rewrite length_seq, HN'. apply Nat.div_unique with 0; lia.
    + intros r Hr%elem_of_seq. apply round_length_odd; [done..|lia].
Qed.

Lemma pairings_in_roster (teams : list player) (a b : string) :
  (a, b) ∈ all_pairings (schedule_closed (working_list teams)) →
  a ∈ name <$> teams ∧ b ∈ name <$> teams.
Proof.
  destruct (decide (teams = [])) as [->|Hne]; [by intros ?%elem_of_nil|].
  destruct (roundRobin_shape teams Hne) as (h & Hlen & _).
  intros (r & Hr & Hp)%(in_all_pairings teams h Hlen).
  by apply (round_names_roster teams h Hlen a b r).
Qed.

Lemma pairings_NoDup (teams : list player) :
  NoDup (name <$> teams) →
  NoDup (all_pairings (schedule_closed (working_list teams))).
Proof.
  intros Hnd. destruct (decide (teams = [])) as [->|Hne]; [constructor|].
  destruct (roundRobin_shape teams Hne) as (h & Hlen & _).
  by apply (all_pairings_NoDup teams h).
Qed.

(** X11.  one record for each match.  For a group whose names are distinct
    and hold no underscore, the fresh result map of its schedule holds
    exactly the blank records of the pairings, in the order of the
    schedule, each under a key of its own: N·(N−1)/2 records. *)
Theorem emptyResults_one_record_per_match (teams : list player) (group : string) :
  NoDup (name <$> teams) →
  (∀ p, p ∈ teams → plain (name p) = true) →
  ∃ schedule,
    roundRobin teams = Some schedule ∧
    emptyResults schedule group = blank_records schedule group ∧
    NoDup (emptyResults schedule group).*1 ∧
    length (emptyResults schedule group) =
      length teams * (length teams - 1) / 2.
Proof.
  intros Hnd Hplain. exists (schedule_closed (working_list teams)).
  split; [apply roundRobin_closed|].
  assert (NoDup (identifiers (schedule_closed (working_list teams)) group))
    as Hids.
  { unfold identifiers. apply NoDup_fmap_2_strong; [|by apply pairings_NoDup].
    intros [a b] [a' b'] [Ha _]%pairings_in_roster [Ha' _]%pairings_in_roster.
    simpl. intros Hid.
    apply list_elem_of_fmap in Ha as (p & -> & Hp).
    apply list_elem_of_fmap in Ha' as (p' & -> & Hp').
    destruct (idFor_injective group (name p) b (name p') b') as [-> ->];
      auto. }
  assert (emptyResults (schedule_closed (working_list teams)) group =
          blank_records (schedule_closed (working_list teams)) group) as Heq.
  { rewrite emptyResults_set_all. rewrite set_all_fresh; [done|].
    simpl. by rewrite blank_records_keys. }
  split; [done|]. rewrite Heq, blank_records_keys. split; [done|].
  rewrite <- (length_fmap fst), blank_records_keys.
  unfold identifiers. rewrite length_fmap. apply pairings_count.
Qed.

Lemma emptyResults_one_record_per_match_witness :
  ∃ schedule,
    roundRobin [Player "a" 1; Player "b" 2; Player "c" 3] = Some schedule ∧
    length (emptyResults schedule "A") = 3.
Proof.
  destruct (emptyResults_one_record_per_match
              [Player "a" 1; Player "b" 2; Player "c" 3] "A")
    as (schedule & Hs & _ & _ & Hlen).
  - compute_done.
  - intros p Hp. repeat (apply elem_of_cons in Hp as [->|Hp]; [reflexivity|]).
    by apply elem_of_nil in Hp.
  - exists schedule. split; [exact Hs | exact Hlen].
Defined.

(** *** [updateScore] and [clearMatch] *)

Lemma of_with_group (s : state) (g g' : group_id) (o : store) :
  of_group (with_group s g o) g' = if decide (g = g') then o else of_group s g'.
Proof. by destruct g, g'. Qed.

Lemma set_set {V : Type} (o : object V) (k : string) (v w : V) :
  set (set o k v) k w = set o k w.
Proof.
  induction o as [|[k0 v0] o IH]; simpl.
  - by rewrite bool_decide_eq_true_2.
  - case_bool_decide as E; simpl.
    + by rewrite bool_decide_eq_true_2.
    + rewrite bool_decide_eq_false_2 by done. by rewrite IH.
Qed.

(** X12.  a score typed in is read back.  After [updateScore] the record
    under the key holds the value in the field; the other score and, in
    a complete record, the names and the round are as before; every other
    key and the other group are as before; the keys and their order are
    as before when the key was there.  Under a key that was not there the
    record made holds the score and no name. *)
Theorem updateScore_reads_back (s : state) (g : group_id) (key : string)
    (field : score_field) (value : string) :
  let o := of_group s g in
  let o' := of_group (updateScore g key field value s) g in
  get o' key = Some (with_score (get o key) field value) ∧
  score_of (with_score (get o key) field value) field = Some value ∧
  (∀ other, other ≠ field →
     score_of (with_score (get o key) field value) other =
     get o key ≫= (λ rec, score_of rec other)) ∧
  (∀ m, get o key = Some (Complete m) →
     ∃ m', get o' key = Some (Complete m') ∧ res_a m' = res_a m ∧
           res_b m' = res_b m ∧ res_round m' = res_round m) ∧
  (∀ key', key' ≠ key → get o' key' = get o key') ∧
  (∀ g', g' ≠ g →
     of_group (updateScore g key field value s) g' = of_group s g') ∧
  (key ∈ o.*1 → o'.*1 = o.*1) ∧
  (get o key = None → ∃ x y, get o' key = Some (Partial x y)).
Proof.
  intros o o'. subst o o'. unfold updateScore. rewrite of_with_group.
  rewrite decide_True by done.
  split; [by rewrite get_set, bool_decide_eq_true_2|].
  split; [by destruct (get (of_group s g) key) as [[m|x y]|], field|].
  split; [|split; [|split; [|split; [|split]]]].
  - intros other Hne.
    destruct (get (of_group s g) key) as [[m|x y]|], field, other; done.
  - intros m Hm. rewrite get_set, bool_decide_eq_true_2, Hm by done.
    destruct field; eexists; (split; [done|]); done.
  - intros key' Hne. rewrite get_set. by rewrite bool_decide_eq_false_2.
  - intros g' Hne. rewrite of_with_group. by rewrite decide_False.
  - apply set_keys_present.
  - intros Hk. rewrite get_set, bool_decide_eq_true_2, Hk by done.
    destruct field; simpl; eauto.
Qed.

Lemma cleared_with_score (rec : option record) (field : score_field)
    (value : string) :
  cleared (Some (with_score rec field value)) = cleared rec.
Proof. by destruct rec as [[m|x y]|], field. Qed.

Lemma cleared_cleared (rec : option record) :
  cleared (Some (cleared rec)) = cleared rec.
Proof. by destruct rec as [[m|x y]|]. Qed.

Lemma with_group_twice (s : state) (g : group_id) (o o' : store) :
  with_group (with_group s g o) g o' = with_group s g o'.
Proof. by destruct g. Qed.

(** X13.  a line cleared.  After [clearMatch] the record under the key has
    both scores empty, with the names and the round it had; the other
    keys and the other group are as before.  Clearing twice is clearing
    once, and clearing forgets a score typed before into the line. *)
Theorem clearMatch_clears (s : state) (g : group_id) (key : string) :
  let o := of_group s g in
  let o' := of_group (clearMatch g key s) g in
  get o' key = Some (cleared (get o key)) ∧
  score_of (cleared (get o key)) ag = Some "" ∧
  score_of (cleared (get o key)) bg = Some "" ∧
  (∀ m, get o key = Some (Complete m) →
     get o' key =
     Some (Complete (Result (res_a m) (res_b m) (res_round m) "" ""))) ∧
  (∀ key', key' ≠ key → get o' key' = get o key') ∧
  (∀ g', g' ≠ g → of_group (clearMatch g key s) g' = of_group s g') ∧
  clearMatch g key (clearMatch g key s) = clearMatch g key s ∧
  (∀ field value,
     clearMatch g key (updateScore g key field value s) = clearMatch g key s).
Proof.
  intros o o'. subst o o'. unfold clearMatch, updateScore.
  rewrite !of_with_group, !decide_True by done.
  split; [by rewrite get_set, bool_decide_eq_true_2|].
  split; [by destruct (get (of_group s g) key) as [[m|x y]|]|].
  split; [by destruct (get (of_group s g) key) as [[m|x y]|]|].
  split; [|split; [|split; [|split]]].
  - intros m Hm. by rewrite get_set, bool_decide_eq_true_2, Hm.
  - intros key' Hne. rewrite get_set. by rewrite bool_decide_eq_false_2.
  - intros g' Hne. rewrite of_with_group. by rewrite decide_False.
  - rewrite with_group_twice, get_set, bool_decide_eq_true_2 by done.
    by rewrite set_set, cleared_cleared.
  - intros field value. rewrite of_with_group, decide_True by done.
    rewrite with_group_twice, get_set, bool_decide_eq_true_2 by done.
    by rewrite set_set, cleared_with_score.
Qed.

(** *** The schedule view after an event *)

Lemma match_line_set (o : store) (group k : string) (v : record) (p : pairing) :
  match_line (set o k v) group p =
  if bool_decide (k = idFor group p.1 p.2)
  then Some (p.1, score_of v ag, score_of v bg, p.2)
  else match_line o group p.
Proof. unfold match_line. rewrite get_set. by case_bool_decide. Qed.

Lemma schedule_view_is_Some (schedule : list fixture) (o : store) (group : string) :
  is_Some (schedule_view schedule o group) ↔
  ∀ f p, f ∈ schedule → p ∈ matches f → is_Some (match_line o group p).
Proof.
  unfold schedule_view. rewrite mapM_is_Some, Forall_forall. split.
  - intros H f p Hf Hp. specialize (H f Hf). simpl in H.
    destruct (mapM (match_line o group) (matches f)) as [ls|] eqn:E;
      [|by destruct H].
    assert (is_Some (mapM (match_line o group) (matches f))) as Hs by eauto.
    rewrite mapM_is_Some, Forall_forall in Hs. by apply Hs.
  - intros H f Hf. simpl.
    assert (is_Some (mapM (match_line o group) (matches f))) as [ls ->]; [|eauto].
    rewrite mapM_is_Some, Forall_forall. intros p Hp. by apply (H f).
Qed.

(** X14.  the view after an event.  While the schedule view reads a record
    for every line, it still does after a score is typed in or a line is
    cleared, whatever the line.  Every line whose identifier is that of
    the event shows the record now under it, which holds the value typed
    with the other score as before, or two empty scores; every line of
    another identifier shows what it did. *)
Theorem schedule_view_follows (schedule : list fixture) (s : state)
    (g : group_id) (e : event) :
  let group := group_key g in
  let key := idFor group (event_pairing e).1 (event_pairing e).2 in
  let o := of_group s g in
  let o' := of_group (handle g s e) g in
  is_Some (schedule_view schedule o group) →
  is_Some (schedule_view schedule o' group) ∧
  (∀ p, idFor group p.1 p.2 ≠ key → match_line o' group p = match_line o group p) ∧
  ∃ rec,
    get o' key = Some rec ∧
    (∀ p, idFor group p.1 p.2 = key →
       match_line o' group p =
       Some (p.1, score_of rec ag, score_of rec bg, p.2)) ∧
    match e with
    | Typed _ field value =>
        score_of rec field = Some value ∧
        ∀ other, other ≠ field →
          score_of rec other = get o key ≫= (λ r, score_of r other)
    | ClearPressed _ => score_of rec ag = Some "" ∧ score_of rec bg = Some ""
    end.
Proof.
  intros group key o o' Hview.
  assert (∃ v, o' = set o key v ∧
            match e with
            | Typed p field value => v = with_score (get o key) field value
            | ClearPressed p => v = cleared (get o key)
            end) as (v & Ho' & Hv).
  { subst o o' key group. destruct e as [p field value|p]; simpl;
      unfold updateScore, clearMatch; rewrite of_with_group, decide_True by done;
      eauto. }
  split; [|split].
  - rewrite schedule_view_is_Some in *. intros f p Hf Hp.
    rewrite Ho', match_line_set. case_bool_decide; [done|]. by apply (Hview f).
  - intros p Hne. rewrite Ho', match_line_set.
    by rewrite bool_decide_eq_false_2.
  - exists v. split; [by rewrite Ho', get_set, bool_decide_eq_true_2|]. split.
    + intros p Hp. by rewrite Ho', match_line_set, bool_decide_eq_true_2.
    + destruct e as [p field value|p]; subst v.
      * split; [by destruct (get o key) as [[m|x y]|], field|].
        intros other Hne.
        destruct (get o key) as [[m|x y]|], field, other; done.
      * by destruct (get o key) as [[m|x y]|].
Qed.

Lemma schedule_view_follows_witness :
  is_Some (schedule_view [Fixture 1 [("a", "b")]]
             (of_group (handle inA
                          (State (emptyResults [Fixture 1 [("a", "b")]] "A") [])
                          (Typed ("a", "b") ag "4")) inA) "A").
Proof.
  refine (proj1 (schedule_view_follows [Fixture 1 [("a", "b")]]
                   (State (emptyResults [Fixture 1 [("a", "b")]] "A") [])
                   inA (Typed ("a", "b") ag "4") _)).
  simpl. eauto.
Defined.

(** *** The standings of a store *)

Section store_standings.
Context (Number : string → option Z).

Lemma values_records (o : store) : (values o).*2 = as_read <$> o.*2.
Proof. unfold values. rewrite <- !list_fmap_compose. by apply list_fmap_ext. Qed.

Lemma recorded_blank (m : result) :
  res_ag m = "" ∨ res_bg m = "" → recorded Number m = None.
Proof.
  intros H. unfold recorded.
  destruct (Number (res_ag m)), (Number (res_bg m)); try done.
  destruct H as [-> | ->]; [done|]. by rewrite andb_false_r.
Qed.

Lemma step_unrecorded (index : gmap string nat) (table : list row) (m : result) :
  recorded Number m = None →
  step Number index table (Some m) = Some table ∧
  step_unguarded Number index table (Some m) = Some table.
Proof. intros H. simpl. rewrite H. by case_bool_decide. Qed.

Lemma forEach_idle (cb : list row → option result → option (list row))
    (ms : list (option result)) (table : list row) :
  (∀ t m, m ∈ ms → cb t m = Some t) → forEach cb ms table = Some table.
Proof.
  induction ms as [|m ms IH]; intros H; simpl; [done|].
  rewrite H by (by left). simpl. apply IH. intros t m' Hm'. apply H. by right.
Qed.

Lemma forEach_without (cb : list row → option result → option (list row))
    (ms1 ms2 : list (option result)) (m : option result) (table : list row) :
  (∀ t, cb t m = Some t) →
  forEach cb (ms1 ++ m :: ms2) table = forEach cb (ms1 ++ ms2) table.
Proof.
  intros H. rewrite !forEach_app. destruct (forEach cb ms1 table) as [t|]; [|done].
  simpl. by rewrite H.
Qed.

Lemma step_guard_idle (index : gmap string nat) (table : list row)
    (m : option result) :
  (∀ m', m = Some m' →
     is_Some (index !! res_a m') ∧ is_Some (index !! res_b m')) →
  step_unguarded Number index table m = step Number index table m.
Proof.
  destruct m as [m|]; [|done]. intros H.
  destruct (H m eq_refl) as [[iA HA] [iB HB]]. simpl.
  rewrite bool_decide_eq_false_2; [done|].
  rewrite HA, HB. by intros [?|?].
Qed.

Lemma forEach_guard_idle (index : gmap string nat) (ms : list (option result))
    (table : list row) :
  (∀ m, Some m ∈ ms →
     is_Some (index !! res_a m) ∧ is_Some (index !! res_b m)) →
  forEach (step_unguarded Number index) ms table =
  forEach (step Number index) ms table.
Proof.
  revert table. induction ms as [|m ms IH]; intros table H; simpl; [done|].
  rewrite step_guard_idle by (intros m' ->; apply H; by left).
  destruct (step Number index table m) as [t|]; simpl; [|done].
  apply IH. intros m' Hm'. apply H. by right.
Qed.

Lemma index_of_roster (players : list player) (a : string) :
  a ∈ name <$> players → is_Some (index_of (initial_table players) !! a).
Proof.
  intros Ha. destruct (index_of (initial_table players) !! a) eqn:E; [eauto|].
  apply index_of_None in E. by rewrite initial_names in E.
Qed.

Lemma set_GD_initial (players : list player) :
  set_GD <$> initial_table players = initial_table players.
Proof.
  unfold initial_table. rewrite <- list_fmap_compose. by apply list_fmap_ext.
Qed.

Lemma sort_sorted_fixed (l : list row) :
  StronglySorted precedes l → sort compareRows l = l.
Proof.
  induction 1 as [|x l Hl IH Hx]; [done|]. simpl. rewrite IH.
  destruct l as [|y l]; [done|]. simpl.
  rewrite bool_decide_eq_true_2; [done|].
  apply compareRows_le. by apply Forall_cons in Hx as [? _].
Qed.

Lemma initial_table_sorted (players : list player) :
  StronglySorted Z.le (rank <$> players) →
  StronglySorted precedes (initial_table players).
Proof.
  induction players as [|p players IH]; [constructor|].
  rewrite fmap_cons. intros [Hs Hp]%StronglySorted_inv.
  unfold initial_table. rewrite fmap_cons. constructor; [by apply IH|].
  rewrite Forall_fmap. rewrite Forall_fmap in Hp.
  eapply Forall_impl; [exact Hp|]. intros q Hq. unfold precedes. simpl in *. lia.
Qed.

Lemma fresh_table (players : list player) (schedule : list fixture)
    (group : string) :
  calcStandings Number players (values (emptyResults schedule group)) =
    Some (sort compareRows (initial_table players)) ∧
  calcStandings_unguarded Number players (values (emptyResults schedule group)) =
    Some (sort compareRows (initial_table players)).
Proof.
  assert (∀ m, m ∈ (values (emptyResults schedule group)).*2 →
            ∃ m', m = Some m' ∧ recorded Number m' = None) as Hblank.
  { intros m. rewrite values_records.
    intros (rec & -> & ([k rec'] & -> & Hin)%list_elem_of_fmap)%list_elem_of_fmap.
    apply emptyResults_elem_of in Hin as (f & a & b & _ & _ & _ & Hrec).
    simpl in *. subst rec'. eexists. split; [done|].
    apply recorded_blank. by left. }
  split.
  - unfold calcStandings, calcStandings_with. rewrite forEach_idle.
    + simpl. by rewrite set_GD_initial.
    + intros t m (m' & -> & Hm')%Hblank. by apply step_unrecorded.
  - unfold calcStandings_unguarded, calcStandings_with. rewrite forEach_idle.
    + simpl. by rewrite set_GD_initial.
    + intros t m (m' & -> & Hm')%Hblank. by apply step_unrecorded.
Qed.

(** X15.  the table of a fresh result map.  With the result map that
    [emptyResults] makes, whatever the schedule, [calcStandings] returns
    the rows of the roster with every column zero, sorted by seed rank; a
    roster that is in the order of its ranks stays in its order.  The
    earlier revisions return the same. *)
Theorem calcStandings_of_fresh_results (players : list player)
    (schedule : list fixture) (group : string) :
  calcStandings Number players (values (emptyResults schedule group)) =
    Some (sort compareRows (initial_table players)) ∧
  calcStandings_unguarded Number players (values (emptyResults schedule group)) =
    Some (sort compareRows (initial_table players)) ∧
  (StronglySorted Z.le (rank <$> players) →
   sort compareRows (initial_table players) = initial_table players) ∧
  StronglySorted (λ x y, (row_rank x ≤ row_rank y)%Z)
    (sort compareRows (initial_table players)).
Proof.
  destruct (fresh_table players schedule group) as [Hg Hu].
  split; [done|]. split; [done|]. clear Hg Hu. split.
  - intros Hs. by apply sort_sorted_fixed, initial_table_sorted.
  - pose proof (sort_sorted (initial_table players)) as Hs.
    assert (Forall (λ r, W r = 0 ∧ GD r = 0 ∧ GF r = 0)%Z
              (sort compareRows (initial_table players))) as Hz.
    { rewrite sort_perm. unfold initial_table. rewrite Forall_fmap.
      by apply Forall_true. }
    induction Hs as [|x l Hl IH Hx]; [constructor|].
    apply Forall_cons in Hz as [Hzx Hzl].
    constructor; [by apply IH|].
    rewrite Forall_forall in *. intros y Hy.
    specialize (Hx y Hy). specialize (Hzl y Hy). unfold precedes in Hx. lia.
Qed.

(** X16.  a cleared line and the table.  For the table, clearing a line is
    taking its record out of the result map: [calcStandings] returns the
    same for the map in which the record is cleared and for the map
    without the record, in the earlier revisions too. *)
Theorem clearMatch_leaves_table (players : list player) (s : state)
    (g : group_id) (key : string) (rec : record) :
  get (of_group s g) key = Some rec →
  ∃ o1 o2,
    of_group s g = o1 ++ (key, rec) :: o2 ∧
    of_group (clearMatch g key s) g = o1 ++ (key, cleared (Some rec)) :: o2 ∧
    calcStandings Number players (values (of_group (clearMatch g key s) g)) =
      calcStandings Number players (values (o1 ++ o2)) ∧
    calcStandings_unguarded Number players
        (values (of_group (clearMatch g key s) g)) =
      calcStandings_unguarded Number players (values (o1 ++ o2)).
Proof.
  intros Hget. destruct (get_split _ _ _ Hget) as (o1 & o2 & Ho & Hfresh).
  exists o1, o2. split; [done|].
  assert (of_group (clearMatch g key s) g =
          o1 ++ (key, cleared (Some rec)) :: o2) as Ho'.
  { unfold clearMatch. rewrite of_with_group, decide_True by done.
    rewrite Hget, Ho. by apply set_present. }
  split; [done|]. rewrite Ho'.
  assert (∀ index t,
            step Number index t (as_read (cleared (Some rec))) = Some t ∧
            step_unguarded Number index t (as_read (cleared (Some rec))) = Some t)
    as Hidle.
  { intros index t. destruct rec as [m|x y]; simpl as_read.
    - apply step_unrecorded, recorded_blank. by left.
    - apply step_unrecorded, recorded_blank. by left. }
  unfold calcStandings, calcStandings_unguarded, calcStandings_with.
  rewrite !values_records, !fmap_app, !fmap_cons. simpl.
  split; (rewrite forEach_without; [done|]); intros t; apply Hidle.
Qed.

(** The records of the store of a group are complete and name competitors
    of the group, and its keys are those of the fresh result map. *)
Lemma events_keep_records (players : list player) (g : group_id)
    (events : list event) (s0 : state) :
  of_group s0 g =
    emptyResults (schedule_closed (working_list players)) (group_key g) →
  (∀ e, e ∈ events →
     event_pairing e ∈ all_pairings (schedule_closed (working_list players))) →
  (of_group (foldl (handle g) s0 events) g).*1 = (of_group s0 g).*1 ∧
  ∀ k rec, (k, rec) ∈ of_group (foldl (handle g) s0 events) g →
    ∃ m, rec = Complete m ∧
         res_a m ∈ name <$> players ∧ res_b m ∈ name <$> players.
Proof.
  intros Hs0. induction events as [|e events IH] using rev_ind; intros Hev.
  { simpl. split; [done|]. intros k rec. rewrite Hs0.
    intros (f & a & b & Hf & Hp & _ & ->)%emptyResults_elem_of.
    eexists. split; [done|]. simpl.
    apply pairings_in_roster. unfold all_pairings.
    rewrite concat_fmap_bind. apply list_elem_of_bind. eauto. }
  destruct IH as [IHk IHr].
  { intros e' He'. apply Hev, elem_of_app. by left. }
  rewrite foldl_snoc. set (s := foldl (handle g) s0 events) in *.
  set (p := event_pairing e).
  set (key := idFor (group_key g) p.1 p.2).
  assert (key ∈ (of_group s g).*1) as Hkey.
  { rewrite IHk, Hs0, emptyResults_set_all.
    assert (p ∈ all_pairings (schedule_closed (working_list players))) as Hp
      by (apply Hev, elem_of_app; right; by left).
    destruct (set_all_get []
                (blank_records (schedule_closed (working_list players))
                   (group_key g)) key) as [Hin _].
    destruct Hin as (v & Hv & _).
    { rewrite blank_records_keys. apply list_elem_of_fmap. by exists p. }
    apply get_elem_of in Hv. apply list_elem_of_fmap. by exists (key, v). }
  destruct (get (of_group s g) key) as [rec0|] eqn:Hget;
    [|by apply get_None in Hget].
  destruct (IHr key rec0 (get_elem_of _ _ _ Hget)) as (m0 & -> & Ha0 & Hb0).
  assert (∃ m, of_group (handle g s e) g = set (of_group s g) key (Complete m) ∧
               res_a m = res_a m0 ∧ res_b m = res_b m0) as (m & Ho' & Ha & Hb).
  { subst key p. destruct e as [p field value|p]; simpl in *;
      unfold updateScore, clearMatch; rewrite of_with_group, decide_True by done;
      rewrite Hget; [destruct field|]; eexists; (split; [done|]); done. }
  rewrite Ho'. split.
  - by rewrite set_keys_present.
  - intros k rec Hin.
    destruct (set_elem_of _ _ _ _ _ Hin) as [Hin'|[= -> ->]]; [by apply (IHr k)|].
    exists m. by rewrite Ha, Hb.
Qed.

(** X17.  the state that the page builds.  From the fresh result map of the
    schedule of a group, after any scores typed into lines of the schedule
    and any lines cleared, [calcStandings] of the earlier revisions, which
    has no guard, returns, and returns what the latest revision does; the
    schedule view reads a record for every line; and the map has the keys
    it started with, in their order. *)
Theorem page_state_is_safe (players : list player) (g : group_id)
    (events : list event) (s0 : state) (schedule : list fixture) :
  roundRobin players = Some schedule →
  of_group s0 g = emptyResults schedule (group_key g) →
  (∀ e, e ∈ events → event_pairing e ∈ all_pairings schedule) →
  let o := of_group (foldl (handle g) s0 events) g in
  (∃ table,
     calcStandings_unguarded Number players (values o) = Some table ∧
     calcStandings Number players (values o) = Some table) ∧
  is_Some (schedule_view schedule o (group_key g)) ∧
  o.*1 = (emptyResults schedule (group_key g)).*1.
Proof.
  rewrite roundRobin_closed. intros [= <-] Hs0 Hev o.
  destruct (events_keep_records players g events s0 Hs0 Hev) as [Hk Hr].
  fold o in Hk, Hr. split; [|split].
  - destruct (calcStandings_returns Number players (values o))
      as (t & Ht & _). eexists. split; [|exact Ht].
    rewrite <- Ht. unfold calcStandings_unguarded, calcStandings, calcStandings_with.
    rewrite forEach_guard_idle; [done|].
    intros m. rewrite values_records.
    intros (rec & Hm & ([k rec'] & -> & Hin)%list_elem_of_fmap)%list_elem_of_fmap.
    destruct (Hr k rec' Hin) as (m' & -> & Ha & Hb). simpl in Hm.
    injection Hm as ->. split; by apply index_of_roster.
  - apply schedule_view_is_Some. intros f p Hf Hp. unfold match_line.
    destruct (get o (idFor (group_key g) p.1 p.2)) as [rec|] eqn:E; [by eauto|].
    apply get_None in E. destruct E. rewrite Hk, Hs0.
    destruct (emptyResults_get _ (group_key g) f p Hf Hp) as (m & Hm & _).
    apply get_elem_of in Hm. apply list_elem_of_fmap.
    by eexists (_, _).
  - by rewrite Hk, Hs0.
Qed.

End store_standings.

Lemma clearMatch_leaves_table_witness :
  ∃ o1 o2,
    of_group (State [("A::a__b", Complete (Result "a" "b" 1 "4" "2"))] []) inA =
      o1 ++ ("A::a__b", Complete (Result "a" "b" 1 "4" "2")) :: o2 ∧
    calcStandings Number_of_digits [Player "a" 1; Player "b" 2]
      (values (of_group
         (clearMatch inA "A::a__b"
            (State [("A::a__b", Complete (Result "a" "b" 1 "4" "2"))] []))
         inA)) =
    calcStandings Number_of_digits [Player "a" 1; Player "b" 2] (values (o1 ++ o2)).
Proof.
  destruct (clearMatch_leaves_table Number_of_digits [Player "a" 1; Player "b" 2]
              (State [("A::a__b", Complete (Result "a" "b" 1 "4" "2"))] [])
              inA "A::a__b" (Complete (Result "a" "b" 1 "4" "2")))
    as (o1 & o2 & Ho & _ & Hc & _); [reflexivity|].
  exists o1, o2. split; [exact Ho | exact Hc].
Defined.


Lemma page_state_is_safe_witness :
  ∃ table,
    calcStandings_unguarded Number_of_digits [Player "a" 1; Player "b" 2]
      (values (of_group
         (foldl (handle inA)
            (State (emptyResults [Fixture 1 [("a", "b")]] "A") [])
            [Typed ("a", "b") ag "4"; Typed ("a", "b") bg "2"]) inA)) =
    Some table.
Proof.
  destruct (page_state_is_safe Number_of_digits [Player "a" 1; Player "b" 2]
              inA [Typed ("a", "b") ag "4"; Typed ("a", "b") bg "2"]
              (State (emptyResults [Fixture 1 [("a", "b")]] "A") [])
              [Fixture 1 [("a", "b")]])
    as ((table & Ht & _) & _).
  - reflexivity.
  - reflexivity.
  - intros e He. repeat (apply elem_of_cons in He as [->|He]; [by left|]).
    by apply elem_of_nil in He.
  - exists table. exact Ht.
Defined.

End ResultsFacts.

(** ** The schedule of any list *)

Module ScheduleFacts.
Import Scheduler SchedulerFacts.

Lemma schedule_rounds (teams : list player) :
  round <$> schedule_closed (working_list teams) =
  seq 1 (length (schedule_closed (working_list teams))).
Proof.
  unfold schedule_closed. rewrite length_fmap, length_seq, <- list_fmap_compose.
  apply list_eq. intros i. rewrite list_lookup_fmap.
  destruct (decide (i < length (working_list teams) - 1)) as [Hi|Hi].
  - rewrite !lookup_seq_lt by done. simpl. f_equal. lia.
  - by rewrite !lookup_seq_ge by lia.
Qed.

(** X18.  [roundRobin] on any list.  It returns for every list, whatever its
    length and its names, distinct or not: it reads no position outside
    its array.  The schedule has M − 1 rounds (none for the empty list)
    numbered 1, 2, ... in order, each of ⌊N/2⌋ pairings, N·(N−1)/2 in
    all, every one between two names of the list. *)
Theorem roundRobin_on_any_list (teams : list player) :
  ∃ schedule,
    roundRobin teams = Some schedule ∧
    length schedule = length teams + length teams mod 2 - 1 ∧
    round <$> schedule = seq 1 (length schedule) ∧
    (∀ f, f ∈ schedule → length (matches f) = length teams / 2) ∧
    length (all_pairings schedule) = length teams * (length teams - 1) / 2 ∧
    (∀ a b, (a, b) ∈ all_pairings schedule →
       a ∈ name <$> teams ∧ b ∈ name <$> teams).
Proof.
  exists (schedule_closed (working_list teams)).
  split; [apply roundRobin_closed|].
  split; [|split; [apply schedule_rounds|split; [|split]]].
  - destruct (decide (teams = [])) as [->|Hne]; [done|].
    destruct (roundRobin_shape teams Hne) as (h & Hlen & Hpar).
    rewrite (schedule_length teams h Hlen). lia.
  - destruct (decide (teams = [])) as [->|Hne]; [by intros f ?%elem_of_nil|].
    destruct (roundRobin_shape teams Hne) as (h & Hlen & Hpar).
    intros f [r Hf]%list_elem_of_lookup.
    apply (schedule_lookup teams h Hlen) in Hf as [Hr ->]. cbn [matches].
    destruct Hpar as [[HN _]|[HN _]].
    + rewrite (round_length_even teams h Hlen r HN Hr), HN.
      apply Nat.div_unique with 0; lia.
    + rewrite (round_length_odd teams h Hlen r HN Hr), HN.
      apply Nat.div_unique with 1; lia.
  - apply ResultsFacts.pairings_count.
  - apply ResultsFacts.pairings_in_roster.
Qed.

(** The pair of the circle that holds the position of the bye. *)
Lemma bye_pair (h r : nat) :
  r ≤ 2 * h →
  ∃ i, i ≤ h ∧
    ((src (2 * h + 1) r i = (2 * (2 * h + 1 - r)) mod (2 * h + 1) ∧
      src (2 * h + 1) r (2 * h + 1 - i) = 2 * h + 1) ∨
     (src (2 * h + 1) r i = 2 * h + 1 ∧
      src (2 * h + 1) r (2 * h + 1 - i) =
        (2 * (2 * h + 1 - r)) mod (2 * h + 1))).
Proof.
  intros Hr. set (m := 2 * h + 1).
  destruct (decide (r = 0)) as [->|Hr0].
  { exists 0. split; [lia|]. left.
    replace (2 * (m - 0)) with (2 * m) by lia.
    replace (2 * m) with (0 + 2 * m) by lia.
    rewrite Nat.Div0.mod_add, Nat.Div0.mod_0_l. subst m. src_lia. }
  assert ((2 * (m - r)) mod m = if decide (2 * r < m) then m - 2 * r
                                 else 2 * m - 2 * r) as ->.
  { case_decide.
    - symmetry. apply (Nat.mod_unique _ _ 1); subst m; lia.
    - symmetry. apply (Nat.mod_unique _ _ 0); subst m; lia. }
  destruct (decide (r ≤ h)).
  - exists r. split; [done|]. right. subst m. src_lia.
  - exists (2 * h + 1 - r). split; [lia|]. left.
    replace (m - (2 * h + 1 - r)) with r by (subst m; lia).
    subst m. src_lia.
Qed.

(** Twice a round, counted back from the end, runs through every
    position. *)
Lemma bye_round_of (h u : nat) :
  u ≤ 2 * h →
  ∃ r, r ≤ 2 * h ∧ (2 * (2 * h + 1 - r)) mod (2 * h + 1) = u.
Proof.
  intros Hu. set (m := 2 * h + 1).
  pose proof (Nat.div_mod_eq u 2) as Hdm.
  pose proof (Nat.mod_upper_bound u 2) as Hm.
  set (q := u / 2) in *. set (e := u mod 2) in *.
  destruct (decide (u = 0)) as [->|Hu0].
  { exists 0. split; [lia|]. replace (2 * (m - 0)) with (0 + 2 * m) by lia.
    by rewrite Nat.Div0.mod_add, Nat.Div0.mod_0_l. }
  destruct (decide (e = 0)) as [He|He].
  - exists (m - q). split; [subst m; lia|].
    symmetry. apply (Nat.mod_unique _ _ 0); subst m; lia.
  - exists (h - q). split; [lia|].
    symmetry. apply (Nat.mod_unique _ _ 1); subst m; lia.
Qed.

(** X19.  who sits out when.  In an odd group of N the competitor without a
    match in round R (from 1) is the one at the position 2·(N + 1 − R)
    modulo N of the list, and no other: the first of the list in round 1,
    and in no two rounds the same. *)
Theorem bye_by_round (teams : list player) (r u : nat) :
  length teams mod 2 = 1 → r < length teams → u < length teams →
  ∃ schedule f,
    roundRobin teams = Some schedule ∧
    schedule !! r = Some f ∧ round f = r + 1 ∧
    matches f = named teams <$> round_positions (length teams) r ∧
    (sits_out (length teams) r u ↔
     u = (2 * (length teams - r)) mod length teams) ∧
    (∀ r', r' < length teams → sits_out (length teams) r u →
       sits_out (length teams) r' u → r' = r).
Proof.
  intros Hodd Hr Hu.
  assert (teams ≠ []) as Hne by (intros ->; simpl in Hu; lia).
  destruct (roundRobin_shape teams Hne) as (h & Hlen & Hpar).
  assert (length teams = 2 * h + 1) as HN by lia. clear Hpar.
  exists (schedule_closed (working_list teams)),
    (Fixture (r + 1) (round_closed (working_list teams) r)).
  split; [apply roundRobin_closed|].
  split; [apply (schedule_lookup teams h Hlen); split; [lia | done]|].
  split; [done|]. split; [by apply (round_closed_positions teams h)|].
  assert (∀ r', r' ≤ 2 * h →
            sits_out (length teams) r'
              ((2 * (length teams - r')) mod length teams)) as Hsits.
  { intros r' Hr'.
    destruct (bye_pair h r' Hr') as (i0 & Hi0 & Hpair).
    intros [a b] (i & Hi & -> & -> & Ha & Hb)%(in_round_positions teams h Hlen).
    rewrite HN in *. cbn [fst snd].
    assert (src (2 * h + 1) r' i = (2 * (2 * h + 1 - r')) mod (2 * h + 1) ∨
            src (2 * h + 1) r' (2 * h + 1 - i) =
              (2 * (2 * h + 1 - r')) mod (2 * h + 1) → False) as Hno.
    { intros Hiu. assert (i = i0) as ->.
      { apply (slot_unique h r'); [done..|].
        destruct Hiu as [E|E], Hpair as [[E' _]|[_ E']];
          [left | right; left | do 2 right; left | do 3 right]; congruence. }
      destruct Hpair as [[_ E]|[E _]]; lia. }
    split; intros E; apply Hno; auto. }
  split; [split|].
  - intros Hout.
    destruct (bye_round_of h u) as (r1 & Hr1 & Hu1); [lia|].
    destruct (bye_round_positions teams h Hlen u HN Hu)
      as (r0 & _ & _ & Huniq).
    assert (r = r0) as -> by (apply Huniq; [lia | done]).
    assert (r1 = r0) as ->.
    { apply Huniq; [done|]. specialize (Hsits r1 Hr1).
      rewrite HN in Hsits at 2 3. rewrite Hu1 in Hsits. exact Hsits. }
    by rewrite HN.
  - intros ->. apply Hsits. lia.
  - intros r' Hr' Hout Hout'.
    destruct (bye_round_positions teams h Hlen u HN Hu)
      as (r0 & _ & _ & Huniq).
    rewrite (Huniq r), (Huniq r'); [done | lia | done | lia | done].
Qed.

Lemma bye_by_round_witness :
  ∃ schedule f,
    roundRobin [Player "a" 1; Player "b" 2; Player "c" 3] = Some schedule ∧
    schedule !! 1 = Some f ∧ sits_out 3 1 1.
Proof.
  destruct (bye_by_round [Player "a" 1; Player "b" 2; Player "c" 3] 1 1)
    as (schedule & f & Hs & Hf & _ & _ & Hout & _); [reflexivity | simpl; lia..|].
  exists schedule, f. split; [exact Hs|]. split; [exact Hf|].
  apply Hout. reflexivity.
Defined.

End ScheduleFacts.

(** ** The groups of a seeding *)

Module SeedingFacts.
Import Scheduler Seeder Standings Bracket Results Totals.
Import SchedulerFacts SeederFacts StandingsFacts BracketFacts ResultsFacts.

Lemma rank_rerank (p : player) (idx : nat) :
  rank (rerank p idx) = (Z.of_nat idx + 1)%Z.
Proof. done. Qed.

Lemma pick_from_ranks (sel : nat → bool) (idx : nat) (l : list player) :
  StronglySorted Z.lt (rank <$> pick_from sel idx l) ∧
  Forall (λ r, Z.of_nat idx < r ≤ Z.of_nat (idx + length l))%Z
    (rank <$> pick_from sel idx l).
Proof.
  revert idx. induction l as [|p l IH]; intros idx.
  { split; constructor. }
  destruct (IH (S idx)) as [IHs IHf]. cbn [pick_from length].
  assert (Forall (λ r, Z.of_nat idx + 1 < r ≤ Z.of_nat (idx + S (length l)))%Z
            (rank <$> pick_from sel (S idx) l)) as Hf.
  { eapply Forall_impl; [exact IHf|]. intros r Hr. simpl in Hr. lia. }
  destruct (sel idx); simpl.
  - split.
    + constructor; [done|]. eapply Forall_impl; [exact Hf|].
      intros r Hr. simpl in Hr. lia.
    + constructor; [lia|]. eapply Forall_impl; [exact Hf|].
      intros r Hr. simpl in Hr. lia.
  - split; [done|]. eapply Forall_impl; [exact Hf|].
    intros r Hr. simpl in Hr. lia.
Qed.

Lemma groups_sorted (l : list player) (algo : string) :
  StronglySorted Z.lt (rank <$> Seeder.A (splitGroups l algo)) ∧
  StronglySorted Z.lt (rank <$> Seeder.B (splitGroups l algo)).
Proof.
  destruct (splitGroups_pick l algo) as (sel & -> & _). simpl.
  split; apply pick_from_ranks.
Qed.

(** X20.  the groups are in the order of the ranks.  Whatever the ranks of
    the ranking were, the ranks within each group that [splitGroups]
    makes increase strictly along the group and lie between 1 and N, so
    that they are distinct; and the first of the ranking is the first of
    group A. *)
Theorem groups_in_rank_order (l : list player) (algo : string) :
  let g := splitGroups l algo in
  StronglySorted Z.lt (rank <$> Seeder.A g) ∧
  StronglySorted Z.lt (rank <$> Seeder.B g) ∧
  (∀ p, p ∈ Seeder.A g ++ Seeder.B g → (1 ≤ rank p ≤ Z.of_nat (length l))%Z) ∧
  NoDup (rank <$> Seeder.A g) ∧ NoDup (rank <$> Seeder.B g) ∧
  head (Seeder.A g) = (λ p, rerank p 0) <$> head l.
Proof.
  intros g. subst g.
  destruct (groups_sorted l algo) as [HA HB].
  assert (∀ k : list Z, StronglySorted Z.lt k → NoDup k) as Hnd.
  { intros k Hk. induction Hk as [|x k Hk IH Hx]; constructor; [|done].
    intros Hin. eapply Forall_forall in Hx; [|exact Hin]. lia. }
  split; [done|]. split; [done|].
  split; [|split; [by apply Hnd | split; [by apply Hnd|]]].
  - destruct (splitGroups_pick l algo) as (sel & -> & _). simpl.
    intros p [Hp|Hp]%elem_of_app;
      apply elem_of_pick_from in Hp as (i & q & Hq & _ & ->);
      apply lookup_lt_Some in Hq; rewrite rank_rerank; lia.
  - destruct (splitGroups_pick l algo) as (sel & -> & Hsel). simpl.
    destruct l as [|p l]; [done|]. cbn [pick_from head].
    assert (sel 0 = true) as ->; [|done].
    destruct Hsel as [-> | ->]; [done|].
    unfold halfA. apply bool_decide_eq_true.
    cbn [length]. apply Nat.div_str_pos. lia.
Qed.

Lemma rank_sum_app (l k : list player) :
  rank_sum (l ++ k) = (rank_sum l + rank_sum k)%Z.
Proof.
  induction l as [|p l IH]; simpl; [done|]. rewrite IH. lia.
Qed.

(** X21.  the snake balances the ranks.  For a ranking of N competitors the
    ranks of the two groups of [splitSnake] add up to the same when 4
    divides N; otherwise the sums differ by 1 (N = 4k + 2), by N
    (N = 4k + 1) or by N + 1 (N = 4k + 3). *)
Theorem snake_rank_sums (l : list player) :
  let g := splitSnake l in
  let N := length l in
  (N mod 4 = 0 → rank_sum (Seeder.A g) = rank_sum (Seeder.B g)) ∧
  (N mod 4 = 1 → rank_sum (Seeder.A g) = (rank_sum (Seeder.B g) + Z.of_nat N)%Z) ∧
  (N mod 4 = 2 → rank_sum (Seeder.B g) = (rank_sum (Seeder.A g) + 1)%Z) ∧
  (N mod 4 = 3 → rank_sum (Seeder.B g) = (rank_sum (Seeder.A g) + Z.of_nat N + 1)%Z).
Proof.
  intros g N. subst g N. rewrite splitSnake_pick. cbn [Seeder.A Seeder.B].
  induction l as [|p l IH] using rev_ind.
  { simpl. repeat split; intros; lia. }
  rewrite !pick_from_snoc, length_app, !Nat.add_0_l. cbn [length].
  assert ((negb ∘ snakeA) (length l) = negb (snakeA (length l))) as -> by done.
  rewrite !rank_sum_app.
  pose proof (Nat.div_mod_eq (length l) 4) as Hdm.
  pose proof (Nat.mod_upper_bound (length l) 4) as Hm.
  set (n := length l) in *. set (q := n / 4) in *. set (e := n mod 4) in *.
  assert (snakeA n = bool_decide (e = 0 ∨ e = 3)) as Hsel.
  { unfold snakeA. apply bool_decide_ext.
    assert (n / 2 = 2 * q + e / 2) as ->.
    { symmetry. apply (Nat.div_unique _ _ _ (e mod 2)); lia_div. }
    assert ((2 * q + e / 2) mod 2 = (e / 2) mod 2) as ->.
    { rewrite (Nat.add_comm (2 * q)), (Nat.mul_comm 2 q).
      apply Nat.Div0.mod_add. }
    assert (n mod 2 = e mod 2) as ->.
    { replace n with (e + (2 * q) * 2) by lia. apply Nat.Div0.mod_add. }
    destruct (decide (e = 0)) as [->|]; [simpl; tauto|].
    destruct (decide (e = 1)) as [->|]; [simpl; lia|].
    destruct (decide (e = 2)) as [->|]; [simpl; lia|].
    assert (e = 3) as -> by lia. simpl. tauto. }
  assert ((n + 1) mod 4 = (e + 1) mod 4) as Hnext.
  { replace (n + 1) with (e + 1 + q * 4) by lia. apply Nat.Div0.mod_add. }
  rewrite Hsel, Hnext.
  destruct IH as (IH0 & IH1 & IH2 & IH3).
  destruct (decide (e = 0)) as [He|];
    [|destruct (decide (e = 1)) as [He|];
      [|destruct (decide (e = 2)) as [He|]; [|assert (e = 3) as He by lia]]];
    rewrite He in *; simpl; repeat split; intros; try lia;
    unfold rerank, set_rank; simpl; lia.
Qed.

Lemma snake_rank_sums_witness :
  rank_sum (Seeder.A (splitSnake [Player "a" 9; Player "b" 9; Player "c" 9;
                           Player "d" 9])) =
  rank_sum (Seeder.B (splitSnake [Player "a" 9; Player "b" 9; Player "c" 9;
                           Player "d" 9])).
Proof.
  apply (proj1 (snake_rank_sums [Player "a" 9; Player "b" 9; Player "c" 9;
                                 Player "d" 9])).
  reflexivity.
Defined.

(** *** A seeding and what follows *)

Lemma reranked_names (l : list player) :
  name <$> reranked_from 0 l = name <$> l.
Proof. unfold reranked_from. rewrite fmap_imap. apply imap_const. Qed.

Lemma group_names (l : list player) (algo : string) :
  (name <$> Seeder.A (splitGroups l algo)) ++
  (name <$> Seeder.B (splitGroups l algo)) ≡ₚ name <$> l.
Proof.
  destruct (splitGroups_pick l algo) as (sel & -> & _). simpl.
  by rewrite <- fmap_app, pick_from_partition, reranked_names.
Qed.

Lemma meetings_outside (teams : list player) (a b : string) :
  a ∉ name <$> teams ∨ b ∉ name <$> teams →
  meetings a b (schedule_closed (working_list teams)) = 0.
Proof.
  intros Hout. unfold meetings. rewrite filter_none; [done|].
  intros [c d] [Hc Hd]%pairings_in_roster [[= -> ->]|[= -> ->]];
    destruct Hout; done.
Qed.

Lemma meetings_inside (teams : list player) (a b : string) :
  NoDup (name <$> teams) → a ∈ name <$> teams → b ∈ name <$> teams → a ≠ b →
  meetings a b (schedule_closed (working_list teams)) = 1.
Proof.
  intros Hnd Ha Hb Hab.
  assert (teams ≠ []) as Hne by (intros ->; by apply elem_of_nil in Ha).
  destruct (roundRobin_shape teams Hne) as (h & Hlen & _).
  by apply (meetings_one teams h).
Qed.

(** X22.  who meets whom after a seeding.  [applySeeding] returns for every
    ranking and algorithm.  When the names of the ranking are distinct,
    every competitor is in one of the two groups and not in the other,
    and in the two schedules taken together two competitors of the same
    group meet exactly once, two of different groups never. *)
Theorem seeded_groups_play_apart (ranking : list player) (seedingAlgo : string) :
  NoDup (name <$> ranking) →
  ∃ g s schedA schedB,
    applySeeding ranking seedingAlgo = Some (g, s) ∧
    g = splitGroups ranking seedingAlgo ∧
    roundRobin (Seeder.A g) = Some schedA ∧
    roundRobin (Seeder.B g) = Some schedB ∧
    (∀ a, a ∈ name <$> ranking →
       (a ∈ name <$> Seeder.A g ∧ a ∉ name <$> Seeder.B g) ∨
       (a ∈ name <$> Seeder.B g ∧ a ∉ name <$> Seeder.A g)) ∧
    (∀ a b, a ≠ b →
       (a ∈ name <$> Seeder.A g → b ∈ name <$> Seeder.A g →
          meetings a b schedA = 1 ∧ meetings a b schedB = 0) ∧
       (a ∈ name <$> Seeder.B g → b ∈ name <$> Seeder.B g →
          meetings a b schedB = 1 ∧ meetings a b schedA = 0) ∧
       (a ∈ name <$> Seeder.A g → b ∈ name <$> Seeder.B g →
          meetings a b schedA = 0 ∧ meetings a b schedB = 0 ∧
          meetings b a schedA = 0 ∧ meetings b a schedB = 0)).
Proof.
  intros Hnd.
  set (g := splitGroups ranking seedingAlgo).
  exists g, (State (emptyResults (schedule_closed (working_list (Seeder.A g))) "A")
               (emptyResults (schedule_closed (working_list (Seeder.B g))) "B")),
    (schedule_closed (working_list (Seeder.A g))),
    (schedule_closed (working_list (Seeder.B g))).
  split; [unfold applySeeding; fold g; by rewrite !roundRobin_closed|].
  split; [done|]. split; [apply roundRobin_closed|].
  split; [apply roundRobin_closed|].
  pose proof (group_names ranking seedingAlgo) as Hperm. fold g in Hperm.
  assert (NoDup ((name <$> Seeder.A g) ++ (name <$> Seeder.B g))) as Hnd'
    by (by rewrite Hperm).
  apply NoDup_app in Hnd' as (HndA & Hdisj & HndB).
  split.
  - intros a Ha. rewrite <- Hperm in Ha. apply elem_of_app in Ha as [Ha|Ha].
    + left. split; [done|]. by apply Hdisj.
    + right. split; [done|]. intros Ha'. by apply (Hdisj a).
  - intros a b Hab. split; [|split].
    + intros Ha Hb. split; [by apply meetings_inside|].
      apply meetings_outside. left. by apply Hdisj.
    + intros Ha Hb. split; [by apply meetings_inside|].
      apply meetings_outside. left. intros Ha'. by apply (Hdisj a).
    + intros Ha Hb. repeat split; apply meetings_outside.
      * right. intros Hb'. by apply (Hdisj b).
      * left. by apply Hdisj.
      * left. intros Hb'. by apply (Hdisj b).
      * right. by apply Hdisj.
Qed.

Lemma seeded_groups_play_apart_witness :
  ∃ g s schedA schedB,
    applySeeding [Player "a" 1; Player "b" 2; Player "c" 3; Player "d" 4]
      "had" = Some (g, s) ∧
    roundRobin (Seeder.A g) = Some schedA ∧
    roundRobin (Seeder.B g) = Some schedB.
Proof.
  destruct (seeded_groups_play_apart
              [Player "a" 1; Player "b" 2; Player "c" 3; Player "d" 4] "had")
    as (g & s & schedA & schedB & Hs & _ & HA & HB & _); [compute_done|].
  exists g, s, schedA, schedB. split; [exact Hs|]. split; [exact HA | exact HB].
Defined.

(** X23.  the page right after a seeding.  The result state that
    [applySeeding] sets has a record for every line of the two schedule
    views, all scores empty; the table of each group lists the group in
    its order, every column zero; and the bracket is made of the first
    four of each group. *)
Theorem applySeeding_starts_afresh (Number : string → option Z)
    (ranking : list player) (seedingAlgo : string) :
  ∃ g s schedA schedB,
    applySeeding ranking seedingAlgo = Some (g, s) ∧
    g = splitGroups ranking seedingAlgo ∧
    roundRobin (Seeder.A g) = Some schedA ∧
    roundRobin (Seeder.B g) = Some schedB ∧
    schedule_view schedA (Results.A s) "A" = Some (blank_view schedA) ∧
    schedule_view schedB (Results.B s) "B" = Some (blank_view schedB) ∧
    calcStandings Number (Seeder.A g) (values (Results.A s)) =
      Some (initial_table (Seeder.A g)) ∧
    calcStandings Number (Seeder.B g) (values (Results.B s)) =
      Some (initial_table (Seeder.B g)) ∧
    top4 (initial_table (Seeder.A g)) = name <$> take 4 (Seeder.A g) ∧
    top4 (initial_table (Seeder.B g)) = name <$> take 4 (Seeder.B g).
Proof.
  set (g := splitGroups ranking seedingAlgo).
  exists g, (State (emptyResults (schedule_closed (working_list (Seeder.A g))) "A")
               (emptyResults (schedule_closed (working_list (Seeder.B g))) "B")),
    (schedule_closed (working_list (Seeder.A g))),
    (schedule_closed (working_list (Seeder.B g))).
  split; [unfold applySeeding; fold g; by rewrite !roundRobin_closed|].
  split; [done|]. split; [apply roundRobin_closed|].
  split; [apply roundRobin_closed|]. cbn [Results.A Results.B].
  destruct (groups_sorted ranking seedingAlgo) as [HA HB]. fold g in HA, HB.
  assert (∀ k : list Z, StronglySorted Z.lt k → StronglySorted Z.le k) as Hle.
  { intros k Hk. induction Hk as [|x k Hk IH Hx]; constructor; [done|].
    eapply Forall_impl; [exact Hx|]. intros y Hy. simpl in Hy. lia. }
  assert (∀ players schedule group,
            StronglySorted Z.lt (rank <$> players) →
            calcStandings Number players (values (emptyResults schedule group)) =
            Some (initial_table players)) as Hfresh.
  { intros players schedule group Hs.
    destruct (fresh_table Number players schedule group) as [-> _].
    by rewrite sort_sorted_fixed by (by apply initial_table_sorted, Hle). }
  split; [apply emptyResults_view|]. split; [apply emptyResults_view|].
  split; [by apply Hfresh|]. split; [by apply Hfresh|].
  unfold top4, initial_table. rewrite <- !fmap_take, <- !list_fmap_compose.
  done.
Qed.

(** X24.  the seeding of the second revision.  It puts the first seven of the
    ranking into group A and the others into group B, whatever their
    number, with the ranks numbered through by position; its
    [applySeeding] returns for every ranking. *)
Theorem split_at_seven_partition (ranking : list player) :
  let g := split_at_seven ranking in
  Seeder.A g ++ Seeder.B g = reranked_from 0 ranking ∧
  length (Seeder.A g) = 7 `min` length ranking ∧
  length (Seeder.B g) = length ranking - 7 ∧
  name <$> Seeder.A g = take 7 (name <$> ranking) ∧
  name <$> Seeder.B g = drop 7 (name <$> ranking) ∧
  ∃ s, applySeeding_at_seven ranking = Some (g, s).
Proof.
  intros g. subst g. unfold split_at_seven, groupACount. cbn [Seeder.A Seeder.B].
  split; [|split; [|split; [|split; [|split]]]].
  - rewrite <- (take_drop 7 ranking) at 3. unfold reranked_from.
    rewrite imap_app. f_equal.
    destruct (decide (7 ≤ length ranking)) as [Hge|Hlt].
    + rewrite length_take, Nat.min_l by done. apply imap_ext.
      intros i p _. unfold rerank, set_rank. simpl. f_equal. lia.
    + by rewrite drop_ge by lia.
  - by rewrite length_imap, length_take.
  - by rewrite length_imap, length_drop.
  - rewrite fmap_imap, <- fmap_take. apply imap_const.
  - rewrite fmap_imap, <- fmap_drop. apply imap_const.
  - unfold applySeeding_at_seven, split_at_seven, groupACount.
    cbn [Seeder.A Seeder.B]. rewrite !roundRobin_closed. simpl. eauto.
Qed.

End SeedingFacts.

(** ** The table as a whole *)

Module TableFacts.
Import Standings Bracket Totals.
Import StandingsFacts BracketFacts.

(** *** Column sums *)








Section table_facts.
Context (Number : string → option Z).





(** *** The order and the sides of the records *)











(** *** Two competitors of one name *)






End table_facts.



(** *** The bracket of two tables *)





End TableFacts.

(** ** The stored state *)

Module StorageFacts.
Import StateImport Storage StateImportFacts.

Lemma get_truthy (v : json) (k : string) :
  truthy (Some v) = true → ∃ x, get v k = Some x.
Proof. destruct v; simpl; eauto; done. Qed.

Lemma initial_state_cases (JSON_parse : string → option json)
    (item : option (option string)) :
  initial_state JSON_parse item = Some Fresh ∨
  ∃ raw v,
    item = Some (Some raw) ∧ raw ≠ "" ∧ JSON_parse raw = Some v ∧
    has_key v "A" ∧ has_key v "B" ∧
    initial_state JSON_parse item = Some (Stored v).
Proof.
  unfold initial_state. destruct item as [[raw|]|]; simpl; [|by left..].
  case_bool_decide as Hraw; [by left|].
  destruct (JSON_parse raw) as [v|] eqn:Hp; [|by left].
  destruct (truthy (Some v)) eqn:Tv; [|by left].
  destruct (get_truthy v "A" Tv) as [pa EA].
  destruct (get_truthy v "B" Tv) as [pb EB].
  rewrite EA. simpl. destruct (truthy pa) eqn:TA; [|by left].
  rewrite EB. simpl. destruct (truthy pb) eqn:TB; [|by left].
  right. exists raw, v. eauto 10 using truthy_get_key.
Qed.

(** X29.  the first result state.  In the second and third revision the
    initializer never throws, whatever the storage holds and whatever
    [JSON.parse] does with it; it takes the stored state only if that is a
    parsed object with the two group keys, and the fresh state in every
    other case: no item, an empty text, a text that does not parse, a
    value without one of the keys.  The first revision takes whatever
    parses to a value that is not falsy, such as an object without
    keys. *)
Theorem initial_state_checked (JSON_parse : string → option json)
    (item : option (option string)) :
  ∃ first,
    initial_state JSON_parse item = Some first ∧
    (∀ v, first = Stored v →
       (∃ raw, item = Some (Some raw) ∧ raw ≠ "" ∧ JSON_parse raw = Some v) ∧
       has_key v "A" ∧ has_key v "B") ∧
    (item = None ∨ item = Some None ∨ item = Some (Some "") → first = Fresh) ∧
    (∀ raw, item = Some (Some raw) → JSON_parse raw = None → first = Fresh) ∧
    (∀ raw, item = Some (Some raw) → JSON_parse raw = Some (JObj []) →
       first = Fresh ∧
       initial_state_unchecked JSON_parse item = Stored (JObj [])).
Proof.
  destruct (initial_state_cases JSON_parse item)
    as [Hf|(raw & v & -> & Hraw & Hp & HA & HB & Hs)].
  - exists Fresh. split; [done|]. split; [done|]. split; [done|].
    split; [done|]. intros raw -> Hp. split; [done|].
    unfold initial_state_unchecked. simpl. by rewrite Hp.
  - exists (Stored v). split; [done|]. split; [|split; [|split]].
    + intros v' [= <-]. split; [by exists raw | done].
    + intros [|[|]]; congruence.
    + intros raw' [= <-]. congruence.
    + intros raw' [= <-] Hp'. rewrite Hp in Hp'. injection Hp' as ->.
      simpl in HA. by apply elem_of_nil in HA.
Qed.

End StorageFacts.
